(** * ts-weathermap: telemetry sampling, geometry and rendering decisions

    A shallow embedding of the parts of the weathermap that derive rates,
    utilization and status from SNMP counters (src/snmp.ts and its newer
    revision with speed probing, src/unnamed/part_000), the geometry helpers
    (src/shared/path-utils.ts, computeAutoPath), the colour and width
    decisions of the two renderers (src/map-renderer.ts and
    src/frontend/main.ts) and the poll loop of src/backend.ts.

    JavaScript numbers are modelled as exact numbers: rationals [Q] where
    the code only adds, multiplies, divides and compares, reals [R] where it
    calls [Math.hypot] or [Math.log]. *)

From Stdlib Require Import QArith Qminmax Qround Reals Lra Lia List.
From Stdlib Require Lqa.
From stdpp Require Import base gmap strings pretty.
Import ListNotations.

(* ------------------------------------------------------------------ *)
(** ** Counter sampler (snmp.ts) *)

Module Sampler.
Local Open Scope Q_scope.

(** JavaScript [a < b] on numbers. *)
Definition Qltb (a b : Q) : bool := negb (Qle_bool b a).

Inductive MetricStatus := ok | warning | critical | error.

(** [metricStatus] (snmp.ts lines 73-78). *)
Definition metricStatus (utilization : Q) (hasError : bool) : MetricStatus :=
  if hasError then error
  else if Qle_bool (9 # 10) utilization then critical
  else if Qle_bool (75 # 100) utilization then warning
  else ok.

(** [SampleCacheEntry] (snmp.ts lines 41-45). *)
Module Entry.
Record t := mk { inOctets : Q; outOctets : Q; timestamp : Q }.
End Entry.

Inductive Direction := DirIn | DirOut.

Record Throughput := { bps : Q; fresh : bool }.

Definition previousValueOf (previous : Entry.t) (direction : Direction) : Q :=
  match direction with
  | DirIn => Entry.inOctets previous
  | DirOut => Entry.outOctets previous
  end.

(** [computeThroughput] (snmp.ts lines 94-113); [previous] is [undefined]
    when the cache has no entry. *)
Definition computeThroughput (current : option Q) (previous : option Entry.t)
    (deltaMs : Q) (direction : Direction) : Throughput :=
  match current, previous with
  | Some cur, Some prev =>
      if Qle_bool deltaMs 0 then {| bps := 0; fresh := false |}
      else
        let previousValue := previousValueOf prev direction in
        if Qltb cur previousValue then {| bps := 0; fresh := false |}
        else
          let octetDelta := cur - previousValue in
          let bits := octetDelta * 8 in
          let seconds := deltaMs / 1000 in
          if Qeq_bool seconds 0 then {| bps := 0; fresh := false |}
          else {| bps := bits / seconds; fresh := true |}
  | _, _ => {| bps := 0; fresh := false |}
  end.


(** [STATUS_ORDER] and [combineStatuses] (snmp.ts lines 49 and 80-84). *)
Definition severity (s : MetricStatus) : nat :=
  match s with ok => 0 | warning => 1 | critical => 2 | error => 3 end.

Definition combineStatuses (statuses : list MetricStatus) : MetricStatus :=
  fold_left (fun highest current =>
    if Nat.ltb (severity highest) (severity current) then current else highest)
    statuses ok.

(** The result of [sanitizeOid] on a configured OID string: a normalised
    dotted OID or the validation message. *)
Inductive SanitizedOid := OidOk (oid : string) | OidErr (msg : string).

(** [InterfaceConfig] of the speed-probing revision (part_000 lines 4-11),
    with each OID string already passed through [sanitizeOid];
    [oid_speed = None] when no speed OID is configured. *)
Record InterfaceConfig := {
  name : string;
  oid_in : SanitizedOid;
  oid_out : SanitizedOid;
  max_bandwidth : option Q;
  oid_speed : option SanitizedOid;
  oid_speed_scale : option Q }.

(** [InterfaceSample] (part_000 lines 21-33). *)
Module IS.
Record t := mk {
  name : string;
  inOctets : option Q;
  outOctets : option Q;
  inBps : Q;
  outBps : Q;
  inUtilization : Q;
  outUtilization : Q;
  status : MetricStatus;
  maxBandwidth : Q;
  fresh : bool;
  error : option string }.
End IS.

(** [ifaceSample.error = e; ifaceSample.status = "error"]. *)
Definition failWith (s : IS.t) (e : string) : IS.t :=
  IS.mk (IS.name s) (IS.inOctets s) (IS.outOctets s) (IS.inBps s) (IS.outBps s)
    (IS.inUtilization s) (IS.outUtilization s) error (IS.maxBandwidth s)
    (IS.fresh s) (Some e).

Definition setInOctets (s : IS.t) (v : Q) : IS.t :=
  IS.mk (IS.name s) (Some v) (IS.outOctets s) (IS.inBps s) (IS.outBps s)
    (IS.inUtilization s) (IS.outUtilization s) (IS.status s) (IS.maxBandwidth s)
    (IS.fresh s) (IS.error s).

Definition setOutOctets (s : IS.t) (v : Q) : IS.t :=
  IS.mk (IS.name s) (IS.inOctets s) (Some v) (IS.inBps s) (IS.outBps s)
    (IS.inUtilization s) (IS.outUtilization s) (IS.status s) (IS.maxBandwidth s)
    (IS.fresh s) (IS.error s).

Definition setMaxBandwidth (s : IS.t) (v : Q) : IS.t :=
  IS.mk (IS.name s) (IS.inOctets s) (IS.outOctets s) (IS.inBps s) (IS.outBps s)
    (IS.inUtilization s) (IS.outUtilization s) (IS.status s) v
    (IS.fresh s) (IS.error s).

(** [makeInterfaceSample] (part_000 lines 129-140). *)
Definition makeInterfaceSample (iface : InterfaceConfig) : IS.t :=
  IS.mk (name iface) None None 0 0 0 0 ok
    (match max_bandwidth iface with
     | Some b => if Qltb 0 b then b else 0
     | None => 0
     end)
    false None.

Inductive OidKind := KIn | KOut | KSpeed.

(** The per-interface request plan built in the first loop of [pollRouter]
    (part_000 lines 165-201). *)
Record Target := {
  t_iface : InterfaceConfig;
  t_sample : IS.t;
  entries : list (string * OidKind);
  hasCounters : bool }.

Definition addCounterOid (san : SanitizedOid) (kind : OidKind)
    (acc : IS.t * list (string * OidKind) * bool) : IS.t * list (string * OidKind) * bool :=
  let '(s, es, hc) := acc in
  match san with
  | OidOk oid => (s, es ++ [(oid, kind)], true)
  | OidErr e => (failWith s e, es, hc)
  end.

Definition setupInterface (iface : InterfaceConfig) : Target :=
  let acc := (makeInterfaceSample iface, [], false) in
  let acc := addCounterOid (oid_in iface) KIn acc in
  let acc := addCounterOid (oid_out iface) KOut acc in
  let '(s, es, hc) :=
    match oid_speed iface with
    | None => acc
    | Some san =>
        let '(s, es, hc) := acc in
        match san with
        | OidOk oid => (s, es ++ [(oid, KSpeed)], hc)
        | OidErr e => (failWith s e, es, hc)
        end
    end in
  {| t_iface := iface; t_sample := s; entries := es; hasCounters := hc |}.

(** One varbind as [net-snmp] delivers it: an error varbind (with the text
    of [snmp.varbindError]), a numeric value, or a value of another type. *)
Inductive Varbind := VbError (msg : string) | VbNum (v : Q) | VbOther.

(** The outcome of [getVarbinds]: a rejected request or the varbinds. *)
Inductive Response := RespErr (msg : string) | RespOk (varbinds : list Varbind).

(** The body of [varbinds.forEach] (part_000 lines 232-259). *)
Definition applyVarbind (scale : Q) (s : IS.t) (vm : Varbind * OidKind) : IS.t :=
  let '(varbind, kind) := vm in
  match varbind with
  | VbError msg => failWith s msg
  | VbOther =>
      failWith s ("Unexpected value type for " +:+
        (match kind with KSpeed => "speed" | KIn => "input" | KOut => "output" end)
        +:+ " OID")
  | VbNum numericValue =>
      match kind with
      | KSpeed => if Qltb 0 numericValue then setMaxBandwidth s (numericValue * scale) else s
      | KIn => setInOctets s numericValue
      | KOut => setOutOctets s numericValue
      end
  end.

Definition speedScale (iface : InterfaceConfig) : Q :=
  match oid_speed_scale iface with
  | Some sc => if Qltb 0 sc then sc else 1
  | None => 1
  end.

(** The second loop of [pollRouter] for one target (part_000 lines 212-263);
    [respond] is the device's answer to the request for an interface.
    [varbinds.forEach] pairs the i-th varbind with [target.entries[i]] and
    skips varbinds without an entry, which is what [combine] does. *)
Definition readTarget (respond : string -> list string -> Response) (t : Target) : IS.t :=
  let s := t_sample t in
  if negb (hasCounters t) then s
  else
    let oidList := map fst (entries t) in
    match oidList with
    | [] => s
    | _ =>
        match respond (name (t_iface t)) oidList with
        | RespErr message => failWith s message
        | RespOk varbinds =>
            fold_left (applyVarbind (speedScale (t_iface t)))
              (combine varbinds (map snd (entries t))) s
        end
    end.

(** [cacheKey] (snmp.ts line 128). *)
Definition cacheKey (routerId ifaceName : string) : string :=
  routerId +:+ ":" +:+ ifaceName.

(** [Boolean(ifaceSample.error)]: an empty string is falsy. *)
Definition hasErrorOf (e : option string) : bool :=
  match e with Some m => negb (String.eqb m "") | None => false end.

(** One iteration of the final loop of [pollRouter] (part_000 lines 265-292):
    throughput, utilization, status, freshness and the cache write. *)
Definition finalizeInterface (routerId : string) (now : Q)
    (cache : gmap string Entry.t) (s : IS.t) : IS.t * gmap string Entry.t :=
  let key := cacheKey routerId (IS.name s) in
  let previous := cache !! key in
  let deltaMs := match previous with Some p => now - Entry.timestamp p | None => 0 end in
  let inResult := computeThroughput (IS.inOctets s) previous deltaMs DirIn in
  let outResult := computeThroughput (IS.outOctets s) previous deltaMs DirOut in
  let maxBandwidth := if Qltb 0 (IS.maxBandwidth s) then IS.maxBandwidth s else 1 in
  let inUtilization := bps inResult / maxBandwidth in
  let outUtilization := bps outResult / maxBandwidth in
  let util := Qmax inUtilization outUtilization in
  let hasError := hasErrorOf (IS.error s) in
  let s' := IS.mk (IS.name s) (IS.inOctets s) (IS.outOctets s)
              (bps inResult) (bps outResult) inUtilization outUtilization
              (metricStatus util hasError) (IS.maxBandwidth s)
              (fresh inResult && fresh outResult) (IS.error s) in
  let cache' :=
    match IS.inOctets s, IS.outOctets s with
    | Some i, Some o => <[key := Entry.mk i o now]> cache
    | _, _ => cache
    end in
  (s', cache').

Fixpoint finalizeAll (routerId : string) (now : Q) (cache : gmap string Entry.t)
    (samples : list IS.t) : list IS.t * gmap string Entry.t :=
  match samples with
  | [] => ([], cache)
  | s :: rest =>
      let '(s', cache1) := finalizeInterface routerId now cache s in
      let '(rest', cache2) := finalizeAll routerId now cache1 rest in
      (s' :: rest', cache2)
  end.

(** [RouterSample] (part_000 lines 35-39). Its [interfaces] is a record
    keyed by interface name; the list keeps the samples in configuration
    order, from which the record is built by assigning each name in turn. *)
Module RS.
Record t := mk { status : MetricStatus; interfaces : list IS.t; error : option string }.
End RS.

(** [pollRouter] (part_000 lines 144-298), the interfaces listed in
    configuration order (their names are unique within a router), the
    counter cache passed in and returned. *)
Definition pollRouter (routerId : string) (interfaces : list InterfaceConfig)
    (respond : string -> list string -> Response) (now : Q)
    (cache : gmap string Entry.t) : RS.t * gmap string Entry.t :=
  match interfaces with
  | [] => (RS.mk error [] (Some "No interfaces configured"), cache)
  | _ =>
      let targets := map setupInterface interfaces in
      if negb (existsb hasCounters targets) then
        let samples := map t_sample targets in
        (RS.mk (combineStatuses (map IS.status samples)) samples None, cache)
      else
        let samples := map (readTarget respond) targets in
        let '(final, cache') := finalizeAll routerId now cache samples in
        (RS.mk (combineStatuses (map IS.status final)) final None, cache')
  end.

(** [pollRouters]: the routers are polled concurrently; each router's final
    loop runs without an [await], so the cache sees the routers' final
    loops one after the other, in the order in which their requests
    complete.  [order] is that completion order. *)
Fixpoint pollRouters (order : list (string * list InterfaceConfig))
    (respond : string -> string -> list string -> Response) (now : Q)
    (cache : gmap string Entry.t) : list (string * RS.t) * gmap string Entry.t :=
  match order with
  | [] => ([], cache)
  | (routerId, ifaces) :: rest =>
      let '(sample, cache1) := pollRouter routerId ifaces (respond routerId) now cache in
      let '(samples, cache2) := pollRouters rest respond now cache1 in
      ((routerId, sample) :: samples, cache2)
  end.

(** The published [InterfaceMetrics] built by [toRouterMetrics]
    (backend.ts lines 765-775): the sample without its raw counters. *)
Module IM.
Record t := mk {
  name : string; inBps : Q; outBps : Q; inUtilization : Q; outUtilization : Q;
  status : MetricStatus; maxBandwidth : Q; fresh : bool; error : option string }.
End IM.

Definition toInterfaceMetrics (s : IS.t) : IM.t :=
  IM.mk (IS.name s) (IS.inBps s) (IS.outBps s) (IS.inUtilization s)
    (IS.outUtilization s) (IS.status s) (IS.maxBandwidth s) (IS.fresh s) (IS.error s).

End Sampler.

(* ------------------------------------------------------------------ *)
(** ** Geometry engine (shared/path-utils.ts, computeAutoPath) *)

Module Geometry.
Local Open Scope R_scope.

Record Position := { x : R; y : R }.

(** [Math.hypot]. *)
Definition hypot (dx dy : R) : R := sqrt (dx * dx + dy * dy).

Definition segLength (start end_ : Position) : R :=
  hypot (x end_ - x start) (y end_ - y start).

(** The [segmentLengths] array of [splitPathAtHalf] (lines 22-31). *)
Fixpoint segmentLengths (path : list Position) : list R :=
  match path with
  | start :: ((end_ :: _) as tl) => segLength start end_ :: segmentLengths tl
  | _ => []
  end.

(** [totalLength += length], left to right. *)
Definition totalLength (path : list Position) : R :=
  fold_left Rplus (segmentLengths path) 0.

Record SplitPathResult := {
  midpoint : Position;
  firstHalf : list Position;
  secondHalf : list Position }.

Definition origin : Position := {| x := 0; y := 0 |}.

(** The second loop of [splitPathAtHalf] (lines 42-67): [rest] is
    [path.slice(i)], [accumulated] the sum of the first [i] segment
    lengths.  [None] when the loop runs out (the fallback after it). *)
Fixpoint walk (path rest : list Position) (i : nat) (halfway accumulated : R)
    : option SplitPathResult :=
  match rest with
  | start :: ((end_ :: _) as tl) =>
      let length := segLength start end_ in
      if Rle_dec halfway (accumulated + length) then
        let remaining := halfway - accumulated in
        let ratio := if Req_EM_T length 0 then 0 else remaining / length in
        let midpoint := {| x := x start + (x end_ - x start) * ratio;
                           y := y start + (y end_ - y start) * ratio |} in
        Some {| midpoint := midpoint;
                firstHalf := firstn (i + 1) path ++ [midpoint];
                secondHalf := midpoint :: skipn (i + 1) path |}
      else walk path tl (S i) halfway (accumulated + length)
  | _ => None
  end.

(** [splitPathAtHalf] (path-utils.ts lines 11-75); [clonePosition] copies
    a point, which the value semantics here does already. *)
Definition splitPathAtHalf (path : list Position) : SplitPathResult :=
  match path with
  | [] => {| midpoint := origin; firstHalf := [origin]; secondHalf := [origin] |}
  | [p] => {| midpoint := p; firstHalf := [p]; secondHalf := [p] |}
  | p0 :: _ =>
      let total := totalLength path in
      if Req_EM_T total 0 then
        let midpoint := nth (Nat.div (length path) 2) path origin in
        {| midpoint := midpoint;
           firstHalf := [p0; midpoint];
           secondHalf := [midpoint; List.last path origin] |}
      else
        match walk path path 0 (total / 2) 0 with
        | Some r => r
        | None =>
            let fallbackMidpoint := List.last path origin in
            {| midpoint := fallbackMidpoint; firstHalf := path;
               secondHalf := [fallbackMidpoint] |}
        end
  end.

(** [computeAutoPath] (map-renderer.ts lines 83-100, the same text in
    frontend/main.ts lines 209-231); [Math.hypot(dx, dy) || 1] replaces a
    zero length by 1.  [groupSize] and [index] are a group's length and a
    member's position in it. *)
Definition computeAutoPath (from to : Position) (groupSize index : nat) : list Position :=
  let dx := x to - x from in
  let dy := y to - y from in
  let length := if Req_EM_T (hypot dx dy) 0 then 1 else hypot dx dy in
  let midpoint := {| x := x from + dx / 2; y := y from + dy / 2 |} in
  let normalizedPerp := {| x := - dy / length; y := dx / length |} in
  let spacing := Rmin 160 (Rmax 40 (length / 3)) in
  let offset := (INR index - (INR groupSize - 1) / 2) * spacing in
  let control := {| x := x midpoint + x normalizedPerp * offset;
                    y := y midpoint + y normalizedPerp * offset |} in
  if Nat.eqb groupSize 1 || (if Rlt_dec (Rabs offset) 1 then true else false)
  then [from; to]
  else [from; control; to].

End Geometry.

(* ------------------------------------------------------------------ *)
(** ** Rendering decisions (map-renderer.ts and frontend/main.ts) *)

Module Render.

Section Width.
Local Open Scope R_scope.

Definition MIN_LINK_WIDTH : R := 2.
Definition MAX_LINK_WIDTH : R := 14.

Record CapacityRange := { min : R; max : R }.

(** [capacityToWidth] (map-renderer.ts lines 177-193; frontend/main.ts
    lines 366-382 reads the range from the global [capacityRange]).
    [!capacity] holds for [null] and for [0]. *)
Definition capacityToWidth (capacity : option R) (range : option CapacityRange) : R :=
  match capacity, range with
  | Some c, Some r =>
      if Req_EM_T c 0 then MIN_LINK_WIDTH
      else if Rle_dec c 0 then MIN_LINK_WIDTH
      else if Rle_dec (min r) 0 then MIN_LINK_WIDTH
      else if Req_EM_T (max r) (min r) then (MIN_LINK_WIDTH + MAX_LINK_WIDTH) / 2
      else
        let logMin := ln (min r) in
        let logMax := ln (max r) in
        let logValue := ln c in
        let t := Rmin 1 (Rmax 0 ((logValue - logMin) / (logMax - logMin))) in
        MIN_LINK_WIDTH + (MAX_LINK_WIDTH - MIN_LINK_WIDTH) * t
  | _, _ => MIN_LINK_WIDTH
  end.
End Width.

Section Colors.
Local Open Scope Q_scope.

(** A JavaScript number that the colour mapping can receive. *)
Inductive JsNumber := NaN | Num (q : Q).

Record Bucket := { bmin : Q; bmax : Q; color : string; label : string }.

(** [UTILIZATION_BUCKETS] (map-renderer.ts lines 20-29; the same table in
    frontend/main.ts lines 102-111). *)
Definition UTILIZATION_BUCKETS : list Bucket := [
  {| bmin := 0; bmax := 1 # 100; color := "#0ea5e9"; label := "0-1%" |};
  {| bmin := 1 # 100; bmax := 2 # 10; color := "#22c55e"; label := "1-20%" |};
  {| bmin := 2 # 10; bmax := 4 # 10; color := "#84cc16"; label := "20-40%" |};
  {| bmin := 4 # 10; bmax := 6 # 10; color := "#facc15"; label := "40-60%" |};
  {| bmin := 6 # 10; bmax := 8 # 10; color := "#f97316"; label := "60-80%" |};
  {| bmin := 8 # 10; bmax := 9 # 10; color := "#ea580c"; label := "80-90%" |};
  {| bmin := 9 # 10; bmax := 99 # 100; color := "#ef4444"; label := "90-99%" |};
  {| bmin := 99 # 100; bmax := 101 # 100; color := "#991b1b"; label := "99-100%" |}].

Definition UNKNOWN_COLOR : string := "#5a646d".

Definition lastBucket : Bucket :=
  nth (length UTILIZATION_BUCKETS - 1) UTILIZATION_BUCKETS
    {| bmin := 0; bmax := 0; color := ""; label := "" |}.

(** [utilToColor] (map-renderer.ts lines 156-164, frontend/main.ts lines
    113-120); [None] is [null]. *)
Definition utilToColor (utilization : option JsNumber) : string :=
  match utilization with
  | None | Some NaN => UNKNOWN_COLOR
  | Some (Num u) =>
      match find (fun range => Qle_bool (bmin range) u && Sampler.Qltb u (bmax range))
                 UTILIZATION_BUCKETS with
      | Some bucket => color bucket
      | None => color lastBucket
      end
  end.
End Colors.


Local Open Scope Q_scope.

Module IfaceDef.
Record t := mk { name : string; maxBandwidth : option Q }.
End IfaceDef.

Module RouterDef.
Record t := mk { id : string; interfaces : list IfaceDef.t }.
End RouterDef.

Module LinkDef.
Record t := mk { id : string; from : string; to : string; ifaceFrom : string; ifaceTo : string }.
End LinkDef.

(** The published metrics as the capacity code reads them: router id to
    interface name to the interface's published [maxBandwidth]. *)
Abbreviation MetricCaps := (gmap string (gmap string Q)).

(** [filter((value): value is number => typeof value === "number" && value > 0)]. *)
Definition positiveCandidates (values : list (option Q)) : list Q :=
  flat_map (fun v => match v with Some q => if Sampler.Qltb 0 q then [q] else [] | None => [] end) values.

(** [Math.min(...xs)] and [Math.max(...xs)] on a non-empty array. *)
Definition listMin (xs : list Q) : option Q :=
  match xs with [] => None | h :: tl => Some (fold_left Qmin tl h) end.
Definition listMax (xs : list Q) : option Q :=
  match xs with [] => None | h :: tl => Some (fold_left Qmax tl h) end.

(** [buildRouterMap]: [Map.set] for each router, a later id replacing an
    earlier one. *)
Definition buildRouterMap (routers : list RouterDef.t) : gmap string RouterDef.t :=
  fold_left (fun m r => <[RouterDef.id r := r]> m) routers ∅.

(** [getInterfaceCapacity] (map-renderer.ts lines 77-81). *)
Definition getInterfaceCapacity (router : option RouterDef.t) (ifaceName : string) : option Q :=
  match router with
  | None => None
  | Some r =>
      match find (fun c => String.eqb (IfaceDef.name c) ifaceName) (RouterDef.interfaces r) with
      | Some iface => IfaceDef.maxBandwidth iface
      | None => None
      end
  end.

(** [computeLinkCapacities] (map-renderer.ts lines 54-75), the offline
    image back-end: the capacities pushed and the map from link id. *)
Definition computeLinkCapacities (routers : list RouterDef.t) (links : list LinkDef.t)
    : list Q * gmap string (option Q) :=
  let routerMap := buildRouterMap routers in
  fold_left (fun acc link =>
    let '(capacities, map) := acc in
    let forwardCapacity := getInterfaceCapacity (routerMap !! LinkDef.from link) (LinkDef.ifaceFrom link) in
    let reverseCapacity := getInterfaceCapacity (routerMap !! LinkDef.to link) (LinkDef.ifaceTo link) in
    let capacity := listMin (positiveCandidates [forwardCapacity; reverseCapacity]) in
    let capacities := match capacity with Some c => capacities ++ [c] | None => capacities end in
    (capacities, <[LinkDef.id link := capacity]> map)) links ([], ∅).

(** [interfaceDefinitionCapacity] (frontend/main.ts lines 165-170). *)
Definition interfaceDefinitionCapacity (routers : list RouterDef.t) (routerId ifaceName : string) : option Q :=
  match find (fun c => String.eqb (RouterDef.id c) routerId) routers with
  | None => None
  | Some r =>
      match find (fun c => String.eqb (IfaceDef.name c) ifaceName) (RouterDef.interfaces r) with
      | Some iface => IfaceDef.maxBandwidth iface
      | None => None
      end
  end.

(** [interfaceMetricCapacity] (frontend/main.ts lines 172-176); [None]
    for [metrics] is the state before the first metrics message. *)
Definition interfaceMetricCapacity (metrics : option MetricCaps) (routerId ifaceName : string) : option Q :=
  match metrics with
  | None => None
  | Some m => match m !! routerId with None => None | Some ifs => ifs !! ifaceName end
  end.

(** [rebuildLinkCapacities] (frontend/main.ts lines 178-207), the
    interactive back-end. *)
Definition rebuildLinkCapacities (routers : list RouterDef.t) (links : list LinkDef.t)
    (metrics : option MetricCaps) : list Q * gmap string (option Q) :=
  fold_left (fun acc link =>
    let '(capacities, map) := acc in
    let forwardMetric := interfaceMetricCapacity metrics (LinkDef.from link) (LinkDef.ifaceFrom link) in
    let reverseMetric := interfaceMetricCapacity metrics (LinkDef.to link) (LinkDef.ifaceTo link) in
    let candidates := positiveCandidates [forwardMetric; reverseMetric] in
    let candidates :=
      match candidates with
      | [] => positiveCandidates
                [interfaceDefinitionCapacity routers (LinkDef.from link) (LinkDef.ifaceFrom link);
                 interfaceDefinitionCapacity routers (LinkDef.to link) (LinkDef.ifaceTo link)]
      | _ => candidates
      end in
    let capacity := listMin candidates in
    let capacities :=
      match capacity with
      | Some c => if Qeq_bool c 0 then capacities else capacities ++ [c]
      | None => capacities
      end in
    (capacities, <[LinkDef.id link := capacity]> map)) links ([], ∅).

(** [capacities.length ? { min, max } : null], in both back-ends. *)
Definition capacityRangeOf (capacities : list Q) : option CapacityRange :=
  match listMin capacities, listMax capacities with
  | Some lo, Some hi => Some {| min := Q2R lo; max := Q2R hi |}
  | _, _ => None
  end.

(** The stroke width each back-end gives a link. *)
Definition offlineLinkWidth (routers : list RouterDef.t) (links : list LinkDef.t) (linkId : string) : R :=
  let '(capacities, map) := computeLinkCapacities routers links in
  capacityToWidth (option_map Q2R (match map !! linkId with Some c => c | None => None end))
    (capacityRangeOf capacities).

Definition interactiveLinkWidth (routers : list RouterDef.t) (links : list LinkDef.t)
    (metrics : option MetricCaps) (linkId : string) : R :=
  let '(capacities, map) := rebuildLinkCapacities routers links metrics in
  capacityToWidth (option_map Q2R (match map !! linkId with Some c => c | None => None end))
    (capacityRangeOf capacities).


End Render.

(* ------------------------------------------------------------------ *)
(** ** Poll loop (backend.ts) *)

Module PollLoop.

Inductive Result (A : Type) := Ok (a : A) | Throw (e : string).
Arguments Ok {A} a.
Arguments Throw {A} e.

Section Loop.
Context {Snapshot Payload : Type}.

(** The module-level state the loop touches: [latestMetrics],
    [latestImagePath], the pending [setTimeout] (its delay), the
    configured interval of [runtime.config], the messages broadcast and
    the console log. *)
Record State := mkState {
  latestMetrics : option Payload;
  latestImagePath : option string;
  pending : option nat;
  pollIntervalMs : nat;
  sent : list Payload;
  log : list string }.

(** What one cycle receives from outside: the settled [pollRouters]
    promise, the conversion of a snapshot into the payload
    ([toRouterMetrics], [toLinkMetrics], the timestamp) which may throw,
    the outcome of [renderMapSnapshot], and the [latestImagePath] that
    [pruneSnapshots] reads off the image directory after it (the first
    component of [Snapshots.pruneSnapshots]; [Throw] when [readdirSync]
    throws). *)
Record CycleEnv := {
  polled : Result Snapshot;
  build : Snapshot -> Result Payload;
  rendered : Result (option string);
  pruned : Result (option string) }.

(** State and exceptions, as an [async] function body runs them. *)
Definition M (A : Type) := State -> Result A * State.

Definition ret {A} (a : A) : M A := fun st => (Ok a, st).
Definition bind {A B} (m : M A) (k : A -> M B) : M B :=
  fun st => match m st with
            | (Ok a, st1) => k a st1
            | (Throw e, st1) => (Throw e, st1)
            end.
Definition lift {A} (r : Result A) : M A := fun st => (r, st).
Definition modify (f : State -> State) : M unit := fun st => (Ok tt, f st).
Definition tryCatch {A} (m : M A) (h : string -> M A) : M A :=
  fun st => match m st with
            | (Throw e, st1) => h e st1
            | r => r
            end.
Definition tryFinally {A} (m : M A) (fin : M unit) : M A :=
  fun st => let '(r, st1) := m st in
            match fin st1 with
            | (Ok _, st2) => (r, st2)
            | (Throw e, st2) => (Throw e, st2)
            end.

Notation "x <- m ;; k" := (bind m (fun x => k)) (at level 100, m at next level, right associativity).
Notation "m ;; k" := (bind m (fun _ => k)) (at level 100, right associativity).

Definition consoleError (msg : string) : M unit :=
  modify (fun st => mkState (latestMetrics st) (latestImagePath st) (pending st)
                      (pollIntervalMs st) (sent st) (log st ++ [msg])).

Definition setLatestMetrics (payload : Payload) : M unit :=
  modify (fun st => mkState (Some payload) (latestImagePath st) (pending st)
                      (pollIntervalMs st) (sent st) (log st)).

Definition setLatestImagePath (p : string) : M unit :=
  modify (fun st => mkState (latestMetrics st) (Some p) (pending st)
                      (pollIntervalMs st) (sent st) (log st)).

(** [latestImagePath = files[0].fullPath] or [latestImagePath = null] in
    [pruneSnapshots]. *)
Definition resetLatestImagePath (p : option string) : M unit :=
  modify (fun st => mkState (latestMetrics st) p (pending st)
                      (pollIntervalMs st) (sent st) (log st)).

(** [broadcast]: [JSON.stringify] of a payload of numbers and strings and
    [client.send] on open sockets only, so it does not throw. *)
Definition broadcast (payload : Payload) : M unit :=
  modify (fun st => mkState (latestMetrics st) (latestImagePath st) (pending st)
                      (pollIntervalMs st) (sent st ++ [payload]) (log st)).

(** [setTimeout(pollLoop, runtime.config.pollIntervalMs)]. *)
Definition scheduleNext : M unit :=
  modify (fun st => mkState (latestMetrics st) (latestImagePath st)
                      (Some (pollIntervalMs st)) (pollIntervalMs st) (sent st) (log st)).

(** [saveSnapshotImage] (backend.ts lines 826-841). Besides
    [latestImagePath], [pruneSnapshots] only starts [fs.unlink] calls whose
    failures are reported later, from their callbacks. *)
Definition saveSnapshotImage (env : CycleEnv) : M unit :=
  tryCatch
    (imagePath <- lift (rendered env) ;;
     match imagePath with
     | Some p => setLatestImagePath p ;;
                 latest <- lift (pruned env) ;;
                 resetLatestImagePath latest
     | None => ret tt
     end)
    (fun e => consoleError ("Failed to render map snapshot" +:+ e)).

(** [pollLoop] of the first revision (backend.ts lines 387-405). *)
Definition pollLoopV1 (env : CycleEnv) : M unit :=
  tryFinally
    (tryCatch
       (snapshot <- lift (polled env) ;;
        payload <- lift (build env snapshot) ;;
        setLatestMetrics payload ;;
        broadcast payload)
       (fun e => consoleError ("Failed to poll routers" +:+ e)))
    scheduleNext.

(** [pollLoop] of the second revision (backend.ts lines 918-937), which
    also exports the image. *)
Definition pollLoopV2 (env : CycleEnv) : M unit :=
  tryFinally
    (tryCatch
       (snapshot <- lift (polled env) ;;
        payload <- lift (build env snapshot) ;;
        setLatestMetrics payload ;;
        broadcast payload ;;
        saveSnapshotImage env)
       (fun e => consoleError ("Failed to poll routers" +:+ e)))
    scheduleNext.

(** Successive cycles, each started by the timer the previous one set. *)
Fixpoint runCycles (cycle : CycleEnv -> M unit) (envs : list CycleEnv) (st : State) : State :=
  match envs with
  | [] => st
  | env :: rest => runCycles cycle rest (snd (cycle env st))
  end.

(** The payload a successful cycle publishes, [None] when it throws. *)
Definition cyclePayload (env : CycleEnv) : option Payload :=
  match polled env with
  | Ok snapshot => match build env snapshot with Ok p => Some p | Throw _ => None end
  | Throw _ => None
  end.

(** The payload of the last successful cycle, or the one before them. *)
Fixpoint lastPublished (envs : list CycleEnv) (before : option Payload) : option Payload :=
  match envs with
  | [] => before
  | env :: rest =>
      lastPublished rest (match cyclePayload env with Some p => Some p | None => before end)
  end.

End Loop.
End PollLoop.

(* ------------------------------------------------------------------ *)
(** ** Observations and concrete configurations used by the properties *)

Module Scenarios.
Import Sampler.
Local Open Scope Q_scope.

(** The speed values a response pairs with the speed entry. *)
Definition speedValues (l : list (Varbind * OidKind)) : list Q :=
  flat_map (fun vm => match vm with (VbNum v, KSpeed) => [v] | _ => [] end) l.

Definition speedReadings (t : Target) (r : Response) : list Q :=
  match r with
  | RespOk varbinds => speedValues (combine varbinds (map snd (entries t)))
  | RespErr _ => []
  end.

(** The static capacity is not positive (or absent). *)
Definition noStaticCapacity (iface : InterfaceConfig) : Prop :=
  match max_bandwidth iface with Some b => b <= 0 | None => True end.

(** An interface configured with a speed OID and no static capacity, as
    the configuration loader accepts it (backend.ts lines 594-599). *)
Definition probedIface : InterfaceConfig := {|
  name := "ge0";
  oid_in := OidOk "1.3.6.1.2.1.31.1.1.1.6.1";
  oid_out := OidOk "1.3.6.1.2.1.31.1.1.1.10.1";
  max_bandwidth := None;
  oid_speed := Some (OidOk "1.3.6.1.2.1.31.1.1.1.15.1");
  oid_speed_scale := None |}.

(** The device answers the counters and the given speed. *)
Definition probedRespond (speed : Q) : string -> list string -> Response :=
  fun _ _ => RespOk [VbNum 1000100; VbNum 500; VbNum speed].

Definition probedCache : gmap string Entry.t := <["r1:ge0" := Entry.mk 100 500 0]> ∅.

(** The published interface records of router [r1] one second later. *)
Definition probedPublished (speed : Q) : list IM.t :=
  map toInterfaceMetrics
    (RS.interfaces (fst (pollRouter "r1" [probedIface] (probedRespond speed) 1000 probedCache))).

(** Every non-numeric field of a published record. *)
Definition flagsOf (m : IM.t) : string * MetricStatus * bool * option string :=
  (IM.name m, IM.status m, IM.fresh m, IM.error m).

(** Two routers whose ids and interface names run into the same cache
    key: router [r] with interface [a:b] and router [r:a] with interface
    [b]. *)
Definition counterIface (n : string) : InterfaceConfig := {|
  name := n;
  oid_in := OidOk "1.3.6.1.2.1.31.1.1.1.6.2";
  oid_out := OidOk "1.3.6.1.2.1.31.1.1.1.10.2";
  max_bandwidth := Some 1000000000;
  oid_speed := None;
  oid_speed_scale := None |}.

Definition routerR : string * list InterfaceConfig := ("r", [counterIface "a:b"]).
Definition routerRA : string * list InterfaceConfig := ("r:a", [counterIface "b"]).

(** Router [r] times out this cycle; router [r:a] answers. *)
Definition collideRespond : string -> string -> list string -> Response :=
  fun routerId _ _ =>
    if String.eqb routerId "r" then RespErr "Request timed out"
    else RespOk [VbNum 5; VbNum 7].

(** The entry (r, a:b) left by the previous cycle. *)
Definition collideCache : gmap string Entry.t := <["r:a:b" := Entry.mk 100 200 0]> ∅.

(** A link between two interfaces whose capacity is known only from their
    speed OIDs: the loader leaves the definitions' [maxBandwidth] null
    (backend.ts line 614) while the snapshot carries the probed 1 Gbit/s. *)
Definition speedOnlyRouters : list Render.RouterDef.t :=
  [Render.RouterDef.mk "A" [Render.IfaceDef.mk "eth0" None];
   Render.RouterDef.mk "B" [Render.IfaceDef.mk "eth0" None]].

Definition speedOnlyLinks : list Render.LinkDef.t :=
  [Render.LinkDef.mk "L" "A" "B" "eth0" "eth0"].

Definition speedOnlyMetrics : Render.MetricCaps :=
  <["A" := <["eth0" := 1000000000]> ∅]> (<["B" := <["eth0" := 1000000000]> ∅]> ∅).

End Scenarios.

(** Arc length and fan-out as the specification describes them. *)
Module GeometrySpec.
Import Geometry.
Local Open Scope R_scope.

(** The Euclidean length of a polyline. *)
Fixpoint pathLength (path : list Position) : R :=
  match path with
  | a :: ((b :: _) as tl) => segLength a b + pathLength tl
  | _ => 0
  end.

(** The point at fraction [t] of the segment from [a] to [b]. *)
Definition pointAt (a b : Position) (t : R) : Position :=
  {| x := x a + (x b - x a) * t; y := y a + (y b - y a) * t |}.

Definition distance (a b : Position) : R := segLength a b.

Definition clamp (v lo hi : R) : R := Rmax lo (Rmin hi v).

Definition spacingSpec (from to : Position) : R := clamp (distance from to / 3) 40 160.

Definition offsetSpec (from to : Position) (groupSize index : nat) : R :=
  (INR index - (INR groupSize - 1) / 2) * spacingSpec from to.

(** The unit vector perpendicular to [to - from]; the zero vector when the
    endpoints coincide and no direction exists. *)
Definition unitPerp (from to : Position) : Position :=
  let d := distance from to in
  if Req_EM_T d 0 then origin
  else {| x := - (y to - y from) / d; y := (x to - x from) / d |}.

Definition controlSpec (from to : Position) (groupSize index : nat) : Position :=
  let off := offsetSpec from to groupSize index in
  {| x := (x from + x to) / 2 + x (unitPerp from to) * off;
     y := (y from + y to) / 2 + y (unitPerp from to) * off |}.

Definition autoPathSpec (from to : Position) (groupSize index : nat) : list Position :=
  if Nat.eqb groupSize 1 then [from; to]
  else if Rlt_dec (Rabs (offsetSpec from to groupSize index)) 1 then [from; to]
  else [from; controlSpec from to groupSize index; to].

End GeometrySpec.

(* ------------------------------------------------------------------ *)
(** ** OID strings (part_000 lines 55-73, snmp.ts lines 51-71) *)

Module Oid.
Import Sampler.

(** Strings are sequences of 8-bit characters, read as the UTF-16 code
    units 0..255. The white space [String.prototype.trim] strips among
    them: tab, line feed, vertical tab, form feed, carriage return, space
    and no-break space. *)
Definition isJsSpace (c : Ascii.ascii) : bool :=
  match Ascii.nat_of_ascii c with
  | 9 | 10 | 11 | 12 | 13 | 32 | 160 => true
  | _ => false
  end%nat.

Fixpoint trimStart (s : string) : string :=
  match s with
  | EmptyString => EmptyString
  | String c t => if isJsSpace c then trimStart t else s
  end.

Fixpoint trimEnd (s : string) : string :=
  match s with
  | EmptyString => EmptyString
  | String c t =>
      let t' := trimEnd t in
      if isJsSpace c && String.eqb t' EmptyString then EmptyString else String c t'
  end.

(** [s.trim()]. *)
Definition trim (s : string) : string := trimEnd (trimStart s).

Definition dotChar : Ascii.ascii := Ascii.ascii_of_nat 46.

Definition isDot (c : Ascii.ascii) : bool := Ascii.eqb c dotChar.

(** [s.split(".")]: always at least one piece. *)
Fixpoint splitDot (s : string) : list string :=
  match s with
  | EmptyString => [EmptyString]
  | String c t =>
      if isDot c then EmptyString :: splitDot t
      else match splitDot t with
           | [] => [String c EmptyString]
           | h :: r => String c h :: r
           end
  end.

(** [segments.join(".")]. *)
Fixpoint joinDot (l : list string) : string :=
  match l with
  | [] => EmptyString
  | [x] => x
  | x :: r => x +:+ String dotChar (joinDot r)
  end.

(** [\d]: an ASCII digit. *)
Definition isDigit (c : Ascii.ascii) : bool :=
  (48 <=? Ascii.nat_of_ascii c)%nat && (Ascii.nat_of_ascii c <=? 57)%nat.

Fixpoint allDigits (s : string) : bool :=
  match s with
  | EmptyString => true
  | String c t => isDigit c && allDigits t
  end.

(** [/^\d+$/.test(segment)]. *)
Definition isNumericSegment (s : string) : bool :=
  negb (String.eqb s EmptyString) && allDigits s.

Definition quoted (s : string) : string :=
  String (Ascii.ascii_of_nat 34) (s +:+ String (Ascii.ascii_of_nat 34) EmptyString).

(** [sanitizeOid] (part_000 lines 55-73, snmp.ts lines 53-71): [OidOk] for [{ oid }], [OidErr]
    for [{ oid: null, error }]. *)
Definition sanitizeOid (raw : string) : SanitizedOid :=
  let trimmed := trim raw in
  if String.eqb trimmed EmptyString then OidErr "OID is required"
  else
    let segments := List.filter (fun seg => negb (String.eqb seg EmptyString)) (splitDot trimmed) in
    match segments with
    | [] => OidErr ("OID " +:+ quoted raw +:+ " is not a dotted numeric string")
    | _ =>
        match find (fun seg => negb (isNumericSegment seg)) segments with
        | Some segment =>
            OidErr ("OID " +:+ quoted raw +:+ " contains invalid segment " +:+ quoted segment)
        | None => OidOk (joinDot segments)
        end
    end.

Fixpoint dropLeadingDots (s : string) : string :=
  match s with
  | String c t => if isDot c then dropLeadingDots t else s
  | EmptyString => EmptyString
  end.

(** [normalizeOid] (snmp.ts line 51): [oid.trim().replace(/^\.+/, "")]. *)
Definition normalizeOid (oid : string) : string := dropLeadingDots (trim oid).

End Oid.

(* ------------------------------------------------------------------ *)
(** ** Configuration normalisation (backend.ts, second revision, lines 572-689)

    The YAML record of routers is given as the list [Object.entries]
    returns; the other JavaScript records are modelled by their own
    properties (a lookup of an absent key is [None]); keys naming members
    of [Object.prototype] ([__proto__], [constructor], [toString], ...) are
    outside the model. A raw field is [None] when it is absent; numbers read
    from YAML are finite and modelled as [Q]. A thrown [Error] is
    [PollLoop.Throw] with its message. *)

Module Config.
Local Open Scope Q_scope.

Abbreviation Result := PollLoop.Result.

(** The value of an optional string field when it is truthy (present and
    not empty). *)
Definition truthy (o : option string) : option string :=
  match o with
  | Some s => if String.eqb s "" then None else Some s
  | None => None
  end.

(** [arr.map(f)] where [f] may throw: the first exception propagates. *)
Fixpoint mapR {A B} (f : A -> Result B) (l : list A) : Result (list B) :=
  match l with
  | [] => PollLoop.Ok []
  | a :: r =>
      match f a with
      | PollLoop.Throw e => PollLoop.Throw e
      | PollLoop.Ok b =>
          match mapR f r with
          | PollLoop.Throw e => PollLoop.Throw e
          | PollLoop.Ok bs => PollLoop.Ok (b :: bs)
          end
      end
  end.

(** [arr.map((x, index) => f(index, x))], the index starting at [i]. *)
Fixpoint mapiR {A B} (f : nat -> A -> Result B) (i : nat) (l : list A) : Result (list B) :=
  match l with
  | [] => PollLoop.Ok []
  | a :: r =>
      match f i a with
      | PollLoop.Throw e => PollLoop.Throw e
      | PollLoop.Ok b =>
          match mapiR f (S i) r with
          | PollLoop.Throw e => PollLoop.Throw e
          | PollLoop.Ok bs => PollLoop.Ok (b :: bs)
          end
      end
  end.

Module RawPos.
Record t := mk { x : option Q; y : option Q }.
End RawPos.

(** [RawInterfaceConfig] (backend.ts lines 444-452). *)
Module RawIface.
Record t := mk {
  name : option string; oid_in : option string; oid_out : option string;
  max_bandwidth : option Q; oid_speed : option string; oid_speed_scale : option Q;
  display_name : option string }.
End RawIface.

(** [RawRouterConfig] (backend.ts lines 454-463). *)
Module RawRouter.
Record t := mk {
  ip : option string; community : option string; label : option string;
  position : option RawPos.t; interfaces : option (list RawIface.t) }.
End RawRouter.

(** [RawLinkConfig] (backend.ts lines 465-476); a path point that is
    [null] is [None]. *)
Module RawLink.
Record t := mk {
  id : option string; from : string; to : string; iface_from : string; iface_to : string;
  label : option string; path : option (list (option RawPos.t)) }.
End RawLink.

Module Pt.
Record t := mk { x : Q; y : Q }.
End Pt.

(** The [poll] half of a normalised interface: snmp's [InterfaceConfig]. *)
Module PollIface.
Record t := mk {
  name : string; oid_in : string; oid_out : string; max_bandwidth : Q;
  oid_speed : option string; oid_speed_scale : option Q; display_name : string }.
End PollIface.

(** snmp's [RouterConfig]. *)
Module PollRouter.
Record t := mk { ip : string; community : string; label : string; interfaces : list PollIface.t }.
End PollRouter.

(** The [definition] half of a normalised interface. *)
Module IfaceDefn.
Record t := mk {
  name : string; displayName : string; maxBandwidth : option Q;
  speedOid : option string; speedScale : option Q }.
End IfaceDefn.

Module RouterDefn.
Record t := mk { id : string; label : string; position : Pt.t; interfaces : list IfaceDefn.t }.
End RouterDefn.

Module LinkDefn.
Record t := mk {
  id : string; from : string; to : string; ifaceFrom : string; ifaceTo : string;
  label : option string; path : option (list Pt.t) }.
End LinkDefn.

Definition q := Oid.quoted.

(** The callback of [router.interfaces.map] in [normaliseRouters]
    (backend.ts lines 583-617). *)
Definition normaliseInterface (routerId : string) (iface : RawIface.t)
    : Result (PollIface.t * IfaceDefn.t) :=
  match truthy (RawIface.name iface) with
  | None => PollLoop.Throw ("Router " +:+ q routerId +:+ " has an interface without a name")
  | Some nm =>
      match truthy (RawIface.oid_in iface), truthy (RawIface.oid_out iface) with
      | Some oidIn, Some oidOut =>
          let trimmedSpeedOid :=
            match RawIface.oid_speed iface with
            | Some s => truthy (Some (Oid.trim s))
            | None => None
            end in
          let speedScale :=
            match trimmedSpeedOid, RawIface.oid_speed_scale iface with
            | Some _, Some sc => if Sampler.Qltb 0 sc then sc else 1
            | _, _ => 1
            end in
          let staticBandwidth :=
            match RawIface.max_bandwidth iface with
            | Some b => if Sampler.Qltb 0 b then Some b else None
            | None => None
            end in
          match staticBandwidth, trimmedSpeedOid with
          | None, None =>
              PollLoop.Throw ("Interface " +:+ q nm +:+ " on router " +:+ q routerId
                              +:+ " must define either max_bandwidth (> 0) or oid_speed")
          | _, _ =>
              let scale := match trimmedSpeedOid with Some _ => Some speedScale | None => None end in
              let displayName := match RawIface.display_name iface with Some d => d | None => nm end in
              PollLoop.Ok
                (PollIface.mk nm oidIn oidOut
                   (match staticBandwidth with Some b => b | None => 0 end)
                   trimmedSpeedOid scale displayName,
                 IfaceDefn.mk nm displayName staticBandwidth trimmedSpeedOid scale)
          end
      | _, _ =>
          PollLoop.Throw ("Interface " +:+ q nm +:+ " on router " +:+ q routerId
                          +:+ " must define both oid_in and oid_out")
      end
  end.

(** The body of the loop of [normaliseRouters] (backend.ts lines 576-636). *)
Definition normaliseRouter (routerId : string) (router : RawRouter.t)
    : Result (PollRouter.t * RouterDefn.t) :=
  match truthy (RawRouter.ip router), truthy (RawRouter.community router) with
  | Some ip, Some community =>
      match RawRouter.interfaces router with
      | None | Some [] =>
          PollLoop.Throw ("Router " +:+ q routerId +:+ " must define at least one interface")
      | Some ifaces =>
          match mapR (normaliseInterface routerId) ifaces with
          | PollLoop.Throw e => PollLoop.Throw e
          | PollLoop.Ok normalized =>
              let label := match RawRouter.label router with Some l => l | None => routerId end in
              let coord f := match RawRouter.position router with
                             | Some p => match f p with Some v => v | None => 0 end
                             | None => 0
                             end in
              PollLoop.Ok
                (PollRouter.mk ip community label (map fst normalized),
                 RouterDefn.mk routerId label (Pt.mk (coord RawPos.x) (coord RawPos.y))
                   (map snd normalized))
          end
      end
  | _, _ => PollLoop.Throw ("Router " +:+ q routerId +:+ " must define both ip and community")
  end.

Fixpoint normaliseRoutersFrom (entries : list (string * RawRouter.t))
    (routerPollConfig : gmap string PollRouter.t) (routerDefinitions : list RouterDefn.t)
    : Result (gmap string PollRouter.t * list RouterDefn.t) :=
  match entries with
  | [] => PollLoop.Ok (routerPollConfig, routerDefinitions)
  | (routerId, router) :: rest =>
      match normaliseRouter routerId router with
      | PollLoop.Throw e => PollLoop.Throw e
      | PollLoop.Ok (poll, defn) =>
          normaliseRoutersFrom rest (<[routerId := poll]> routerPollConfig)
            (routerDefinitions ++ [defn])
      end
  end.

(** [normaliseRouters] (backend.ts lines 572-640). *)
Definition normaliseRouters (entries : list (string * RawRouter.t)) :=
  normaliseRoutersFrom entries ∅ [].

Definition normalizePoint (index : nat) (point : option RawPos.t) : Result Pt.t :=
  let err := PollLoop.Throw ("Link path point #" +:+ pretty (N.of_nat index)
                             +:+ " must declare numeric x/y coordinates") in
  match point with
  | Some p =>
      match RawPos.x p, RawPos.y p with
      | Some x, Some y => PollLoop.Ok (Pt.mk x y)
      | _, _ => err
      end
  | None => err
  end.

(** [normalizePath] (backend.ts lines 642-651). *)
Definition normalizePath (path : option (list (option RawPos.t))) : Result (option (list Pt.t)) :=
  match path with
  | None | Some [] => PollLoop.Ok None
  | Some points =>
      match mapiR normalizePoint 0 points with
      | PollLoop.Throw e => PollLoop.Throw e
      | PollLoop.Ok l => PollLoop.Ok (Some l)
      end
  end.

(** The first [map] of [normaliseLinks] (backend.ts lines 655-663). *)
Definition prepareLink (index : nat) (link : RawLink.t) : Result LinkDefn.t :=
  let id := match RawLink.id link with
            | Some i => i
            | None => RawLink.from link +:+ "-" +:+ RawLink.to link +:+ "-" +:+ pretty (N.of_nat index)
            end in
  match normalizePath (RawLink.path link) with
  | PollLoop.Throw e => PollLoop.Throw e
  | PollLoop.Ok path =>
      PollLoop.Ok (LinkDefn.mk id (RawLink.from link) (RawLink.to link)
                     (RawLink.iface_from link) (RawLink.iface_to link) (RawLink.label link) path)
  end.

(** [routers[key]] on the record given by its entries. *)
Fixpoint lookupEntry {A} (key : string) (entries : list (string * A)) : option A :=
  match entries with
  | [] => None
  | (k, v) :: rest => if String.eqb k key then Some v else lookupEntry key rest
  end.

Definition hasName (n : string) (iface : RawIface.t) : bool :=
  match RawIface.name iface with Some m => String.eqb m n | None => false end.

(** The second [map] of [normaliseLinks] (backend.ts lines 663-681). *)
Definition checkLink (routers : list (string * RawRouter.t)) (link : LinkDefn.t) : Result LinkDefn.t :=
  match lookupEntry (LinkDefn.from link) routers with
  | None => PollLoop.Throw ("Link " +:+ q (LinkDefn.id link) +:+ " references unknown router "
                            +:+ q (LinkDefn.from link))
  | Some fromRouter =>
      match lookupEntry (LinkDefn.to link) routers with
      | None => PollLoop.Throw ("Link " +:+ q (LinkDefn.id link) +:+ " references unknown router "
                                +:+ q (LinkDefn.to link))
      | Some toRouter =>
          match RawRouter.interfaces fromRouter, RawRouter.interfaces toRouter with
          | Some fromIfaces, Some toIfaces =>
              match find (hasName (LinkDefn.ifaceFrom link)) fromIfaces,
                    find (hasName (LinkDefn.ifaceTo link)) toIfaces with
              | None, _ =>
                  PollLoop.Throw ("Link " +:+ q (LinkDefn.id link) +:+ " references unknown interface "
                                  +:+ q (LinkDefn.ifaceFrom link) +:+ " on router " +:+ q (LinkDefn.from link))
              | Some _, None =>
                  PollLoop.Throw ("Link " +:+ q (LinkDefn.id link) +:+ " references unknown interface "
                                  +:+ q (LinkDefn.ifaceTo link) +:+ " on router " +:+ q (LinkDefn.to link))
              | Some _, Some _ => PollLoop.Ok link
              end
          | _, _ => PollLoop.Throw "Cannot read properties of undefined (reading 'find')"
          end
      end
  end.

(** [normaliseLinks] (backend.ts lines 653-682). *)
Definition normaliseLinks (links : option (list RawLink.t)) (routers : list (string * RawRouter.t))
    : Result (list LinkDefn.t) :=
  match links with
  | None => PollLoop.Ok []
  | Some ls =>
      match mapiR prepareLink 0 ls with
      | PollLoop.Throw e => PollLoop.Throw e
      | PollLoop.Ok prepared => mapR (checkLink routers) prepared
      end
  end.

(** Lines 688-689 of [loadRuntimeConfig]: routers first, then links, both
    from the same raw record. *)
Definition normaliseConfig (routers : list (string * RawRouter.t)) (links : option (list RawLink.t))
    : Result (gmap string PollRouter.t * list RouterDefn.t * list LinkDefn.t) :=
  match normaliseRouters routers with
  | PollLoop.Throw e => PollLoop.Throw e
  | PollLoop.Ok (pc, defs) =>
      match normaliseLinks links routers with
      | PollLoop.Throw e => PollLoop.Throw e
      | PollLoop.Ok ls => PollLoop.Ok (pc, defs, ls)
      end
  end.

End Config.

(* ------------------------------------------------------------------ *)
(** ** Published metrics (backend.ts, second revision, lines 719-818) *)

Module Metrics.
Import Sampler Config.
Local Open Scope Q_scope.

(** [RouterSample] with its record of interface samples. *)
Module Snap.
Record t := mk { status : MetricStatus; interfaces : gmap string IS.t; error : option string }.
End Snap.

(** [RouterMetrics]. *)
Module RM.
Record t := mk {
  id : string; label : string; status : MetricStatus; interfaces : gmap string IM.t;
  error : option string }.
End RM.

(** The placeholder metrics of an interface without a sample. *)
Definition placeholder (iface : IfaceDefn.t) (msg : string) : IM.t :=
  IM.mk (IfaceDefn.name iface) 0 0 0 0 error
    (match IfaceDefn.maxBandwidth iface with Some b => b | None => 0 end) false (Some msg).

(** The body of the loop of [toRouterMetrics] (backend.ts lines 722-785). *)
Definition routerMetrics (snapshot : gmap string Snap.t) (router : RouterDefn.t) : RM.t :=
  match snapshot !! RouterDefn.id router with
  | None =>
      RM.mk (RouterDefn.id router) (RouterDefn.label router) error
        (fold_left (fun acc iface => <[IfaceDefn.name iface := placeholder iface "No SNMP data"]> acc)
           (RouterDefn.interfaces router) ∅)
        (Some "No SNMP data")
  | Some sample =>
      RM.mk (RouterDefn.id router) (RouterDefn.label router) (Snap.status sample)
        (fold_left (fun acc iface =>
                      match Snap.interfaces sample !! IfaceDefn.name iface with
                      | None => <[IfaceDefn.name iface :=
                                   placeholder iface "Interface missing from SNMP poll"]> acc
                      | Some s => <[IfaceDefn.name iface := toInterfaceMetrics s]> acc
                      end)
           (RouterDefn.interfaces router) ∅)
        (truthy (Snap.error sample))
  end.

(** [toRouterMetrics] (backend.ts lines 719-789). *)
Definition toRouterMetrics (snapshot : gmap string Snap.t) (routers : list RouterDefn.t)
    : gmap string RM.t :=
  fold_left (fun metrics router => <[RouterDefn.id router := routerMetrics snapshot router]> metrics)
    routers ∅.

(** [utilisationForInterface] (backend.ts lines 791-794). *)
Definition utilisationForInterface (iface : option IM.t) : option Q :=
  match iface with
  | Some i => Some (Qmax (IM.inUtilization i) (IM.outUtilization i))
  | None => None
  end.

(** [LinkMetrics]. *)
Module LM.
Record t := mk {
  id : string; label : option string; from : string; to : string;
  forward : option IM.t; reverse : option IM.t; aggregateUtilization : option Q }.
End LM.

Definition linkMetrics (routers : gmap string RM.t) (link : LinkDefn.t) : LM.t :=
  let forward := match routers !! LinkDefn.from link with
                 | Some r => RM.interfaces r !! LinkDefn.ifaceFrom link
                 | None => None
                 end in
  let reverse := match routers !! LinkDefn.to link with
                 | Some r => RM.interfaces r !! LinkDefn.ifaceTo link
                 | None => None
                 end in
  let forwardUtil := utilisationForInterface forward in
  let reverseUtil := utilisationForInterface reverse in
  let aggregateUtilization :=
    match forwardUtil, reverseUtil with
    | None, None => None
    | _, _ => Some (Qmax (match forwardUtil with Some u => u | None => 0 end)
                         (match reverseUtil with Some u => u | None => 0 end))
    end in
  LM.mk (LinkDefn.id link) (LinkDefn.label link) (LinkDefn.from link) (LinkDefn.to link)
    forward reverse aggregateUtilization.

(** [toLinkMetrics] (backend.ts lines 796-818). *)
Definition toLinkMetrics (routers : gmap string RM.t) (links : list LinkDefn.t) : list LM.t :=
  map (linkMetrics routers) links.

End Metrics.

(* ------------------------------------------------------------------ *)
(** ** Link paths (map-renderer.ts lines 48-53 and 102-149; the same text
    is [rebuildLinkPaths] in frontend/main.ts lines 233-283)

    A JavaScript [Map] is a [gmap] where only lookups matter and an
    association list in insertion order where it is iterated.
    [a.id.localeCompare(b.id)] is a parameter: its order depends on the
    locale. [Array.prototype.sort] is stable, and for a comparator that is a
    total preorder its result is the stable insertion sort below. *)

Module Paths.
Import Geometry.

(** The fields of [RouterDefinition] and [LinkDefinition] the paths read. *)
Module RouterP.
Record t := mk { id : string; position : Position }.
End RouterP.

Module LinkP.
Record t := mk { id : string; from : string; to : string; path : option (list Position) }.
End LinkP.

(** [buildRouterMap]: [map.set] for each router, a later id replacing an
    earlier one. *)
Definition buildRouterMap (routers : list RouterP.t) : gmap string RouterP.t :=
  fold_left (fun m r => <[RouterP.id r := r]> m) routers ∅.

(** The body of the first [forEach] (lines 105-116). *)
Definition addManualPath (routerMap : gmap string RouterP.t)
    (manualPaths : gmap string (list Position)) (link : LinkP.t) : gmap string (list Position) :=
  match LinkP.path link with
  | None | Some [] => manualPaths
  | Some points =>
      match routerMap !! LinkP.from link, routerMap !! LinkP.to link with
      | Some fromRouter, Some toRouter =>
          <[LinkP.id link := RouterP.position fromRouter :: points ++ [RouterP.position toRouter]]>
            manualPaths
      | _, _ => manualPaths
      end
  end.

(** [[link.from, link.to].sort().join("::")]: the default sort compares
    code units. *)
Definition groupKey (link : LinkP.t) : string :=
  match String.compare (LinkP.from link) (LinkP.to link) with
  | Gt => LinkP.to link +:+ "::" +:+ LinkP.from link
  | _ => LinkP.from link +:+ "::" +:+ LinkP.to link
  end.

(** [group.push(link); groupMap.set(key, group)]: an existing key keeps
    its place. *)
Fixpoint addToGroup (key : string) (link : LinkP.t) (groups : list (string * list LinkP.t))
    : list (string * list LinkP.t) :=
  match groups with
  | [] => [(key, [link])]
  | (k, g) :: rest =>
      if String.eqb k key then (k, g ++ [link]) :: rest else (k, g) :: addToGroup key link rest
  end.

Section WithLocale.
Variable localeCompare : string -> string -> Z.

Fixpoint insertSorted (x : LinkP.t) (l : list LinkP.t) : list LinkP.t :=
  match l with
  | [] => [x]
  | y :: r =>
      if Z.ltb 0 (localeCompare (LinkP.id y) (LinkP.id x)) then x :: y :: r
      else y :: insertSorted x r
  end.

(** [group.sort((a, b) => a.id.localeCompare(b.id))]. *)
Definition sortGroup (group : list LinkP.t) : list LinkP.t :=
  fold_left (fun acc x => insertSorted x acc) group [].

(** The body of [group.forEach((link, index) => ...)] (lines 131-140). *)
Definition placeLink (routerMap : gmap string RouterP.t) (manualPaths : gmap string (list Position))
    (groupSize : nat) (paths : gmap string (list Position)) (index : nat) (link : LinkP.t)
    : gmap string (list Position) :=
  match manualPaths !! LinkP.id link with
  | Some points => <[LinkP.id link := points]> paths
  | None =>
      match routerMap !! LinkP.from link, routerMap !! LinkP.to link with
      | Some fromRouter, Some toRouter =>
          <[LinkP.id link := computeAutoPath (RouterP.position fromRouter) (RouterP.position toRouter)
                               groupSize index]> paths
      | _, _ => paths
      end
  end.

Fixpoint placeFrom (routerMap : gmap string RouterP.t) (manualPaths : gmap string (list Position))
    (groupSize index : nat) (group : list LinkP.t) (paths : gmap string (list Position))
    : gmap string (list Position) :=
  match group with
  | [] => paths
  | link :: rest =>
      placeFrom routerMap manualPaths groupSize (S index) rest
        (placeLink routerMap manualPaths groupSize paths index link)
  end.

(** The callback of [groupMap.forEach] (lines 129-141). *)
Definition placeGroup (routerMap : gmap string RouterP.t) (manualPaths : gmap string (list Position))
    (paths : gmap string (list Position)) (group : list LinkP.t) : gmap string (list Position) :=
  let sorted := sortGroup group in
  placeFrom routerMap manualPaths (length sorted) 0 sorted paths.

(** [computeLinkPaths] (map-renderer.ts lines 102-149). *)
Definition computeLinkPaths (routers : list RouterP.t) (links : list LinkP.t)
    : gmap string (list Position) :=
  let routerMap := buildRouterMap routers in
  let manualPaths := fold_left (addManualPath routerMap) links ∅ in
  let groupMap := fold_left (fun g link => addToGroup (groupKey link) link g) links [] in
  let paths := fold_left (fun acc kg => placeGroup routerMap manualPaths acc kg.2) groupMap ∅ in
  map_fold (fun id points acc =>
              match acc !! id with Some _ => acc | None => <[id := points]> acc end)
    paths manualPaths.

End WithLocale.
End Paths.

(* ------------------------------------------------------------------ *)
(** ** Sidebar helpers (frontend/main.ts) *)

Module Frontend.
Import Render.
Local Open Scope Q_scope.

(** [htmlEscapeMap] (lines 56-62), looked up by character. *)
Definition htmlEscapeMap (c : Ascii.ascii) : option string :=
  if Ascii.eqb c (Ascii.ascii_of_nat 38) then Some "&amp;"
  else if Ascii.eqb c (Ascii.ascii_of_nat 60) then Some "&lt;"
  else if Ascii.eqb c (Ascii.ascii_of_nat 62) then Some "&gt;"
  else if Ascii.eqb c (Ascii.ascii_of_nat 34) then Some "&quot;"
  else if Ascii.eqb c (Ascii.ascii_of_nat 39) then Some "&#39;"
  else None.

(** [escapeHtml] (line 64): its global pattern matches exactly the five
    characters of the map; every other character is left as it is. *)
Fixpoint escapeHtml (value : string) : string :=
  match value with
  | EmptyString => EmptyString
  | String c rest =>
      match htmlEscapeMap c with
      | Some e => e +:+ escapeHtml rest
      | None => String c (escapeHtml rest)
      end
  end.

(** [Math.min] and [Math.max] of two numbers: NaN as soon as one is. *)
Definition jsMin (a b : JsNumber) : JsNumber :=
  match a, b with Num x, Num y => Num (Qmin x y) | _, _ => NaN end.
Definition jsMax (a b : JsNumber) : JsNumber :=
  match a, b with Num x, Num y => Num (Qmax x y) | _, _ => NaN end.

(** [Math.round]: the nearest integer, halves rounded up; [None] is NaN. *)
Definition jsRound (a : JsNumber) : option Z :=
  match a with Num x => Some (Qfloor (x + (1 # 2))) | NaN => None end.

(** Lines 153-154 of [renderUtilBar]: the [percent] written as the width
    of the bar; [None] for the utilization is [null] or [undefined]. *)
Definition utilBarPercent (utilization : option JsNumber) : option Z :=
  let clamped := match utilization with
                 | Some u => jsMax (Num 0) (jsMin (Num 1) u)
                 | None => Num 0
                 end in
  jsRound (match clamped with Num c => Num (c * 100) | NaN => NaN end).

(** [${percent}] for an integer or NaN. *)
Definition percentText (p : option Z) : string :=
  match p with Some z => pretty z | None => "NaN" end.

(** [renderUtilBar] (lines 152-157). *)
Definition renderUtilBar (utilization : option JsNumber) : string :=
  let percent := utilBarPercent utilization in
  let color := utilToColor utilization in
  "<div class=" +:+ Oid.quoted "util-bar" +:+ "><span class=" +:+ Oid.quoted "util-bar-fill" +:+
  " style=" +:+ Oid.quoted ("width:" +:+ percentText percent +:+ "%;background:" +:+ color) +:+
  "></span></div>".

Definition units : list string := ["bps"; "Kbps"; "Mbps"; "Gbps"; "Tbps"].

(** The [while] loop of [formatThroughput] (lines 142-145). Each turn
    raises [unitIndex], which the guard keeps below [length units - 1], so
    [length units] turns of [fuel] are never used up. *)
Fixpoint scaleLoop (fuel : nat) (value : Q) (unitIndex : nat) : Q * nat :=
  match fuel with
  | O => (value, unitIndex)
  | S fuel' =>
      if Qle_bool 1000 value && Nat.ltb unitIndex (length units - 1)
      then scaleLoop fuel' (value / 1000) (S unitIndex)
      else (value, unitIndex)
  end.

(** [formatThroughput] (lines 134-150) up to the final [toFixed]: [None]
    for the ["0 bps"] branch ([!bps], NaN or [bps <= 0]), otherwise the
    scaled value, the [precision] handed to [toFixed] and the index into
    [units]. *)
Definition formatThroughputParts (bps : option JsNumber) : option (Q * nat * nat) :=
  match bps with
  | Some (Num b) =>
      if Qle_bool b 0 then None
      else
        let '(value, unitIndex) := scaleLoop (length units) b 0 in
        let precision := if Qle_bool 100 value then 0%nat
                         else if Qle_bool 10 value then 1%nat else 2%nat in
        Some (value, precision, unitIndex)
  | _ => None
  end.

End Frontend.

(* ------------------------------------------------------------------ *)
(** ** Saved map images (backend.ts, second revision) *)

Module Snapshots.
Local Open Scope Q_scope.

Definition MAX_SAVED_MAP_IMAGES : nat := 50.

(** [{ fullPath, mtime }]. *)
Record Entry := mkEntry { fullPath : string; mtime : Q }.

(** [file.endsWith(".png")]. *)
Definition endsWithPng (file : string) : bool :=
  String.eqb (String.substring (String.length file - 4) 4 file) ".png".

Section Dir.
(** [path.join(IMAGE_DIR, file)]. *)
Variable joinImageDir : string -> string.

(** The [.filter], [.map] and [.filter] of [collectSnapshotFiles] (lines
    519-530) over the directory listing: each file with the [mtimeMs] of
    [fs.statSync], [None] when the call throws. *)
Definition pngEntries (listing : list (string * option Q)) : list Entry :=
  flat_map (fun '(file, stat) =>
              if endsWithPng file then
                match stat with Some m => [mkEntry (joinImageDir file) m] | None => [] end
              else []) listing.

(** [.sort((a, b) => b.mtime - a.mtime)]: a stable sort, newest first; an
    entry goes before the first one it is strictly newer than. *)
Fixpoint insertByMtime (e : Entry) (l : list Entry) : list Entry :=
  match l with
  | [] => [e]
  | y :: r => if Sampler.Qltb (mtime y) (mtime e) then e :: y :: r else y :: insertByMtime e r
  end.

(** [collectSnapshotFiles] (lines 514-532); [dirExists] is
    [fs.existsSync(IMAGE_DIR)]. *)
Definition collectSnapshotFiles (dirExists : bool) (listing : list (string * option Q)) : list Entry :=
  if dirExists then fold_left (fun acc e => insertByMtime e acc) (pngEntries listing) [] else [].

(** [pruneSnapshots] (lines 534-548): the new [latestImagePath] and the
    paths handed to [fs.unlink]. *)
Definition pruneSnapshots (dirExists : bool) (listing : list (string * option Q))
    : option string * list string :=
  match collectSnapshotFiles dirExists listing with
  | [] => (None, [])
  | (first :: _) as files => (Some (fullPath first), map fullPath (skipn MAX_SAVED_MAP_IMAGES files))
  end.
End Dir.

End Snapshots.

(* ------------------------------------------------------------------ *)
(** ** Vocabulary of the OID and configuration properties *)

Module OidSpec.
Import Oid.

Fixpoint allChars (p : Ascii.ascii -> bool) (s : string) : bool :=
  match s with
  | EmptyString => true
  | String c t => p c && allChars p t
  end.

Definition digitOrDot (c : Ascii.ascii) : bool := isDigit c || isDot c.

End OidSpec.

Module ConfigSpec.
Import Config.
Local Open Scope Q_scope.

(** What an interface must satisfy to be accepted by [normaliseInterface]. *)
Definition rawIfaceValid (iface : RawIface.t) : Prop :=
  truthy (RawIface.name iface) <> None /\
  truthy (RawIface.oid_in iface) <> None /\ truthy (RawIface.oid_out iface) <> None /\
  ((exists b, RawIface.max_bandwidth iface = Some b /\ 0 < b) \/
   (exists s, RawIface.oid_speed iface = Some s /\ Oid.trim s <> "")).

(** The interface invariants a normalised definition keeps. *)
Definition ifaceDefnSound (d : IfaceDefn.t) : Prop :=
  (forall b, IfaceDefn.maxBandwidth d = Some b -> 0 < b) /\
  (IfaceDefn.maxBandwidth d = None -> IfaceDefn.speedOid d <> None) /\
  (forall o, IfaceDefn.speedOid d = Some o -> o <> "") /\
  (IfaceDefn.speedScale d = None <-> IfaceDefn.speedOid d = None) /\
  (forall sc, IfaceDefn.speedScale d = Some sc -> 0 < sc).

(** The poll half and the definition half of an interface agree. *)
Definition ifaceAgree (p : PollIface.t) (d : IfaceDefn.t) : Prop :=
  PollIface.name p = IfaceDefn.name d /\
  PollIface.display_name p = IfaceDefn.displayName d /\
  PollIface.max_bandwidth p = match IfaceDefn.maxBandwidth d with Some b => b | None => 0 end /\
  PollIface.oid_speed p = IfaceDefn.speedOid d /\
  PollIface.oid_speed_scale p = IfaceDefn.speedScale d.

(** A router of the raw record that has an interface of the given name. *)
Definition references (routers : list (string * RawRouter.t)) (rid iname : string) : Prop :=
  exists r ifaces i, lookupEntry rid routers = Some r /\ RawRouter.interfaces r = Some ifaces /\
                     In i ifaces /\ RawIface.name i = Some iname.

(** The id [normaliseLinks] gives the link at [index]. *)
Definition linkId (index : nat) (l : RawLink.t) : string :=
  match RawLink.id l with
  | Some i => i
  | None => RawLink.from l +:+ "-" +:+ RawLink.to l +:+ "-" +:+ pretty (N.of_nat index)
  end.

End ConfigSpec.

Module MetricsSpec.
Import Sampler Config Metrics.

(** The metrics [toRouterMetrics] records under an interface's name, given
    the router's sample if there is one. *)
Definition ifaceEntry (sample : option Snap.t) (iface : IfaceDefn.t) : IM.t :=
  match sample with
  | None => placeholder iface "No SNMP data"
  | Some s =>
      match Snap.interfaces s !! IfaceDefn.name iface with
      | None => placeholder iface "Interface missing from SNMP poll"
      | Some x => toInterfaceMetrics x
      end
  end.

End MetricsSpec.

Module PathsSpec.
Import Geometry Paths.

(** [pts] is the manual path of [link]: its two routers are known and its
    non-empty [path] is drawn between their positions. *)
Definition manualPathOf (routerMap : gmap string RouterP.t) (link : LinkP.t)
    (pts : list Position) : Prop :=
  exists f t points,
    routerMap !! LinkP.from link = Some f /\ routerMap !! LinkP.to link = Some t /\
    LinkP.path link = Some points /\ points <> [] /\
    pts = RouterP.position f :: points ++ [RouterP.position t].

(** [pts] joins the two known routers of [link]: its manual path, a
    straight segment, or a curve through one control point. *)
Definition pathOfLink (routerMap : gmap string RouterP.t) (link : LinkP.t)
    (pts : list Position) : Prop :=
  exists f t,
    routerMap !! LinkP.from link = Some f /\ routerMap !! LinkP.to link = Some t /\
    (manualPathOf routerMap link pts \/
     pts = [RouterP.position f; RouterP.position t] \/
     exists c, pts = [RouterP.position f; c; RouterP.position t]).

(** The links of a group are those whose [groupKey] is [k]. *)
Definition keyIs (k : string) (link : LinkP.t) : bool := String.eqb (groupKey link) k.

End PathsSpec.

Module CapacitySpec.
Import Render.
Local Open Scope Q_scope.

(** [o] when it is a positive number. *)
Definition positive (o : option Q) : option Q :=
  match o with Some q => if Qlt_le_dec 0 q then Some q else None | None => None end.

(** The smaller of the positive ones among [a] and [b]; none if neither is. *)
Definition minPositive (a b : option Q) : option Q :=
  match positive a, positive b with
  | Some x, Some y => Some (Qmin x y)
  | Some x, None => Some x
  | None, Some y => Some y
  | None, None => None
  end.

(** The capacity the offline renderer gives a link: the smaller positive
    [maxBandwidth] of the interfaces at its two ends in the topology. *)
Definition offlineCapacity (routers : list RouterDef.t) (link : LinkDef.t) : option Q :=
  let routerMap := buildRouterMap routers in
  minPositive (getInterfaceCapacity (routerMap !! LinkDef.from link) (LinkDef.ifaceFrom link))
              (getInterfaceCapacity (routerMap !! LinkDef.to link) (LinkDef.ifaceTo link)).

(** The capacity the interactive renderer gives a link: from the snapshot's
    interfaces when one of them is positive, from the topology otherwise. *)
Definition interactiveCapacity (routers : list RouterDef.t) (metrics : option MetricCaps)
    (link : LinkDef.t) : option Q :=
  match minPositive (interfaceMetricCapacity metrics (LinkDef.from link) (LinkDef.ifaceFrom link))
                    (interfaceMetricCapacity metrics (LinkDef.to link) (LinkDef.ifaceTo link)) with
  | Some c => Some c
  | None => minPositive (interfaceDefinitionCapacity routers (LinkDef.from link) (LinkDef.ifaceFrom link))
                        (interfaceDefinitionCapacity routers (LinkDef.to link) (LinkDef.ifaceTo link))
  end.

Definition optionList {A} (o : option A) : list A := match o with Some a => [a] | None => [] end.

End CapacitySpec.

Module SnapshotsSpec.
Import Snapshots.
Local Open Scope Q_scope.

(** Newest first: no entry is newer than one before it. *)
Fixpoint newestFirst (l : list Entry) : Prop :=
  match l with
  | [] => True
  | e :: r => Forall (fun e' => mtime e' <= mtime e) r /\ newestFirst r
  end.

End SnapshotsSpec.

Module FrontendSpec.
Import Frontend.

(** The characters that open or close markup or an attribute value. *)
Definition markupChar (c : Ascii.ascii) : bool :=
  Ascii.eqb c (Ascii.ascii_of_nat 60) || Ascii.eqb c (Ascii.ascii_of_nat 62) ||
  Ascii.eqb c (Ascii.ascii_of_nat 34) || Ascii.eqb c (Ascii.ascii_of_nat 39).

(** The five characters [escapeHtml] replaces. *)
Definition escapedChar (c : Ascii.ascii) : bool :=
  Ascii.eqb c (Ascii.ascii_of_nat 38) || markupChar c.

(** What [escapeHtml] writes for one character. *)
Definition escapedForm (c : Ascii.ascii) : string :=
  match htmlEscapeMap c with Some e => e | None => String c EmptyString end.

End FrontendSpec.

(* ------------------------------------------------------------------ *)
(** ** Sample configuration and topology *)

Module ConfigScenarios.
Import Sampler Config Metrics.
Local Open Scope Q_scope.

Definition rawIface (n oidIn oidOut : string) : RawIface.t :=
  RawIface.mk (Some n) (Some oidIn) (Some oidOut) (Some 1000000000) None None None.

Definition sampleRouters : list (string * RawRouter.t) :=
  [("core", RawRouter.mk (Some "10.0.0.1") (Some "public") (Some "Core") None
              (Some [rawIface "ge-0/0/0" ".1.3.6.1.2.1.31.1.1.1.6.1" "1.3.6.1.2.1.31.1.1.1.10.1"]));
   ("edge", RawRouter.mk (Some "10.0.0.2") (Some "public") None None
              (Some [rawIface "xe-1/0/0" "1.3.6.1.2.1.31.1.1.1.6.2" "1.3.6.1.2.1.31.1.1.1.10.2"]))].

Definition sampleLinks : option (list RawLink.t) :=
  Some [RawLink.mk None "core" "edge" "ge-0/0/0" "xe-1/0/0" (Some "uplink") None].

Definition samplePoll : gmap string PollRouter.t :=
  match normaliseRouters sampleRouters with PollLoop.Ok (pc, _) => pc | PollLoop.Throw _ => ∅ end.

Definition sampleDefs : list RouterDefn.t :=
  match normaliseRouters sampleRouters with PollLoop.Ok (_, defs) => defs | PollLoop.Throw _ => [] end.

Definition sampleLinkDefs : list LinkDefn.t :=
  match normaliseLinks sampleLinks sampleRouters with PollLoop.Ok ls => ls | PollLoop.Throw _ => [] end.

Definition coreMetrics : RM.t :=
  match toRouterMetrics ∅ sampleDefs !! "core" with
  | Some rm => rm
  | None => RM.mk "" "" error ∅ None
  end.

End ConfigScenarios.

Module PathsScenarios.
Import Geometry Paths.
Local Open Scope R_scope.

Definition pos (a b : R) : Position := {| x := a; y := b |}.

Definition sampleRouters : list RouterP.t :=
  [RouterP.mk "a" (pos 0 0); RouterP.mk "b" (pos 300 0); RouterP.mk "c" (pos 300 200)].

Definition straightLink : LinkP.t := LinkP.mk "a-b" "a" "b" None.
Definition manualLink : LinkP.t := LinkP.mk "b-c" "b" "c" (Some [pos 350 100]).
Definition danglingLink : LinkP.t := LinkP.mk "c-x" "c" "x" None.

Definition sampleLinks : list LinkP.t := [straightLink; manualLink; danglingLink].

(** A [localeCompare] on plain ASCII ids. *)
Definition byCodeUnits (a b : string) : Z :=
  match String.compare a b with Lt => -1 | Eq => 0 | Gt => 1 end%Z.

End PathsScenarios.

(* ================================================================== *)
(** * Properties *)

Module SamplerFacts.
Import Sampler.
Local Open Scope Q_scope.

Example throughput_sample :
  let r := computeThroughput (Some 1100) (Some (Entry.mk 100 0 0)) 2000 DirIn in
  Qeq_bool (bps r) 4000 = true /\ fresh r = true.
Proof. split; reflexivity. Qed.

Example throughput_wrap :
  computeThroughput (Some 50) (Some (Entry.mk 100 0 0)) 2000 DirIn = {| bps := 0; fresh := false |}.
Proof. reflexivity. Qed.

Lemma Qltb_true (a b : Q) : Qltb a b = true <-> a < b.
Proof.
  unfold Qltb. rewrite negb_true_iff. split; intros H.
  - apply Qnot_le_lt. intros Hle. apply Qle_bool_iff in Hle. congruence.
  - destruct (Qle_bool b a) eqn:E; [|reflexivity].
    apply Qle_bool_iff in E. exfalso. apply (Qlt_not_le a b); assumption.
Qed.

Lemma Qltb_false (a b : Q) : Qltb a b = false <-> b <= a.
Proof.
  unfold Qltb. rewrite negb_false_iff. apply Qle_bool_iff.
Qed.

Lemma Qle_bool_false (a b : Q) : Qle_bool a b = false <-> b < a.
Proof.
  split; intros H.
  - apply Qnot_le_lt. intros Hle. apply Qle_bool_iff in Hle. congruence.
  - destruct (Qle_bool a b) eqn:E; [|reflexivity].
    apply Qle_bool_iff in E. exfalso. apply (Qlt_not_le b a); assumption.
Qed.

Lemma finalizeInterface_error (routerId : string) (now : Q) (cache : gmap string Entry.t) (s : IS.t) :
  IS.error (fst (finalizeInterface routerId now cache s)) = IS.error s.
Proof. reflexivity. Qed.

(** C1: with a current value, a previous entry, a positive elapsed time
    and no decrease, [computeThroughput] returns
    [(current - previous) * 8 / (elapsed / 1000)] and [fresh = true]; with
    no current value, no previous entry, a non-positive elapsed time or a
    decrease (wrap or reset) it returns rate 0 and [fresh = false], and the
    interface step that uses it sets no error string. *)
Theorem computeThroughput_rate_or_zero :
  forall (current : option Q) (previous : option Entry.t) (deltaMs : Q) (direction : Direction),
    (forall (c : Q) (p : Entry.t), current = Some c -> previous = Some p -> 0 < deltaMs ->
       previousValueOf p direction <= c ->
       computeThroughput current previous deltaMs direction =
       {| bps := (c - previousValueOf p direction) * 8 / (deltaMs / 1000); fresh := true |})
    /\ ((current = None \/ previous = None \/ deltaMs <= 0 \/
         (exists (c : Q) (p : Entry.t), current = Some c /\ previous = Some p /\
            c < previousValueOf p direction)) ->
       computeThroughput current previous deltaMs direction = {| bps := 0; fresh := false |})
    /\ (forall (routerId : string) (now : Q) (cache : gmap string Entry.t) (s : IS.t),
         IS.error (fst (finalizeInterface routerId now cache s)) = IS.error s).
Proof.
  intros current previous deltaMs direction. split; [|split].
  - intros c p -> -> Hd Hle. simpl.
    destruct (Qle_bool deltaMs 0) eqn:E1.
    { apply Qle_bool_iff in E1. exfalso. apply (Qlt_not_le 0 deltaMs); assumption. }
    destruct (Qltb c (previousValueOf p direction)) eqn:E2.
    { apply Qltb_true in E2. exfalso. apply (Qlt_not_le c (previousValueOf p direction)); assumption. }
    destruct (Qeq_bool (deltaMs / 1000) 0) eqn:E3; [|reflexivity].
    apply Qeq_bool_iff in E3. exfalso.
    assert (Hpos : 0 < deltaMs / 1000).
    { apply Qlt_shift_div_l; [reflexivity|]. rewrite Qmult_0_l. assumption. }
    rewrite E3 in Hpos. apply (Qlt_irrefl 0). assumption.
  - intros [H|[H|[H|(c & p & -> & -> & Hlt)]]].
    + subst current. reflexivity.
    + subst previous. destruct current; reflexivity.
    + destruct current as [c|]; [|reflexivity]. destruct previous as [p|]; [|reflexivity].
      simpl. apply Qle_bool_iff in H. rewrite H. reflexivity.
    + simpl. destruct (Qle_bool deltaMs 0); [reflexivity|].
      assert (Qltb c (previousValueOf p direction) = true) as E by (apply Qltb_true; assumption).
      rewrite E. reflexivity.
  - intros. apply finalizeInterface_error.
Qed.

Example metricStatus_critical : metricStatus (95 # 100) false = critical.
Proof. reflexivity. Qed.

Example metricStatus_error_dominates : metricStatus (10 # 100) true = error.
Proof. reflexivity. Qed.

(** C8: [metricStatus u hasError] is [error] when [hasError]; otherwise
    [critical] for [u >= 0.90], [warning] for [0.75 <= u < 0.90] and [ok]
    for [u < 0.75]. *)
Theorem metricStatus_thresholds :
  forall (utilization : Q) (hasError : bool),
    (hasError = true -> metricStatus utilization hasError = error) /\
    (hasError = false -> 9 # 10 <= utilization -> metricStatus utilization hasError = critical) /\
    (hasError = false -> 75 # 100 <= utilization -> utilization < 9 # 10 ->
       metricStatus utilization hasError = warning) /\
    (hasError = false -> utilization < 75 # 100 -> metricStatus utilization hasError = ok).
Proof.
  intros u h. unfold metricStatus. split; [|split; [|split]].
  - intros ->. reflexivity.
  - intros -> H. apply Qle_bool_iff in H. rewrite H. reflexivity.
  - intros -> H1 H2. apply Qle_bool_iff in H1. rewrite H1.
    assert (Qle_bool (9 # 10) u = false) as E by (apply Qle_bool_false; assumption).
    rewrite E. reflexivity.
  - intros -> H.
    assert (Qle_bool (75 # 100) u = false) as E1 by (apply Qle_bool_false; assumption).
    assert (Qle_bool (9 # 10) u = false) as E2.
    { apply Qle_bool_false. apply Qlt_trans with (75 # 100); [assumption|reflexivity]. }
    rewrite E1, E2. reflexivity.
Qed.

End SamplerFacts.

Module CapacityFacts.
Import Sampler Scenarios.
Local Open Scope Q_scope.

Lemma setupInterface_maxBandwidth (ic : InterfaceConfig) :
  IS.maxBandwidth (t_sample (setupInterface ic)) = IS.maxBandwidth (makeInterfaceSample ic).
Proof.
  unfold setupInterface, addCounterOid.
  destruct (oid_in ic), (oid_out ic); simpl;
    destruct (oid_speed ic) as [[]|]; reflexivity.
Qed.

Lemma makeInterfaceSample_unknown (ic : InterfaceConfig) :
  noStaticCapacity ic -> IS.maxBandwidth (makeInterfaceSample ic) = 0.
Proof.
  unfold noStaticCapacity, makeInterfaceSample. simpl.
  destruct (max_bandwidth ic) as [b|]; [|reflexivity].
  intros Hb. assert (Qltb 0 b = false) as E by (apply SamplerFacts.Qltb_false; assumption).
  rewrite E. reflexivity.
Qed.

Lemma fold_applyVarbind_maxBandwidth (scale : Q) (l : list (Varbind * OidKind)) :
  forall s : IS.t, (forall v, In v (speedValues l) -> v <= 0) ->
    IS.maxBandwidth (fold_left (applyVarbind scale) l s) = IS.maxBandwidth s.
Proof.
  induction l as [|[vb k] l IH]; intros s Hv; [reflexivity|]. simpl.
  rewrite IH.
  - destruct vb as [m|v|]; simpl; try reflexivity.
    destruct k; simpl; try reflexivity.
    assert (Qltb 0 v = false) as E.
    { apply SamplerFacts.Qltb_false. apply Hv. simpl. left. reflexivity. }
    rewrite E. reflexivity.
  - intros v Hin. apply Hv. destruct vb, k; simpl; auto.
Qed.

Lemma readTarget_unknown (ic : InterfaceConfig) (respond : string -> list string -> Response) :
  noStaticCapacity ic ->
  (forall v, In v (speedReadings (setupInterface ic)
                     (respond (name ic) (map fst (entries (setupInterface ic))))) -> v <= 0) ->
  IS.maxBandwidth (readTarget respond (setupInterface ic)) = 0.
Proof.
  intros Hs Hv. rewrite <- (makeInterfaceSample_unknown ic Hs), <- setupInterface_maxBandwidth.
  unfold readTarget. destruct (hasCounters (setupInterface ic)); simpl; [|reflexivity].
  destruct (map fst (entries (setupInterface ic))) as [|o os] eqn:Eo; [reflexivity|].
  assert (name (t_iface (setupInterface ic)) = name ic) as En.
  { unfold setupInterface, addCounterOid.
    destruct (oid_in ic), (oid_out ic); simpl; destruct (oid_speed ic) as [[]|]; reflexivity. }
  rewrite En. try rewrite Eo in Hv.
  destruct (respond (name ic) (o :: os)) as [m|vbs]; [reflexivity|].
  apply fold_applyVarbind_maxBandwidth. exact Hv.
Qed.

Lemma Qdiv_one (q : Q) : q / 1 == q.
Proof. unfold Qdiv. simpl. apply Qmult_1_r. Qed.

(** C2 (amended): with no positive static capacity and no positive speed
    reading the sample's capacity is 0; the interface step then divides
    each rate by 1, publishes that capacity (0) unchanged, and derives
    status, freshness and error exactly as for a known capacity: the same
    sample with any positive capacity [c] gets the same name, rates,
    freshness and error, and its status from the same [metricStatus] with
    the rates divided by [c]; no other field records the unknown capacity. *)
Theorem unknown_capacity_denominator_one :
  (forall (ic : InterfaceConfig) (respond : string -> list string -> Response),
     noStaticCapacity ic ->
     (forall v, In v (speedReadings (setupInterface ic)
                        (respond (name ic) (map fst (entries (setupInterface ic))))) -> v <= 0) ->
     IS.maxBandwidth (readTarget respond (setupInterface ic)) = 0) /\
  (forall (routerId : string) (now : Q) (cache : gmap string Entry.t) (s : IS.t),
     IS.maxBandwidth s <= 0 ->
     let m := toInterfaceMetrics (fst (finalizeInterface routerId now cache s)) in
     IM.inUtilization m == IM.inBps m /\ IM.outUtilization m == IM.outBps m /\
     IM.maxBandwidth m = IS.maxBandwidth s /\
     IM.status m = metricStatus (Qmax (IM.inBps m / 1) (IM.outBps m / 1)) (hasErrorOf (IS.error s)) /\
     IM.error m = IS.error s /\
     forall c, 0 < c ->
       let m' := toInterfaceMetrics (fst (finalizeInterface routerId now cache (setMaxBandwidth s c))) in
       IM.name m = IM.name m' /\ IM.inBps m = IM.inBps m' /\ IM.outBps m = IM.outBps m' /\
       IM.fresh m = IM.fresh m' /\ IM.error m = IM.error m' /\
       IM.status m' = metricStatus (Qmax (IM.inBps m' / c) (IM.outBps m' / c)) (hasErrorOf (IS.error s))).
Proof.
  split.
  - apply readTarget_unknown.
  - intros routerId now cache s Hm. simpl.
    assert (Qltb 0 (IS.maxBandwidth s) = false) as E by (apply SamplerFacts.Qltb_false; assumption).
    rewrite E. simpl. split; [apply Qdiv_one|]. split; [apply Qdiv_one|].
    split; [reflexivity|]. split; [reflexivity|]. split; [reflexivity|].
    intros c Hc. simpl.
    assert (Qltb 0 c = true) as Ec by (apply SamplerFacts.Qltb_true; exact Hc).
    rewrite Ec. repeat split; reflexivity.
Qed.

(** C2 counterexample: the interface [ge0] of [probedIface] answers speed
    0, so no capacity resolves; its published record has exactly the name,
    status ([critical]), freshness and error of the same interface with a
    probed capacity of 1000: only numbers (utilization 8000000 against
    8000, capacity 0 against 1000) differ. *)
Lemma unknown_capacity_not_flagged :
  map flagsOf (probedPublished 0) = map flagsOf (probedPublished 1000) /\
  map IM.maxBandwidth (probedPublished 0) = [0] /\
  map IM.status (probedPublished 0) = [critical] /\
  forallb (fun m => Qeq_bool (IM.inUtilization m) 8000000) (probedPublished 0) = true.
Proof. vm_compute. repeat split. Qed.

End CapacityFacts.

Module CacheFacts.
Import Sampler Scenarios.
Local Open Scope Q_scope.

(** The cache write of one interface step: an insert at the interface's
    key when both counters are numbers, nothing otherwise. *)
Lemma finalizeInterface_cache (routerId : string) (now : Q) (cache : gmap string Entry.t) (s : IS.t) :
  snd (finalizeInterface routerId now cache s) =
  match IS.inOctets s, IS.outOctets s with
  | Some i, Some o => <[cacheKey routerId (IS.name s) := Entry.mk i o now]> cache
  | _, _ => cache
  end.
Proof. reflexivity. Qed.

Lemma finalizeInterface_keeps (routerId : string) (now : Q) (cache : gmap string Entry.t)
    (s : IS.t) (k : string) :
  is_Some (cache !! k) -> is_Some (snd (finalizeInterface routerId now cache s) !! k).
Proof.
  intros H. rewrite finalizeInterface_cache.
  destruct (IS.inOctets s), (IS.outOctets s); try exact H.
  destruct (decide (k = cacheKey routerId (IS.name s))) as [->|Hne].
  - rewrite lookup_insert_eq. eexists. reflexivity.
  - rewrite lookup_insert_ne by congruence. exact H.
Qed.

Lemma finalizeAll_keeps (routerId : string) (now : Q) (samples : list IS.t) :
  forall (cache : gmap string Entry.t) (k : string),
    is_Some (cache !! k) -> is_Some (snd (finalizeAll routerId now cache samples) !! k).
Proof.
  induction samples as [|s rest IH]; intros cache k H; cbn [finalizeAll]; [exact H|].
  destruct (finalizeInterface routerId now cache s) as [s' c1] eqn:E1.
  destruct (finalizeAll routerId now c1 rest) as [rest' c2] eqn:E2. simpl.
  pose proof (finalizeInterface_keeps routerId now cache s k H) as H1.
  rewrite E1 in H1. simpl in H1.
  pose proof (IH c1 k H1) as H2. rewrite E2 in H2. exact H2.
Qed.

(** No poll cycle removes a cache entry. *)
Lemma pollRouters_keeps (order : list (string * list InterfaceConfig))
    (respond : string -> string -> list string -> Response) (now : Q) :
  forall (cache : gmap string Entry.t) (k : string),
    is_Some (cache !! k) -> is_Some (snd (pollRouters order respond now cache) !! k).
Proof.
  induction order as [|[routerId ifaces] rest IH]; intros cache k H; cbn [pollRouters]; [exact H|].
  destruct (pollRouter routerId ifaces (respond routerId) now cache) as [sample c1] eqn:E1.
  destruct (pollRouters rest respond now c1) as [samples c2] eqn:E2. simpl.
  assert (H1 : is_Some (c1 !! k)).
  { change c1 with (snd (sample, c1)). rewrite <- E1.
    unfold pollRouter. destruct ifaces as [|i is]; [exact H|].
    destruct (negb (existsb hasCounters (map setupInterface (i :: is)))); [exact H|].
    pose proof (finalizeAll_keeps routerId now
      (map (readTarget (respond routerId)) (map setupInterface (i :: is))) cache k H) as H3.
    destruct (finalizeAll routerId now cache (map (readTarget (respond routerId)) (map setupInterface (i :: is))))
      as [final c']. exact H3. }
  pose proof (IH c1 k H1) as H2. rewrite E2 in H2. exact H2.
Qed.

(** C10 (code bug): [cacheKey] joins router id and interface name with
    [:], so (r, a:b) and (r:a, b) share the key [r:a:b].  In a cycle where
    router [r] times out (its interface [a:b] reads no counter) and router
    [r:a] reads 5 and 7 on [b], the entry of (r, a:b) is overwritten with
    [b]'s counters, whichever router completes first. *)
Theorem cache_key_collision_overwrites :
  cacheKey "r" "a:b" = cacheKey "r:a" "b" /\
  map (fun s => (IS.inOctets s, IS.outOctets s))
    (RS.interfaces (fst (pollRouter "r" [counterIface "a:b"] (collideRespond "r") 1000 collideCache)))
    = [(None, None)] /\
  collideCache !! cacheKey "r" "a:b" = Some (Entry.mk 100 200 0) /\
  snd (pollRouters [routerR; routerRA] collideRespond 1000 collideCache) !! cacheKey "r" "a:b"
    = Some (Entry.mk 5 7 1000) /\
  snd (pollRouters [routerRA; routerR] collideRespond 1000 collideCache) !! cacheKey "r" "a:b"
    = Some (Entry.mk 5 7 1000).
Proof. vm_compute. repeat split. Qed.

End CacheFacts.

Module GeometryFacts.
Import Geometry GeometrySpec.
Local Open Scope R_scope.

Lemma fold_left_Rplus (l : list R) : forall a, fold_left Rplus l a = a + fold_right Rplus 0 l.
Proof.
  induction l as [|h t IH]; intros a; simpl; [ring|]. rewrite IH. ring.
Qed.

Lemma totalLength_pathLength (path : list Position) : totalLength path = pathLength path.
Proof.
  unfold totalLength. rewrite fold_left_Rplus, Rplus_0_l.
  induction path as [|a tl IH]; [reflexivity|].
  destruct tl as [|b t]; [reflexivity|]. simpl in *. rewrite IH. reflexivity.
Qed.

Lemma segLength_nonneg (a b : Position) : 0 <= segLength a b.
Proof. apply sqrt_pos. Qed.

Lemma pathLength_nonneg (path : list Position) : 0 <= pathLength path.
Proof.
  induction path as [|a tl IH]; simpl; [lra|].
  destruct tl as [|b t]; [lra|]. pose proof (segLength_nonneg a b). lra.
Qed.

Lemma pathLength_cons2 (a b : Position) (t : list Position) :
  pathLength (a :: b :: t) = segLength a b + pathLength (b :: t).
Proof. reflexivity. Qed.

Lemma pathLength_snoc2 (l : list Position) (a m : Position) :
  pathLength (l ++ [a; m]) = pathLength (l ++ [a]) + segLength a m.
Proof.
  induction l as [|c l IH]; simpl; [ring|].
  destruct l as [|d l]; simpl.
  - ring.
  - simpl in IH. rewrite IH. ring.
Qed.

Lemma skipn_firstn_snoc {A} (l : list A) : forall (i : nat) (a : A) (rest : list A),
  skipn i l = a :: rest -> firstn (S i) l = firstn i l ++ [a] /\ skipn (S i) l = rest /\
    nth_error l i = Some a /\ (i < length l)%nat.
Proof.
  induction l as [|h t IH]; intros i a rest H.
  - destruct i; discriminate.
  - destruct i as [|i]; simpl in *.
    + injection H as -> ->. repeat split; simpl; try reflexivity. lia.
    + destruct (IH i a rest H) as (H1 & H2 & H3 & H4).
      rewrite H1. repeat split; try assumption. lia.
Qed.

Lemma segLength_scale (dx dy t : R) :
  0 <= t -> hypot (dx * t) (dy * t) = t * hypot dx dy.
Proof.
  intros Ht. unfold hypot.
  replace (dx * t * (dx * t) + dy * t * (dy * t)) with ((t * t) * (dx * dx + dy * dy)) by ring.
  rewrite sqrt_mult_alt by nra. rewrite sqrt_square by lra. reflexivity.
Qed.

Lemma segLength_pointAt_start (a b : Position) (t : R) :
  0 <= t -> segLength a (pointAt a b t) = t * segLength a b.
Proof.
  intros Ht. unfold segLength, pointAt. simpl.
  replace (x a + (x b - x a) * t - x a) with ((x b - x a) * t) by ring.
  replace (y a + (y b - y a) * t - y a) with ((y b - y a) * t) by ring.
  apply segLength_scale. exact Ht.
Qed.

Lemma segLength_pointAt_end (a b : Position) (t : R) :
  t <= 1 -> segLength (pointAt a b t) b = (1 - t) * segLength a b.
Proof.
  intros Ht. unfold segLength, pointAt. simpl.
  replace (x b - (x a + (x b - x a) * t)) with ((x b - x a) * (1 - t)) by ring.
  replace (y b - (y a + (y b - y a) * t)) with ((y b - y a) * (1 - t)) by ring.
  apply segLength_scale. lra.
Qed.

(** The loop of [splitPathAtHalf] stops on the segment that reaches the
    half length and cuts it there. *)
Lemma walk_cuts_at_half (path : list Position) (half : R) :
  half <= pathLength path ->
  forall (rest : list Position) (i : nat) (acc : R),
    skipn i path = rest -> rest <> [] ->
    acc = pathLength (firstn (S i) path) ->
    acc + pathLength rest = pathLength path ->
    acc < half ->
    exists (j : nat) (t : R) (r : SplitPathResult),
      walk path rest i half acc = Some r /\
      (S j < length path)%nat /\ 0 <= t <= 1 /\
      midpoint r = pointAt (nth j path origin) (nth (S j) path origin) t /\
      firstHalf r = firstn (S j) path ++ [midpoint r] /\
      secondHalf r = midpoint r :: skipn (S j) path /\
      pathLength (firstHalf r) = half /\
      pathLength (secondHalf r) = pathLength path - half.
Proof.
  intros Hhalf rest. induction rest as [|a rest IH]; intros i acc Hskip Hne Hacc Hsum Hlt.
  - congruence.
  - destruct rest as [|b t].
    + simpl in Hsum. lra.
    + destruct (skipn_firstn_snoc path i a (b :: t) Hskip) as (Hf & Hs & Hn & Hl).
      destruct (skipn_firstn_snoc path (S i) b t Hs) as (Hf' & Hs' & Hn' & Hl').
      rewrite pathLength_cons2 in Hsum.
      pose proof (segLength_nonneg a b) as Hseg.
      simpl walk.
      destruct (Rle_dec half (acc + segLength a b)) as [Hle|Hgt].
      * assert (Hpos : segLength a b <> 0) by lra.
        destruct (Req_EM_T (segLength a b) 0) as [E|_]; [contradiction|].
        set (ratio := (half - acc) / segLength a b).
        assert (Hr0 : 0 <= ratio).
        { unfold ratio. apply Rmult_le_pos; [lra|]. left. apply Rinv_0_lt_compat. lra. }
        assert (Hr1 : ratio <= 1).
        { unfold ratio. apply Rmult_le_reg_r with (segLength a b); [lra|].
          unfold Rdiv. rewrite Rmult_assoc, Rinv_l by exact Hpos. lra. }
        assert (Hrl : ratio * segLength a b = half - acc).
        { unfold ratio. field. exact Hpos. }
        assert (Ha : nth i path origin = a) by (apply nth_error_nth; exact Hn).
        assert (Hb : nth (S i) path origin = b) by (apply nth_error_nth; exact Hn').
        exists i, ratio. eexists. split; [reflexivity|].
        cbn [midpoint firstHalf secondHalf]. split; [exact Hl'|]. split; [lra|].
        split; [rewrite Ha, Hb; reflexivity|].
        split; [replace (i + 1)%nat with (S i) by lia; reflexivity|].
        split; [replace (i + 1)%nat with (S i) by lia; reflexivity|].
        replace (i + 1)%nat with (S i) by lia.
        split.
        -- rewrite Hf, <- app_assoc. simpl app.
           rewrite pathLength_snoc2, <- Hf, <- Hacc.
           change {| x := x a + (x b - x a) * ratio; y := y a + (y b - y a) * ratio |}
             with (pointAt a b ratio).
           rewrite segLength_pointAt_start by exact Hr0. lra.
        -- rewrite Hs.
           change {| x := x a + (x b - x a) * ratio; y := y a + (y b - y a) * ratio |}
             with (pointAt a b ratio).
           rewrite pathLength_cons2, segLength_pointAt_end by exact Hr1. nra.
      * apply (IH (S i) (acc + segLength a b)).
        -- exact Hs.
        -- discriminate.
        -- rewrite Hf', Hf, <- app_assoc. simpl app.
           rewrite pathLength_snoc2, <- Hf, <- Hacc. reflexivity.
        -- lra.
        -- lra.
Qed.

Lemma splitPathAtHalf_long (p0 p1 : Position) (t : list Position) :
  splitPathAtHalf (p0 :: p1 :: t) =
  if Req_EM_T (totalLength (p0 :: p1 :: t)) 0 then
    let midpoint := nth (Nat.div (length (p0 :: p1 :: t)) 2) (p0 :: p1 :: t) origin in
    {| midpoint := midpoint; firstHalf := [p0; midpoint];
       secondHalf := [midpoint; List.last (p0 :: p1 :: t) origin] |}
  else
    match walk (p0 :: p1 :: t) (p0 :: p1 :: t) 0 (totalLength (p0 :: p1 :: t) / 2) 0 with
    | Some r => r
    | None =>
        {| midpoint := List.last (p0 :: p1 :: t) origin; firstHalf := p0 :: p1 :: t;
           secondHalf := [List.last (p0 :: p1 :: t) origin] |}
    end.
Proof. reflexivity. Qed.

(** C3: on a path of at least two points and positive length [L],
    [splitPathAtHalf] cuts segment [i] at a point of it; the first half is
    the vertices up to [i] followed by that point, the second half that
    point followed by the remaining vertices, and each half has length
    exactly [L / 2].  A path of no point gives the origin, a path of one
    point that point, as midpoint and as both halves; a path of at least
    two points and length 0 gives its middle vertex [path[n/2]] with the
    halves [first, middle] and [middle, last]. *)
Theorem splitPathAtHalf_halves :
  (forall path : list Position, (2 <= length path)%nat -> 0 < pathLength path ->
     let r := splitPathAtHalf path in
     exists (i : nat) (t : R), (S i < length path)%nat /\ 0 <= t <= 1 /\
       midpoint r = pointAt (nth i path origin) (nth (S i) path origin) t /\
       firstHalf r = firstn (S i) path ++ [midpoint r] /\
       secondHalf r = midpoint r :: skipn (S i) path /\
       pathLength (firstHalf r) = pathLength path / 2 /\
       pathLength (secondHalf r) = pathLength path / 2) /\
  splitPathAtHalf [] = {| midpoint := origin; firstHalf := [origin]; secondHalf := [origin] |} /\
  (forall p : Position, splitPathAtHalf [p] = {| midpoint := p; firstHalf := [p]; secondHalf := [p] |}) /\
  (forall path : list Position, (2 <= length path)%nat -> pathLength path = 0 ->
     let m := nth (Nat.div (length path) 2) path origin in
     splitPathAtHalf path =
     {| midpoint := m; firstHalf := [nth 0 path origin; m];
        secondHalf := [m; List.last path origin] |}).
Proof.
  split; [|split; [reflexivity|split; [reflexivity|]]].
  - intros path Hlen Hpos. cbv zeta.
    destruct path as [|p0 [|p1 t]]; simpl in Hlen; try lia.
    rewrite splitPathAtHalf_long, totalLength_pathLength.
    destruct (Req_EM_T (pathLength (p0 :: p1 :: t)) 0) as [E|_]; [lra|].
    destruct (walk_cuts_at_half (p0 :: p1 :: t) (pathLength (p0 :: p1 :: t) / 2) ltac:(lra)
                (p0 :: p1 :: t) 0 0 eq_refl ltac:(discriminate) ltac:(simpl; lra)
                ltac:(lra) ltac:(lra))
      as (j & t' & r & Hw & Hj & Ht & Hm & Hf & Hs & Hl1 & Hl2).
    rewrite Hw. exists j, t'. repeat split; try assumption; lra.
  - intros path Hlen H0. cbv zeta.
    destruct path as [|p0 [|p1 t]]; simpl in Hlen; try lia.
    rewrite splitPathAtHalf_long, totalLength_pathLength.
    destruct (Req_EM_T (pathLength (p0 :: p1 :: t)) 0) as [_|E]; [reflexivity|contradiction].
Qed.

Lemma hypot_zero (dx dy : R) : hypot dx dy = 0 -> dx = 0 /\ dy = 0.
Proof.
  unfold hypot. intros H. apply sqrt_eq_0 in H; [|nra]. split; nra.
Qed.

Lemma code_spacing (from to : Position) :
  Rmin 160 (Rmax 40 ((if Req_EM_T (hypot (x to - x from) (y to - y from)) 0 then 1
                      else hypot (x to - x from) (y to - y from)) / 3))
  = spacingSpec from to.
Proof.
  unfold spacingSpec, clamp, distance, segLength.
  destruct (Req_EM_T (hypot (x to - x from) (y to - y from)) 0) as [E|E].
  - rewrite E. unfold Rmin, Rmax.
    repeat match goal with
           | |- context [Rle_dec ?a ?b] => destruct (Rle_dec a b)
           | H : context [Rle_dec ?a ?b] |- _ => destruct (Rle_dec a b)
           end; lra.
  - unfold Rmin, Rmax.
    repeat match goal with
           | |- context [Rle_dec ?a ?b] => destruct (Rle_dec a b)
           | H : context [Rle_dec ?a ?b] |- _ => destruct (Rle_dec a b)
           end; lra.
Qed.

Lemma code_control (from to : Position) (off : R) :
  {| x := x from + (x to - x from) / 2 +
          - (y to - y from) / (if Req_EM_T (hypot (x to - x from) (y to - y from)) 0 then 1
                               else hypot (x to - x from) (y to - y from)) * off;
     y := y from + (y to - y from) / 2 +
          (x to - x from) / (if Req_EM_T (hypot (x to - x from) (y to - y from)) 0 then 1
                             else hypot (x to - x from) (y to - y from)) * off |}
  = {| x := (x from + x to) / 2 + x (unitPerp from to) * off;
       y := (y from + y to) / 2 + y (unitPerp from to) * off |}.
Proof.
  unfold unitPerp, distance, segLength.
  destruct (Req_EM_T (hypot (x to - x from) (y to - y from)) 0) as [E|E].
  - destruct (hypot_zero _ _ E) as [Hx Hy]. simpl.
    rewrite Hx, Hy. f_equal; field_simplify; lra.
  - simpl. f_equal; field; exact E.
Qed.

Example autoPath_single :
  computeAutoPath {| x := 0; y := 0 |} {| x := 300; y := 0 |} 1 0 =
  [{| x := 0; y := 0 |}; {| x := 300; y := 0 |}].
Proof. reflexivity. Qed.

(** C4: [computeAutoPath from to groupSize index] is the path the fan-out
    rule describes: offset [(index - (groupSize - 1) / 2) * spacing] with
    [spacing = clamp(distance / 3, 40, 160)]; [[from; to]] when
    [groupSize = 1] or [|offset| < 1], else [[from; control; to]] with
    control the midpoint plus the unit perpendicular times the offset.
    The perpendicular is a unit vector orthogonal to [to - from] when the
    endpoints differ; for a group of 3 the offsets are [-spacing], [0],
    [+spacing], the middle member straight and the others curved. *)
Theorem computeAutoPath_fanout :
  (forall (from to : Position) (groupSize index : nat),
     computeAutoPath from to groupSize index = autoPathSpec from to groupSize index) /\
  (forall from to : Position, distance from to <> 0 ->
     hypot (x (unitPerp from to)) (y (unitPerp from to)) = 1 /\
     x (unitPerp from to) * (x to - x from) + y (unitPerp from to) * (y to - y from) = 0) /\
  (forall from to : Position,
     offsetSpec from to 3 0 = - spacingSpec from to /\
     offsetSpec from to 3 1 = 0 /\
     offsetSpec from to 3 2 = spacingSpec from to /\
     computeAutoPath from to 3 1 = [from; to] /\
     computeAutoPath from to 3 0 = [from; controlSpec from to 3 0; to] /\
     computeAutoPath from to 3 2 = [from; controlSpec from to 3 2; to]).
Proof.
  assert (Hmain : forall (from to : Position) (groupSize index : nat),
     computeAutoPath from to groupSize index = autoPathSpec from to groupSize index).
  { intros from to g i. unfold computeAutoPath, autoPathSpec, controlSpec, offsetSpec.
    cbv zeta. simpl x. simpl y. rewrite code_spacing.
    destruct (Nat.eqb g 1); simpl; [reflexivity|].
    destruct (Rlt_dec (Rabs ((INR i - (INR g - 1) / 2) * spacingSpec from to)) 1); [reflexivity|].
    f_equal. f_equal. apply code_control. }
  assert (Hsp : forall from to : Position, 40 <= spacingSpec from to).
  { intros from to. unfold spacingSpec, clamp. apply Rmax_l. }
  split; [exact Hmain|split].
  - intros from to Hd. unfold unitPerp.
    destruct (Req_EM_T (distance from to) 0) as [E|_]; [contradiction|]. simpl.
    assert (Hdd : distance from to * distance from to =
                  (x to - x from) * (x to - x from) + (y to - y from) * (y to - y from)).
    { unfold distance, segLength, hypot. apply sqrt_sqrt.
      pose proof (Rle_0_sqr (x to - x from)). pose proof (Rle_0_sqr (y to - y from)).
      unfold Rsqr in *. lra. }
    split.
    + unfold hypot.
      replace (- (y to - y from) / distance from to * (- (y to - y from) / distance from to) +
               (x to - x from) / distance from to * ((x to - x from) / distance from to))
        with 1; [apply sqrt_1|].
      symmetry.
      transitivity (((x to - x from) * (x to - x from) + (y to - y from) * (y to - y from)) /
                    (distance from to * distance from to)); [field; exact Hd|].
      rewrite <- Hdd. field. exact Hd.
    + field. exact Hd.
  - intros from to.
    assert (H30 : offsetSpec from to 3 0 = - spacingSpec from to)
      by (unfold offsetSpec; simpl; lra).
    assert (H31 : offsetSpec from to 3 1 = 0) by (unfold offsetSpec; simpl; lra).
    assert (H32 : offsetSpec from to 3 2 = spacingSpec from to) by (unfold offsetSpec; simpl; lra).
    pose proof (Hsp from to) as Hs.
    split; [exact H30|]. split; [exact H31|]. split; [exact H32|].
    rewrite !Hmain. unfold autoPathSpec. simpl Nat.eqb. cbv iota.
    rewrite H30, H31, H32. split; [|split].
    + destruct (Rlt_dec (Rabs 0) 1) as [_|N]; [reflexivity|]. rewrite Rabs_R0 in N. lra.
    + destruct (Rlt_dec (Rabs (- spacingSpec from to)) 1) as [L|_]; [|reflexivity].
      rewrite Rabs_Ropp, Rabs_right in L by lra. lra.
    + destruct (Rlt_dec (Rabs (spacingSpec from to)) 1) as [L|_]; [|reflexivity].
      rewrite Rabs_right in L by lra. lra.
Qed.

End GeometryFacts.

Module WidthFacts.
Import Render Scenarios.
Local Open Scope R_scope.

Ltac minmax_cases :=
  unfold Rmin, Rmax in *;
  repeat match goal with
         | |- context [Rle_dec ?a ?b] => destruct (Rle_dec a b)
         | H : context [Rle_dec ?a ?b] |- _ => destruct (Rle_dec a b)
         end.

Lemma capacityToWidth_interp (c : R) (r : CapacityRange) :
  0 < min r < max r -> 0 < c ->
  capacityToWidth (Some c) (Some r) =
  MIN_LINK_WIDTH + (MAX_LINK_WIDTH - MIN_LINK_WIDTH) *
    Rmin 1 (Rmax 0 ((ln c - ln (min r)) / (ln (max r) - ln (min r)))).
Proof.
  intros [Hm HM] Hc. unfold capacityToWidth.
  destruct (Req_EM_T c 0); [lra|].
  destruct (Rle_dec c 0); [lra|].
  destruct (Rle_dec (min r) 0); [lra|].
  destruct (Req_EM_T (max r) (min r)); [lra|].
  reflexivity.
Qed.

Lemma capacityToWidth_collapsed (c : R) (r : CapacityRange) :
  0 < c -> 0 < min r -> max r = min r ->
  capacityToWidth (Some c) (Some r) = (MIN_LINK_WIDTH + MAX_LINK_WIDTH) / 2.
Proof.
  intros Hc Hm He. unfold capacityToWidth.
  destruct (Req_EM_T c 0); [lra|].
  destruct (Rle_dec c 0); [lra|].
  destruct (Rle_dec (min r) 0); [lra|].
  destruct (Req_EM_T (max r) (min r)); [reflexivity|contradiction].
Qed.

Lemma capacityToWidth_min_nonpos (c : option R) (r : CapacityRange) :
  min r <= 0 -> capacityToWidth c (Some r) = MIN_LINK_WIDTH.
Proof.
  intros Hm. unfold capacityToWidth. destruct c as [c|]; [|reflexivity].
  destruct (Req_EM_T c 0); [reflexivity|].
  destruct (Rle_dec c 0); [reflexivity|].
  destruct (Rle_dec (min r) 0); [reflexivity|lra].
Qed.

Lemma log_gap (r : CapacityRange) : 0 < min r < max r -> 0 < ln (max r) - ln (min r).
Proof.
  intros [Hm HM]. pose proof (ln_increasing (min r) (max r) Hm HM). lra.
Qed.

Lemma Q2R_gbit : 0 < Q2R 1000000000.
Proof. unfold Q2R. simpl. lra. Qed.

(** C7: for an observed range [0 < min < max] the width is 2 at [min], 14
    at [max] and non-decreasing in between; a missing capacity or range,
    or a range whose minimum is not positive, gives 2; a range collapsed
    to one positive value gives 8 for a positive capacity. *)
Theorem capacityToWidth_bounds :
  (forall r : CapacityRange, 0 < min r < max r ->
     capacityToWidth (Some (min r)) (Some r) = 2 /\
     capacityToWidth (Some (max r)) (Some r) = 14 /\
     (forall c1 c2 : R, min r <= c1 -> c1 <= c2 -> c2 <= max r ->
        capacityToWidth (Some c1) (Some r) <= capacityToWidth (Some c2) (Some r))) /\
  (forall r : option CapacityRange, capacityToWidth None r = 2) /\
  (forall c : option R, capacityToWidth c None = 2) /\
  (forall (c : option R) (r : CapacityRange), min r <= 0 -> capacityToWidth c (Some r) = 2) /\
  (forall (c : R) (r : CapacityRange), 0 < min r -> max r = min r -> 0 < c ->
     capacityToWidth (Some c) (Some r) = 8).
Proof.
  split; [|split; [|split; [|split]]].
  - intros r Hr. pose proof (log_gap r Hr) as Hg. destruct Hr as [Hm HM].
    split; [|split].
    + rewrite capacityToWidth_interp by lra.
      replace ((ln (min r) - ln (min r)) / (ln (max r) - ln (min r))) with 0 by (field; lra).
      unfold MIN_LINK_WIDTH, MAX_LINK_WIDTH. minmax_cases; lra.
    + rewrite capacityToWidth_interp by lra.
      replace ((ln (max r) - ln (min r)) / (ln (max r) - ln (min r))) with 1 by (field; lra).
      unfold MIN_LINK_WIDTH, MAX_LINK_WIDTH. minmax_cases; lra.
    + intros c1 c2 H1 H12 H2.
      rewrite !capacityToWidth_interp by lra.
      assert (Hl : ln c1 <= ln c2).
      { destruct (Req_dec c1 c2) as [->|Hne]; [lra|].
        left. apply ln_increasing; lra. }
      assert (Hu : (ln c1 - ln (min r)) / (ln (max r) - ln (min r)) <=
                   (ln c2 - ln (min r)) / (ln (max r) - ln (min r))).
      { unfold Rdiv. apply Rmult_le_compat_r; [left; apply Rinv_0_lt_compat; lra|lra]. }
      revert Hu.
      set (u1 := (ln c1 - ln (min r)) / (ln (max r) - ln (min r))).
      set (u2 := (ln c2 - ln (min r)) / (ln (max r) - ln (min r))).
      intros Hu. unfold MIN_LINK_WIDTH, MAX_LINK_WIDTH. minmax_cases; lra.
  - intros r. reflexivity.
  - intros [c|]; reflexivity.
  - intros c r Hm. apply capacityToWidth_min_nonpos. exact Hm.
  - intros c r Hm He Hc. rewrite capacityToWidth_collapsed by assumption.
    unfold MIN_LINK_WIDTH, MAX_LINK_WIDTH. lra.
Qed.

Lemma offline_capacities :
  computeLinkCapacities speedOnlyRouters speedOnlyLinks = ([], <["L" := None]> ∅).
Proof. reflexivity. Qed.

Lemma interactive_capacities :
  rebuildLinkCapacities speedOnlyRouters speedOnlyLinks (Some speedOnlyMetrics) =
  ([1000000000%Q], <["L" := Some 1000000000%Q]> ∅).
Proof. reflexivity. Qed.

(** C5: the two back-ends do not make the same decision for a link whose
    interfaces carry their capacity only in the snapshot (speed-probed,
    no static [maxBandwidth] in the topology): the offline renderer finds
    no capacity and draws width 2, the interactive one uses the snapshot's
    1 Gbit/s, gets the collapsed range [1e9, 1e9] and draws width 8. *)
Theorem backends_disagree_on_width :
  snd (computeLinkCapacities speedOnlyRouters speedOnlyLinks) !! "L" = Some None /\
  snd (rebuildLinkCapacities speedOnlyRouters speedOnlyLinks (Some speedOnlyMetrics)) !! "L"
    = Some (Some 1000000000%Q) /\
  offlineLinkWidth speedOnlyRouters speedOnlyLinks "L" = 2 /\
  interactiveLinkWidth speedOnlyRouters speedOnlyLinks (Some speedOnlyMetrics) "L" = 8.
Proof.
  split; [rewrite offline_capacities; reflexivity|].
  split; [rewrite interactive_capacities; reflexivity|].
  split.
  - unfold offlineLinkWidth. rewrite offline_capacities. reflexivity.
  - unfold interactiveLinkWidth. rewrite interactive_capacities.
    change (capacityToWidth (Some (Q2R 1000000000))
              (Some {| min := Q2R 1000000000; max := Q2R 1000000000 |}) = 8).
    rewrite capacityToWidth_collapsed; simpl; [|apply Q2R_gbit|apply Q2R_gbit|reflexivity].
    unfold MIN_LINK_WIDTH, MAX_LINK_WIDTH. lra.
Qed.

End WidthFacts.

Module ColorFacts.
Import Render.
Local Open Scope Q_scope.

Lemma bucket_test_iff (a b u : Q) :
  (Qle_bool a u && Sampler.Qltb u b = true) <-> (a <= u /\ u < b).
Proof.
  rewrite andb_true_iff, Qle_bool_iff, SamplerFacts.Qltb_true. reflexivity.
Qed.

Lemma find_none_intro {A} (f : A -> bool) (l : list A) :
  (forall a, In a l -> f a = false) -> find f l = None.
Proof.
  induction l as [|a l IH]; simpl; intros H; [reflexivity|].
  rewrite (H a (or_introl eq_refl)). apply IH. intros a' Ha'. apply H. right. exact Ha'.
Qed.

Lemma buckets_disjoint (u : Q) (b1 b2 : Bucket) :
  In b1 UTILIZATION_BUCKETS -> In b2 UTILIZATION_BUCKETS ->
  bmin b1 <= u < bmax b1 -> bmin b2 <= u < bmax b2 -> b1 = b2.
Proof.
  simpl. intros H1 H2 [l1 h1] [l2 h2].
  repeat destruct H1 as [<-|H1]; try contradiction;
  repeat destruct H2 as [<-|H2]; try contradiction;
  simpl in *; try reflexivity; exfalso; Lqa.lra.
Qed.

Ltac pick_bucket i :=
  exists (nth i UTILIZATION_BUCKETS lastBucket);
  split; [apply nth_In; simpl; lia | simpl; split; assumption].

Lemma buckets_cover (u : Q) :
  0 <= u < 101 # 100 -> exists b, In b UTILIZATION_BUCKETS /\ bmin b <= u < bmax b.
Proof.
  intros [H0 H1].
  destruct (Qlt_le_dec u (1 # 100)); [pick_bucket 0%nat|].
  destruct (Qlt_le_dec u (2 # 10)); [pick_bucket 1%nat|].
  destruct (Qlt_le_dec u (4 # 10)); [pick_bucket 2%nat|].
  destruct (Qlt_le_dec u (6 # 10)); [pick_bucket 3%nat|].
  destruct (Qlt_le_dec u (8 # 10)); [pick_bucket 4%nat|].
  destruct (Qlt_le_dec u (9 # 10)); [pick_bucket 5%nat|].
  destruct (Qlt_le_dec u (99 # 100)); [pick_bucket 6%nat|].
  pick_bucket 7%nat.
Qed.

Lemma utilToColor_in_bucket (u : Q) (b : Bucket) :
  In b UTILIZATION_BUCKETS -> bmin b <= u < bmax b -> utilToColor (Some (Num u)) = color b.
Proof.
  intros Hin Hu. unfold utilToColor.
  destruct (find _ UTILIZATION_BUCKETS) as [b'|] eqn:E.
  - apply find_some in E as [Hin' Ht]. apply bucket_test_iff in Ht.
    rewrite (buckets_disjoint u b' b Hin' Hin Ht Hu). reflexivity.
  - pose proof (find_none _ _ E b Hin) as Hf. cbv beta in Hf.
    destruct Hu as [Hl Hh].
    assert (Qle_bool (bmin b) u && Sampler.Qltb u (bmax b) = true) as Ht
      by (apply bucket_test_iff; split; assumption).
    congruence.
Qed.

(** C6 (as the code has it): 8 buckets with bounds 0, 0.01, 0.2, 0.4, 0.6,
    0.8, 0.9, 0.99, 1.01, each half-open, covering [0, 1.01) without
    overlap, and a value in a bucket gets its colour; [null] and [NaN] get
    the unknown colour, but a number below 0 or from 1.01 on gets the last
    bucket's colour #991b1b, which is not the unknown one. *)
Theorem utilToColor_buckets :
  length UTILIZATION_BUCKETS = 8%nat /\
  map bmin UTILIZATION_BUCKETS = [0; 1 # 100; 2 # 10; 4 # 10; 6 # 10; 8 # 10; 9 # 10; 99 # 100] /\
  map bmax UTILIZATION_BUCKETS = [1 # 100; 2 # 10; 4 # 10; 6 # 10; 8 # 10; 9 # 10; 99 # 100; 101 # 100] /\
  utilToColor None = UNKNOWN_COLOR /\
  utilToColor (Some NaN) = UNKNOWN_COLOR /\
  (forall u : Q, 0 <= u < 101 # 100 ->
     exists b, In b UTILIZATION_BUCKETS /\ bmin b <= u < bmax b /\
               utilToColor (Some (Num u)) = color b /\
               (forall b', In b' UTILIZATION_BUCKETS -> bmin b' <= u < bmax b' -> b' = b)) /\
  (forall u : Q, u < 0 \/ 101 # 100 <= u -> utilToColor (Some (Num u)) = color lastBucket) /\
  color lastBucket = "#991b1b" /\
  color lastBucket <> UNKNOWN_COLOR.
Proof.
  split; [reflexivity|]. split; [reflexivity|]. split; [reflexivity|].
  split; [reflexivity|]. split; [reflexivity|]. split; [|split; [|split]].
  - intros u Hu. destruct (buckets_cover u Hu) as [b [Hin Hb]].
    exists b. split; [exact Hin|]. split; [exact Hb|]. split.
    + apply utilToColor_in_bucket; assumption.
    + intros b' Hin' Hb'. apply (buckets_disjoint u); assumption.
  - intros u Hout. unfold utilToColor.
    rewrite find_none_intro; [reflexivity|].
    intros b Hin. destruct (_ && _) eqn:E; [|reflexivity].
    apply bucket_test_iff in E as [El Eh]. exfalso.
    simpl in Hin. repeat destruct Hin as [<-|Hin]; try contradiction;
    simpl in *; destruct Hout; Lqa.lra.
  - reflexivity.
  - unfold lastBucket, UNKNOWN_COLOR. simpl. discriminate.
Qed.

(** C6 counter-example: out-of-range numbers are not mapped to the unknown
    colour. *)
Example out_of_range_gets_last_bucket :
  utilToColor (Some (Num 2)) = "#991b1b" /\
  utilToColor (Some (Num (-1))) = "#991b1b" /\
  UNKNOWN_COLOR <> "#991b1b".
Proof.
  split; [reflexivity|]. split; [reflexivity|]. unfold UNKNOWN_COLOR. discriminate.
Qed.

End ColorFacts.

Module LoopFacts.
Import PollLoop.

Section Cycles.
Context {Snapshot Payload : Type}.

Lemma pollLoopV1_cycle (env : @CycleEnv Snapshot Payload) (st : @State Payload) :
  fst (pollLoopV1 env st) = Ok tt /\
  pending (snd (pollLoopV1 env st)) = Some (pollIntervalMs st) /\
  pollIntervalMs (snd (pollLoopV1 env st)) = pollIntervalMs st /\
  latestMetrics (snd (pollLoopV1 env st)) =
    match cyclePayload env with Some p => Some p | None => latestMetrics st end.
Proof.
  unfold pollLoopV1, cyclePayload, tryFinally, tryCatch, bind, lift, setLatestMetrics,
    broadcast, consoleError, scheduleNext, modify.
  destruct (polled env) as [s|e]; [destruct (build env s) as [p|e]|]; cbn; repeat split.
Qed.

Lemma pollLoopV2_cycle (env : @CycleEnv Snapshot Payload) (st : @State Payload) :
  fst (pollLoopV2 env st) = Ok tt /\
  pending (snd (pollLoopV2 env st)) = Some (pollIntervalMs st) /\
  pollIntervalMs (snd (pollLoopV2 env st)) = pollIntervalMs st /\
  latestMetrics (snd (pollLoopV2 env st)) =
    match cyclePayload env with Some p => Some p | None => latestMetrics st end.
Proof.
  unfold pollLoopV2, saveSnapshotImage, cyclePayload, tryFinally, tryCatch, bind, lift, ret,
    setLatestMetrics, setLatestImagePath, resetLatestImagePath, broadcast, consoleError,
    scheduleNext, modify.
  destruct (polled env) as [s|e]; [destruct (build env s) as [p|e]|]; cbn;
    [destruct (rendered env) as [[i|]|e]; cbn; [destruct (pruned env)|..]|..]; cbn; repeat split.
Qed.

Lemma runCycles_publishes (cycle : @CycleEnv Snapshot Payload -> M unit) :
  (forall env st,
     fst (cycle env st) = Ok tt /\
     pending (snd (cycle env st)) = Some (pollIntervalMs st) /\
     pollIntervalMs (snd (cycle env st)) = pollIntervalMs st /\
     latestMetrics (snd (cycle env st)) =
       match cyclePayload env with Some p => Some p | None => latestMetrics st end) ->
  forall envs st,
    latestMetrics (runCycles cycle envs st) = lastPublished envs (latestMetrics st) /\
    pollIntervalMs (runCycles cycle envs st) = pollIntervalMs st /\
    (envs <> [] -> pending (runCycles cycle envs st) = Some (pollIntervalMs st)).
Proof.
  intros Hc envs. induction envs as [|env rest IH]; intros st.
  - simpl. split; [reflexivity|]. split; [reflexivity|]. intros H; contradiction.
  - destruct (Hc env st) as [_ [Hp [Hi Hl]]]. cbn [runCycles lastPublished].
    destruct (IH (snd (cycle env st))) as [IHl [IHi IHp]].
    rewrite IHl, IHi, Hl, Hi. split; [reflexivity|]. split; [reflexivity|].
    intros _. destruct rest as [|env' rest'].
    + simpl. rewrite Hp. reflexivity.
    + rewrite IHp by discriminate. rewrite Hi. reflexivity.
Qed.

End Cycles.

(** C9: in both revisions of [pollLoop] a cycle never lets an exception
    escape, always ends with the next [setTimeout] pending at the configured
    [pollIntervalMs], and leaves [latestMetrics] as it was when polling or
    building the payload throws; over any run of cycles [latestMetrics] is
    the payload of the last successful cycle (or the one before the run)
    and the next cycle is always scheduled. *)
Theorem pollLoop_survives_failed_cycle :
  forall (Snapshot Payload : Type),
  (forall (env : @CycleEnv Snapshot Payload) (st : @State Payload),
     cyclePayload env = None ->
     fst (pollLoopV1 env st) = Ok tt /\
     latestMetrics (snd (pollLoopV1 env st)) = latestMetrics st /\
     pending (snd (pollLoopV1 env st)) = Some (pollIntervalMs st) /\
     fst (pollLoopV2 env st) = Ok tt /\
     latestMetrics (snd (pollLoopV2 env st)) = latestMetrics st /\
     pending (snd (pollLoopV2 env st)) = Some (pollIntervalMs st)) /\
  (forall (envs : list (@CycleEnv Snapshot Payload)) (st : @State Payload),
     latestMetrics (runCycles pollLoopV1 envs st) = lastPublished envs (latestMetrics st) /\
     latestMetrics (runCycles pollLoopV2 envs st) = lastPublished envs (latestMetrics st) /\
     (envs <> [] ->
        pending (runCycles pollLoopV1 envs st) = Some (pollIntervalMs st) /\
        pending (runCycles pollLoopV2 envs st) = Some (pollIntervalMs st))).
Proof.
  intros Snapshot Payload. split.
  - intros env st Hn.
    destruct (pollLoopV1_cycle env st) as [R1 [P1 [_ L1]]].
    destruct (pollLoopV2_cycle env st) as [R2 [P2 [_ L2]]].
    rewrite Hn in L1, L2. repeat split; assumption.
  - intros envs st.
    destruct (runCycles_publishes pollLoopV1 pollLoopV1_cycle envs st) as [A1 [_ C1]].
    destruct (runCycles_publishes pollLoopV2 pollLoopV2_cycle envs st) as [A2 [_ C2]].
    split; [exact A1|]. split; [exact A2|].
    intros Hne. split; [apply C1|apply C2]; exact Hne.
Qed.

End LoopFacts.

(** Distinctness of a list of string literals, by computation. *)
Ltac nodup_literals :=
  repeat constructor;
  let H := fresh in intros H; apply list_elem_of_In in H; simpl in H;
  repeat destruct H as [H|H]; try discriminate H; try contradiction.

Module SamplerExtras.
Import Sampler.
Local Open Scope Q_scope.

Lemma combine_fold (l : list MetricStatus) : forall acc : MetricStatus,
  let r := fold_left (fun highest current =>
             if Nat.ltb (severity highest) (severity current) then current else highest) l acc in
  (severity acc <= severity r)%nat /\
  (forall s, In s l -> (severity s <= severity r)%nat) /\
  (r = acc \/ In r l).
Proof.
  induction l as [|a l IH]; intros acc; simpl.
  - split; [lia|]. split; [intros s []|]. left. reflexivity.
  - destruct (Nat.ltb (severity acc) (severity a)) eqn:E.
    + apply Nat.ltb_lt in E. destruct (IH a) as [H1 [H2 H3]].
      split; [lia|]. split.
      * intros s [<-|Hs]; [exact H1|apply H2; exact Hs].
      * right. destruct H3 as [->|H3]; [left; reflexivity|right; exact H3].
    + apply Nat.ltb_ge in E. destruct (IH acc) as [H1 [H2 H3]].
      split; [exact H1|]. split.
      * intros s [<-|Hs]; [lia|apply H2; exact Hs].
      * destruct H3 as [->|H3]; [left; reflexivity|right; right; exact H3].
Qed.

Lemma severity_error (s : MetricStatus) : severity s = 3%nat <-> s = error.
Proof. destruct s; simpl; split; congruence. Qed.

Lemma combineStatuses_spec (l : list MetricStatus) :
  (forall s, In s l -> (severity s <= severity (combineStatuses l))%nat) /\
  (combineStatuses l = ok \/ In (combineStatuses l) l) /\
  (combineStatuses l = error <-> In error l).
Proof.
  unfold combineStatuses. destruct (combine_fold l ok) as [_ [H2 H3]].
  split; [exact H2|]. split; [exact H3|]. split.
  - intros He. destruct H3 as [H3|H3]; [rewrite He in H3; discriminate|].
    rewrite He in H3. exact H3.
  - intros Hin. pose proof (H2 error Hin) as Hs. simpl in Hs.
    apply severity_error.
    destruct (fold_left _ l ok); simpl in *; lia.
Qed.

(** X1: [combineStatuses] returns the most severe status of the list in
    the order ok < warning < critical < error: it is [ok] or one of the
    statuses, no status of the list is more severe, and it is [error]
    exactly when some status is [error]. *)
Theorem combineStatuses_max (l : list MetricStatus) :
  (forall s, In s l -> (severity s <= severity (combineStatuses l))%nat) /\
  (combineStatuses l = ok \/ In (combineStatuses l) l) /\
  (combineStatuses l = error <-> In error l).
Proof. apply combineStatuses_spec. Qed.

(** Invariants of the interface steps. *)
Lemma Qdiv_nonneg (a b : Q) : 0 <= a -> 0 < b -> 0 <= a / b.
Proof.
  intros Ha Hb. apply Qle_shift_div_l; [exact Hb|]. rewrite Qmult_0_l. exact Ha.
Qed.

Lemma computeThroughput_nonneg (cur : option Q) (prev : option Entry.t) (d : Q) (dir : Direction) :
  0 <= bps (computeThroughput cur prev d dir).
Proof.
  unfold computeThroughput.
  destruct cur as [c|], prev as [p|]; try (simpl; apply Qle_refl).
  destruct (Qle_bool d 0) eqn:Ed; [simpl; apply Qle_refl|].
  destruct (Qltb c (previousValueOf p dir)) eqn:Ec; [simpl; apply Qle_refl|].
  destruct (Qeq_bool (d / 1000) 0); [simpl; apply Qle_refl|]. simpl.
  apply SamplerFacts.Qle_bool_false in Ed. apply SamplerFacts.Qltb_false in Ec.
  apply Qdiv_nonneg.
  - apply Qmult_le_0_compat; [|discriminate].
    apply (Qplus_le_l _ _ (previousValueOf p dir)). ring_simplify. exact Ec.
  - apply Qlt_shift_div_l; [reflexivity|]. rewrite Qmult_0_l. exact Ed.
Qed.

Lemma divisor_pos (m : Q) : 0 < (if Qltb 0 m then m else 1).
Proof.
  destruct (Qltb 0 m) eqn:E; [apply SamplerFacts.Qltb_true in E; exact E|reflexivity].
Qed.

Lemma speedScale_pos (ic : InterfaceConfig) : 0 < speedScale ic.
Proof.
  unfold speedScale. destruct (oid_speed_scale ic) as [sc|]; [apply divisor_pos|reflexivity].
Qed.

Lemma applyVarbind_keeps (scale : Q) (s : IS.t) (vm : Varbind * OidKind) :
  0 < scale -> 0 <= IS.maxBandwidth s ->
  IS.name (applyVarbind scale s vm) = IS.name s /\
  0 <= IS.maxBandwidth (applyVarbind scale s vm).
Proof.
  intros Hs Hm. destruct vm as [[m|v|] k]; simpl; try (split; [reflexivity|exact Hm]).
  destruct k; simpl; try (split; [reflexivity|exact Hm]).
  destruct (Qltb 0 v) eqn:E; simpl; [|split; [reflexivity|exact Hm]].
  apply SamplerFacts.Qltb_true in E. split; [reflexivity|].
  apply Qlt_le_weak. apply Qmult_lt_0_compat; assumption.
Qed.

Lemma fold_applyVarbind_keeps (scale : Q) (l : list (Varbind * OidKind)) :
  0 < scale -> forall s : IS.t, 0 <= IS.maxBandwidth s ->
  IS.name (fold_left (applyVarbind scale) l s) = IS.name s /\
  0 <= IS.maxBandwidth (fold_left (applyVarbind scale) l s).
Proof.
  intros Hs. induction l as [|vm l IH]; intros s Hm; simpl; [split; [reflexivity|exact Hm]|].
  destruct (applyVarbind_keeps scale s vm Hs Hm) as [E1 E2].
  destruct (IH _ E2) as [F1 F2]. split; [congruence|exact F2].
Qed.

Lemma setupInterface_sample (ic : InterfaceConfig) :
  let s := t_sample (setupInterface ic) in
  IS.name s = name ic /\ t_iface (setupInterface ic) = ic /\
  IS.inOctets s = None /\ IS.outOctets s = None /\
  IS.inBps s = 0 /\ IS.outBps s = 0 /\ IS.inUtilization s = 0 /\ IS.outUtilization s = 0 /\
  IS.fresh s = false /\ (IS.error s <> None -> IS.status s = error) /\
  IS.maxBandwidth s = IS.maxBandwidth (makeInterfaceSample ic).
Proof.
  unfold setupInterface, addCounterOid.
  destruct (oid_in ic), (oid_out ic); simpl;
    destruct (oid_speed ic) as [[]|]; simpl;
    repeat split; try reflexivity; try (intros H; reflexivity);
    try (intros H; exfalso; apply H; reflexivity).
Qed.

Lemma makeInterfaceSample_nonneg (ic : InterfaceConfig) : 0 <= IS.maxBandwidth (makeInterfaceSample ic).
Proof.
  unfold makeInterfaceSample. simpl. destruct (max_bandwidth ic) as [b|]; [|apply Qle_refl].
  destruct (Qltb 0 b) eqn:E; [apply Qlt_le_weak; apply SamplerFacts.Qltb_true; exact E|apply Qle_refl].
Qed.

Lemma readTarget_keeps (respond : string -> list string -> Response) (ic : InterfaceConfig) :
  IS.name (readTarget respond (setupInterface ic)) = name ic /\
  0 <= IS.maxBandwidth (readTarget respond (setupInterface ic)).
Proof.
  destruct (setupInterface_sample ic) as [En [Ei [_ [_ [_ [_ [_ [_ [_ [_ Em]]]]]]]]]].
  pose proof (makeInterfaceSample_nonneg ic) as Hm. rewrite <- Em in Hm.
  unfold readTarget.
  destruct (hasCounters (setupInterface ic)); simpl; [|split; assumption].
  destruct (map fst (entries (setupInterface ic))); [split; assumption|].
  destruct (respond _ _) as [m|vbs]; [simpl; split; assumption|].
  rewrite Ei. destruct (fold_applyVarbind_keeps (speedScale ic)
     (combine vbs (map snd (entries (setupInterface ic)))) (speedScale_pos ic) _ Hm) as [F1 F2].
  split; [congruence|exact F2].
Qed.

Lemma finalizeInterface_sample (routerId : string) (now : Q) (cache : gmap string Entry.t) (s : IS.t) :
  let s' := fst (finalizeInterface routerId now cache s) in
  IS.name s' = IS.name s /\ IS.maxBandwidth s' = IS.maxBandwidth s /\
  0 <= IS.inBps s' /\ 0 <= IS.outBps s' /\ 0 <= IS.inUtilization s' /\ 0 <= IS.outUtilization s' /\
  (hasErrorOf (IS.error s') = true -> IS.status s' = error).
Proof.
  simpl. split; [reflexivity|]. split; [reflexivity|].
  split; [apply computeThroughput_nonneg|]. split; [apply computeThroughput_nonneg|].
  split; [apply Qdiv_nonneg; [apply computeThroughput_nonneg|apply divisor_pos]|].
  split; [apply Qdiv_nonneg; [apply computeThroughput_nonneg|apply divisor_pos]|].
  intros H. rewrite H. reflexivity.
Qed.

Lemma finalizeAll_forall (routerId : string) (now : Q) (P Q0 : IS.t -> Prop) :
  (forall c s, Q0 s -> P (fst (finalizeInterface routerId now c s))) ->
  forall samples cache, Forall Q0 samples -> Forall P (fst (finalizeAll routerId now cache samples)).
Proof.
  intros HP samples. induction samples as [|s rest IH]; intros cache Hf; cbn [finalizeAll]; [constructor|].
  inversion Hf as [|? ? Hs Hr]; subst.
  destruct (finalizeInterface routerId now cache s) as [s' c1] eqn:E1.
  destruct (finalizeAll routerId now c1 rest) as [rest' c2] eqn:E2. simpl. constructor.
  - pose proof (HP cache s Hs) as H. rewrite E1 in H. exact H.
  - pose proof (IH c1 Hr) as H. rewrite E2 in H. exact H.
Qed.

Lemma finalizeAll_names (routerId : string) (now : Q) (samples : list IS.t) :
  forall cache, map IS.name (fst (finalizeAll routerId now cache samples)) = map IS.name samples.
Proof.
  induction samples as [|s rest IH]; intros cache; cbn [finalizeAll]; [reflexivity|].
  destruct (finalizeInterface routerId now cache s) as [s' c1] eqn:E1.
  destruct (finalizeAll routerId now c1 rest) as [rest' c2] eqn:E2. simpl.
  pose proof (IH c1) as H. rewrite E2 in H. simpl in H. rewrite H.
  assert (IS.name s' = IS.name s) as Hn.
  { pose proof (f_equal (fun p => IS.name (fst p)) E1) as H'. cbn in H'. congruence. }
  rewrite Hn. reflexivity.
Qed.

Lemma forall_map_in {A B} (f : A -> B) (P : B -> Prop) (l : list A) :
  (forall a, In a l -> P (f a)) -> Forall P (map f l).
Proof.
  intros H. apply List.Forall_forall. intros b Hb. apply in_map_iff in Hb as [a [<- Ha]]. apply H. exact Ha.
Qed.

Lemma pollRouter_cases (routerId : string) (interfaces : list InterfaceConfig)
    (respond : string -> list string -> Response) (now : Q) (cache : gmap string Entry.t) :
  interfaces = [] /\ pollRouter routerId interfaces respond now cache =
                      (RS.mk error [] (Some "No interfaces configured"), cache) \/
  interfaces <> [] /\ existsb hasCounters (map setupInterface interfaces) = false /\
    pollRouter routerId interfaces respond now cache =
      (RS.mk (combineStatuses (map IS.status (map t_sample (map setupInterface interfaces))))
             (map t_sample (map setupInterface interfaces)) None, cache) \/
  interfaces <> [] /\ existsb hasCounters (map setupInterface interfaces) = true /\
    pollRouter routerId interfaces respond now cache =
      (RS.mk (combineStatuses (map IS.status
                 (fst (finalizeAll routerId now cache (map (readTarget respond) (map setupInterface interfaces))))))
             (fst (finalizeAll routerId now cache (map (readTarget respond) (map setupInterface interfaces))))
             None,
       snd (finalizeAll routerId now cache (map (readTarget respond) (map setupInterface interfaces)))).
Proof.
  destruct interfaces as [|ic rest]; [left; split; reflexivity|right].
  unfold pollRouter.
  destruct (existsb hasCounters (map setupInterface (ic :: rest))) eqn:E; simpl negb; cbv iota.
  - right. split; [discriminate|]. split; [reflexivity|].
    destruct (finalizeAll routerId now cache _); reflexivity.
  - left. split; [discriminate|]. split; reflexivity.
Qed.

(** X2: the samples [pollRouter] returns are named by exactly the
    configured interface names, and none reports a negative rate,
    utilization or capacity. *)
Theorem pollRouter_samples_nonneg (routerId : string) (interfaces : list InterfaceConfig)
    (respond : string -> list string -> Response) (now : Q) (cache : gmap string Entry.t) :
  let r := fst (pollRouter routerId interfaces respond now cache) in
  (interfaces <> [] -> forall n, In n (map IS.name (RS.interfaces r)) <-> In n (map name interfaces)) /\
  Forall (fun s => 0 <= IS.inBps s /\ 0 <= IS.outBps s /\ 0 <= IS.inUtilization s /\
                   0 <= IS.outUtilization s /\ 0 <= IS.maxBandwidth s) (RS.interfaces r).
Proof.
  simpl.
  destruct (pollRouter_cases routerId interfaces respond now cache)
    as [[-> ->]|[[Hne [_ ->]]|[Hne [_ ->]]]]; simpl.
  - split; [intros H; contradiction|constructor].
  - split.
    + intros _ n. match goal with |- In n ?a <-> In n ?b => assert (E : a = b) end;
        [|rewrite E; reflexivity].
      rewrite !map_map. apply map_ext. intros ic. apply (setupInterface_sample ic).
    + rewrite map_map. apply forall_map_in. intros ic _.
      destruct (setupInterface_sample ic) as [_ [_ [_ [_ [E1 [E2 [E3 [E4 [_ [_ Em]]]]]]]]]].
      rewrite E1, E2, E3, E4, Em. repeat split; try apply Qle_refl. apply makeInterfaceSample_nonneg.
  - split.
    + intros _ n. match goal with |- In n ?a <-> In n ?b => assert (E : a = b) end;
        [|rewrite E; reflexivity].
      rewrite finalizeAll_names, !map_map. apply map_ext. intros ic. apply readTarget_keeps.
    + apply (finalizeAll_forall routerId now _ (fun s => 0 <= IS.maxBandwidth s)).
      * intros c s Hs. destruct (finalizeInterface_sample routerId now c s) as [_ [Em [A [B [C [D _]]]]]].
        split; [exact A|]. split; [exact B|]. split; [exact C|]. split; [exact D|].
        rewrite Em. exact Hs.
      * rewrite map_map. apply forall_map_in. intros ic _. apply readTarget_keeps.
Qed.

(** X3: in the sample [pollRouter] returns, an interface with a non-empty
    error message has status [error], no interface is more severe than the
    router, and the router is [error] exactly when it has no interfaces or
    one of its interfaces is [error]. *)
Theorem pollRouter_status_consistent (routerId : string) (interfaces : list InterfaceConfig)
    (respond : string -> list string -> Response) (now : Q) (cache : gmap string Entry.t) :
  let r := fst (pollRouter routerId interfaces respond now cache) in
  (forall s, In s (RS.interfaces r) -> hasErrorOf (IS.error s) = true -> IS.status s = error) /\
  (forall s, In s (RS.interfaces r) -> (severity (IS.status s) <= severity (RS.status r))%nat) /\
  (RS.status r = error <-> interfaces = [] \/ exists s, In s (RS.interfaces r) /\ IS.status s = error).
Proof.
  simpl.
  assert (Hcomb : forall l : list IS.t,
    (forall s, In s l -> (severity (IS.status s) <= severity (combineStatuses (map IS.status l)))%nat) /\
    (combineStatuses (map IS.status l) = error <-> exists s, In s l /\ IS.status s = error)).
  { intros l. destruct (combineStatuses_spec (map IS.status l)) as [H1 [_ H3]]. split.
    - intros s Hs. apply H1. apply in_map. exact Hs.
    - rewrite H3. split.
      + intros Hin. apply in_map_iff in Hin as [s [Hs Hin]]. exists s. split; assumption.
      + intros [s [Hin Hs]]. rewrite <- Hs. apply in_map. exact Hin. }
  destruct (pollRouter_cases routerId interfaces respond now cache)
    as [[-> ->]|[[Hne [_ ->]]|[Hne [_ ->]]]]; simpl.
  - split; [intros s []|]. split; [intros s []|]. split; [intros _; left; reflexivity|reflexivity].
  - destruct (Hcomb (map t_sample (map setupInterface interfaces))) as [C1 C2].
    split; [|split; [exact C1|]].
    + intros s Hs Herr. rewrite map_map in Hs. apply in_map_iff in Hs as [ic [<- _]].
      destruct (setupInterface_sample ic) as [_ [_ [_ [_ [_ [_ [_ [_ [_ [Hst _]]]]]]]]]].
      apply Hst. destruct (IS.error _); [discriminate|discriminate Herr].
    + rewrite C2. split; [intros H; right; exact H|intros [H|H]; [contradiction|exact H]].
  - destruct (Hcomb (fst (finalizeAll routerId now cache
                 (map (readTarget respond) (map setupInterface interfaces))))) as [C1 C2].
    split; [|split; [exact C1|]].
    + intros s Hs. pose proof (finalizeAll_forall routerId now
        (fun s => hasErrorOf (IS.error s) = true -> IS.status s = error) (fun _ => True)) as HF.
      refine (proj1 (List.Forall_forall _ _) (HF _ _ cache _) s Hs).
      * intros c s0 _. apply (finalizeInterface_sample routerId now c s0).
      * apply List.Forall_forall. intros; exact I.
    + rewrite C2. split; [intros H; right; exact H|intros [H|H]; [contradiction|exact H]].
Qed.

Lemma computeThroughput_fresh (cur : option Q) (prev : option Entry.t) (d : Q) (dir : Direction) :
  fresh (computeThroughput cur prev d dir) = true <->
  exists c p, cur = Some c /\ prev = Some p /\ 0 < d /\ previousValueOf p dir <= c.
Proof.
  unfold computeThroughput. split.
  - destruct cur as [c|], prev as [p|]; simpl; try discriminate.
    destruct (Qle_bool d 0) eqn:Ed; [discriminate|].
    destruct (Qltb c (previousValueOf p dir)) eqn:Ec; [discriminate|].
    intros _. exists c, p. split; [reflexivity|]. split; [reflexivity|].
    split; [apply SamplerFacts.Qle_bool_false; exact Ed|apply SamplerFacts.Qltb_false; exact Ec].
  - intros [c [p [-> [-> [Hd Hc]]]]].
    assert (Qle_bool d 0 = false) as Ed by (apply SamplerFacts.Qle_bool_false; exact Hd).
    assert (Qltb c (previousValueOf p dir) = false) as Ec by (apply SamplerFacts.Qltb_false; exact Hc).
    rewrite Ed, Ec.
    destruct (Qeq_bool (d / 1000) 0) eqn:Ez; [|reflexivity].
    apply Qeq_bool_iff in Ez. exfalso.
    assert (0 < d / 1000) as Hp by (apply Qlt_shift_div_l; [reflexivity|rewrite Qmult_0_l; exact Hd]).
    rewrite Ez in Hp. discriminate Hp.
Qed.

(** X4: the step of [pollRouter] that finishes an interface marks it
    fresh exactly when both counters were read, the counter cache holds an
    entry for the interface's key with a timestamp before [now], and
    neither counter is below the cached one. *)
Theorem finalizeInterface_fresh_iff (routerId : string) (now : Q)
    (cache : gmap string Entry.t) (s : IS.t) :
  IS.fresh (fst (finalizeInterface routerId now cache s)) = true <->
  exists i o p, IS.inOctets s = Some i /\ IS.outOctets s = Some o /\
    cache !! cacheKey routerId (IS.name s) = Some p /\
    Entry.timestamp p < now /\ Entry.inOctets p <= i /\ Entry.outOctets p <= o.
Proof.
  unfold finalizeInterface. cbn [fst IS.fresh]. rewrite andb_true_iff, !computeThroughput_fresh.
  split.
  - intros [[i [p [Hi [Hp [Hd Hc]]]]] [o [p' [Ho [Hp' [_ Hc']]]]]].
    rewrite Hp in Hp'. injection Hp' as <-. rewrite Hp in Hd.
    exists i, o, p. repeat split; try assumption.
    apply (proj2 (Qlt_minus_iff _ _)). exact Hd.
  - intros [i [o [p [Hi [Ho [Hp [Ht [Hci Hco]]]]]]]]. rewrite Hp.
    assert (0 < now - Entry.timestamp p) as Hd by (apply (proj1 (Qlt_minus_iff _ _)); exact Ht).
    split; [exists i, p|exists o, p]; repeat split; assumption.
Qed.

Lemma setupInterface_unpollable (ic : InterfaceConfig) (m1 m2 : string) :
  oid_in ic = OidErr m1 -> oid_out ic = OidErr m2 ->
  hasCounters (setupInterface ic) = false /\ IS.status (t_sample (setupInterface ic)) = error.
Proof.
  intros E1 E2. unfold setupInterface, addCounterOid. rewrite E1, E2.
  destruct (oid_speed ic) as [[]|]; simpl; split; reflexivity.
Qed.

(** X5: when no interface of a router has a valid counter OID (or it has
    no interface), [pollRouter] makes no request (its result is the same
    whatever the device would answer), leaves the counter cache
    as it was and reports the router and each interface as [error], with
    rate 0 and not fresh. *)
Theorem pollRouter_unpollable (routerId : string) (interfaces : list InterfaceConfig)
    (respond : string -> list string -> Response) (now : Q) (cache : gmap string Entry.t) :
  (forall ic, In ic interfaces ->
     (exists m, oid_in ic = OidErr m) /\ (exists m, oid_out ic = OidErr m)) ->
  let r := pollRouter routerId interfaces respond now cache in
  (forall respond', pollRouter routerId interfaces respond' now cache = r) /\
  snd r = cache /\ RS.status (fst r) = error /\
  Forall (fun s => IS.status s = error /\ IS.fresh s = false /\ IS.inBps s = 0 /\ IS.outBps s = 0)
    (RS.interfaces (fst r)).
Proof.
  intros Hbad. simpl.
  assert (Hsetup : forall ic, In ic interfaces ->
            hasCounters (setupInterface ic) = false /\ IS.status (t_sample (setupInterface ic)) = error).
  { intros ic Hin. destruct (Hbad ic Hin) as [[m1 E1] [m2 E2]].
    apply (setupInterface_unpollable ic m1 m2 E1 E2). }
  split.
  { intros respond'. unfold pollRouter. destruct interfaces as [|ic rest]; [reflexivity|].
    destruct (existsb hasCounters (map setupInterface (ic :: rest))) eqn:Ex; [|reflexivity].
    exfalso. apply existsb_exists in Ex as [t [Ht Hc]].
    apply in_map_iff in Ht as [ic' [<- Hin]].
    rewrite (proj1 (Hsetup ic' Hin)) in Hc. discriminate. }
  destruct (pollRouter_cases routerId interfaces respond now cache)
    as [[-> ->]|[[Hne [_ ->]]|[Hne [Hex _]]]]; simpl.
  - split; [reflexivity|]. split; [reflexivity|constructor].
  - split; [reflexivity|]. split.
    + apply combineStatuses_spec.
      destruct interfaces as [|ic rest]; [contradiction|].
      simpl. left. apply (Hsetup ic (or_introl eq_refl)).
    + rewrite map_map. apply forall_map_in. intros ic Hin.
      destruct (setupInterface_sample ic) as [_ [_ [_ [_ [E1 [E2 [_ [_ [E3 _]]]]]]]]].
      split; [apply (Hsetup ic Hin)|]. split; [exact E3|]. split; assumption.
  - exfalso. apply existsb_exists in Hex as [t [Ht Hc]].
    apply in_map_iff in Ht as [ic [<- Hin]].
    rewrite (proj1 (Hsetup ic Hin)) in Hc. discriminate.
Qed.

(** Witness for [pollRouter_unpollable]: a router whose only interface has
    two empty OIDs. *)
Lemma pollRouter_unpollable_witness :
  let ic := {| name := "ge0"; oid_in := OidErr "OID is required";
               oid_out := OidErr "OID is required"; max_bandwidth := Some 1000;
               oid_speed := None; oid_speed_scale := None |} in
  let r := pollRouter "r1" [ic] (fun _ _ => RespErr "unused") 0 ∅ in
  snd r = ∅ /\ RS.status (fst r) = error.
Proof.
  intros ic r.
  destruct (pollRouter_unpollable "r1" [ic] (fun _ _ => RespErr "unused") 0 ∅) as [_ [A [B _]]].
  { intros ic' [<-|[]]. split; eexists; reflexivity. }
  split; assumption.
Defined.

End SamplerExtras.

(* ------------------------------------------------------------------ *)
(** ** OID sanitising *)

Module OidFacts.
Import Sampler Oid OidSpec.

Lemma trimStart_id (s : string) :
  allChars (fun c => negb (isJsSpace c)) s = true -> trimStart s = s.
Proof.
  destruct s as [|c t]; simpl; [reflexivity|].
  intros H. apply andb_prop in H as [H _].
  destruct (isJsSpace c); [discriminate|reflexivity].
Qed.

Lemma trimEnd_id (s : string) :
  allChars (fun c => negb (isJsSpace c)) s = true -> trimEnd s = s.
Proof.
  induction s as [|c t IH]; simpl; [reflexivity|].
  intros H. apply andb_prop in H as [H1 H2].
  rewrite (IH H2). destruct (isJsSpace c); [discriminate|reflexivity].
Qed.

Lemma trim_id (s : string) :
  allChars (fun c => negb (isJsSpace c)) s = true -> trim s = s.
Proof. intros H. unfold trim. rewrite (trimStart_id s H). apply trimEnd_id, H. Qed.

Lemma allChars_app (p : Ascii.ascii -> bool) (s t : string) :
  allChars p (s +:+ t) = allChars p s && allChars p t.
Proof.
  induction s as [|c s IH]; simpl; [reflexivity|].
  rewrite IH. apply andb_assoc.
Qed.

Lemma allChars_impl (p q : Ascii.ascii -> bool) (s : string) :
  (forall c, p c = true -> q c = true) -> allChars p s = true -> allChars q s = true.
Proof.
  intros Hpq. induction s as [|c t IH]; simpl; [reflexivity|].
  intros H. apply andb_prop in H as [H1 H2]. rewrite (Hpq c H1), (IH H2). reflexivity.
Qed.

Lemma allDigits_allChars (s : string) : allDigits s = allChars isDigit s.
Proof. induction s as [|c t IH]; simpl; [reflexivity|]. rewrite IH. reflexivity. Qed.

Lemma digitOrDot_not_space (c : Ascii.ascii) : digitOrDot c = true -> negb (isJsSpace c) = true.
Proof.
  unfold digitOrDot, isDigit, isDot, dotChar, isJsSpace.
  destruct c as [b0 b1 b2 b3 b4 b5 b6 b7].
  destruct b0, b1, b2, b3, b4, b5, b6, b7; vm_compute; congruence.
Qed.

Lemma digit_not_dot (c : Ascii.ascii) : isDigit c = true -> isDot c = false.
Proof.
  unfold isDigit, isDot, dotChar.
  destruct c as [b0 b1 b2 b3 b4 b5 b6 b7].
  destruct b0, b1, b2, b3, b4, b5, b6, b7; vm_compute; congruence.
Qed.

Lemma splitDot_nodot (s : string) :
  allChars (fun c => negb (isDot c)) s = true -> splitDot s = [s].
Proof.
  induction s as [|c t IH]; simpl; [reflexivity|].
  intros H. apply andb_prop in H as [H1 H2].
  destruct (isDot c); [discriminate|]. rewrite (IH H2). reflexivity.
Qed.

Lemma splitDot_app (s t : string) :
  allChars (fun c => negb (isDot c)) s = true ->
  splitDot (s +:+ String dotChar t) = s :: splitDot t.
Proof.
  induction s as [|c s IH]; simpl.
  - intros _. reflexivity.
  - intros H. apply andb_prop in H as [H1 H2].
    destruct (isDot c); [discriminate|]. rewrite (IH H2). reflexivity.
Qed.

Lemma numeric_nodot (s : string) :
  isNumericSegment s = true -> allChars (fun c => negb (isDot c)) s = true.
Proof.
  unfold isNumericSegment. intros H. apply andb_prop in H as [_ H].
  rewrite allDigits_allChars in H. revert H. apply allChars_impl.
  intros c Hc. rewrite (digit_not_dot c Hc). reflexivity.
Qed.

Lemma splitDot_joinDot (segs : list string) :
  segs <> [] -> Forall (fun s => isNumericSegment s = true) segs ->
  splitDot (joinDot segs) = segs.
Proof.
  induction segs as [|s [|s' r] IH]; intros Hne Hall; [contradiction| |].
  - inversion Hall; subst. simpl. apply splitDot_nodot, numeric_nodot; assumption.
  - inversion Hall; subst. change (joinDot (s :: s' :: r)) with (s +:+ String dotChar (joinDot (s' :: r))).
    rewrite splitDot_app by (apply numeric_nodot; assumption).
    rewrite IH; [reflexivity|discriminate|assumption].
Qed.

Lemma joinDot_chars (segs : list string) :
  Forall (fun s => isNumericSegment s = true) segs -> allChars digitOrDot (joinDot segs) = true.
Proof.
  induction segs as [|s [|s' r] IH]; intros Hall; [reflexivity| |].
  - inversion Hall; subst. simpl.
    unfold isNumericSegment in *. apply andb_prop in H1 as [_ H1].
    rewrite allDigits_allChars in H1. revert H1. apply allChars_impl.
    intros c Hc. unfold digitOrDot. rewrite Hc. reflexivity.
  - inversion Hall; subst.
    change (joinDot (s :: s' :: r)) with (s +:+ String dotChar (joinDot (s' :: r))).
    rewrite allChars_app. simpl. apply andb_true_intro. split.
    + unfold isNumericSegment in *. apply andb_prop in H1 as [_ H1].
      rewrite allDigits_allChars in H1. revert H1. apply allChars_impl.
      intros c Hc. unfold digitOrDot. rewrite Hc. reflexivity.
    + change (digitOrDot dotChar && allChars digitOrDot (joinDot (s' :: r)) = true).
      apply IH; assumption.
Qed.

Lemma joinDot_head (s : string) (r : list string) :
  isNumericSegment s = true ->
  exists c t, joinDot (s :: r) = String c t /\ isDigit c = true.
Proof.
  intros H. destruct s as [|c t].
  - discriminate.
  - unfold isNumericSegment in H. simpl in H.
    apply andb_prop in H as [Hc _].
    destruct r; simpl; eexists; eexists; split; [reflexivity|exact Hc|reflexivity|exact Hc].
Qed.

Lemma filter_keep_all {A} (p : A -> bool) (l : list A) :
  Forall (fun x => p x = true) l -> List.filter p l = l.
Proof.
  induction 1 as [|x l Hx _ IH]; simpl; [reflexivity|]. rewrite Hx, IH. reflexivity.
Qed.

Lemma find_none_forall {A} (p : A -> bool) (l : list A) :
  find p l = None -> Forall (fun x => p x = false) l.
Proof.
  induction l as [|x l IH]; simpl; [constructor|].
  destruct (p x) eqn:E; [discriminate|]. intros H. constructor; [exact E|apply IH, H].
Qed.

Lemma find_none_of_forall {A} (p : A -> bool) (l : list A) :
  Forall (fun x => p x = false) l -> find p l = None.
Proof. induction 1 as [|x l Hx _ IH]; simpl; [reflexivity|]. rewrite Hx. exact IH. Qed.

Lemma sanitizeOid_joinDot (segs : list string) :
  segs <> [] -> Forall (fun s => isNumericSegment s = true) segs ->
  sanitizeOid (joinDot segs) = OidOk (joinDot segs).
Proof.
  intros Hne Hall. unfold sanitizeOid.
  assert (Hsp : allChars (fun c => negb (isJsSpace c)) (joinDot segs) = true).
  { eapply allChars_impl; [apply digitOrDot_not_space|apply joinDot_chars, Hall]. }
  rewrite (trim_id _ Hsp).
  destruct segs as [|s r]; [contradiction|].
  destruct (joinDot_head s r) as [c [t [Ej _]]]; [inversion Hall; assumption|].
  rewrite Ej. simpl String.eqb. cbv iota. rewrite <- Ej.
  rewrite (splitDot_joinDot (s :: r) Hne Hall).
  rewrite filter_keep_all.
  2:{ revert Hall. apply List.Forall_impl. intros x Hx. unfold isNumericSegment in Hx.
      apply andb_prop in Hx as [Hx _]. exact Hx. }
  rewrite find_none_of_forall; [reflexivity|].
  revert Hall. apply List.Forall_impl. intros x Hx. rewrite Hx. reflexivity.
Qed.

(** X6: an OID [sanitizeOid] accepts is a non-empty list of digit runs
    joined by single dots; sanitising it again gives it back unchanged, and
    [normalizeOid], applied to varbind OIDs before they are looked up,
    leaves it as it is. *)
Theorem sanitizeOid_ok_canonical (raw oid : string) :
  sanitizeOid raw = OidOk oid ->
  (exists segs, segs <> [] /\ Forall (fun s => isNumericSegment s = true) segs /\
                oid = joinDot segs) /\
  sanitizeOid oid = OidOk oid /\ normalizeOid oid = oid.
Proof.
  unfold sanitizeOid at 1. destruct (String.eqb (trim raw) "") ; [discriminate|].
  set (segs := List.filter _ (splitDot (trim raw))).
  destruct segs as [|s r] eqn:Es; [discriminate|].
  destruct (find _ (s :: r)) eqn:Ef; [discriminate|].
  intros H. assert (Ho : oid = joinDot (s :: r)) by (injection H as H; rewrite <- H; reflexivity).
  subst oid. clear H.
  assert (Hall : Forall (fun x => isNumericSegment x = true) (s :: r)).
  { apply find_none_forall in Ef. revert Ef. apply List.Forall_impl.
    intros x Hx. destruct (isNumericSegment x); [reflexivity|discriminate]. }
  split; [exists (s :: r); split; [discriminate|split; [exact Hall|reflexivity]]|].
  split; [apply (sanitizeOid_joinDot (s :: r)); [discriminate|exact Hall]|].
  unfold normalizeOid. rewrite trim_id.
  2:{ eapply allChars_impl; [apply digitOrDot_not_space|apply joinDot_chars, Hall]. }
  destruct (joinDot_head s r) as [c [t [Ej Hc]]]; [inversion Hall; assumption|].
  rewrite Ej. simpl. rewrite (digit_not_dot c Hc). reflexivity.
Qed.

(** Witness for [sanitizeOid_ok_canonical]: the OID of [ifHCInOctets.1]
    written with a leading dot and surrounding blanks. *)
Lemma sanitizeOid_ok_canonical_witness :
  sanitizeOid " .1.3.6.1.2.1.31.1.1.1.6.1 " = OidOk "1.3.6.1.2.1.31.1.1.1.6.1" /\
  normalizeOid "1.3.6.1.2.1.31.1.1.1.6.1" = "1.3.6.1.2.1.31.1.1.1.6.1".
Proof.
  assert (E : sanitizeOid " .1.3.6.1.2.1.31.1.1.1.6.1 " = OidOk "1.3.6.1.2.1.31.1.1.1.6.1")
    by reflexivity.
  split; [exact E|].
  apply (proj2 (proj2 (sanitizeOid_ok_canonical _ _ E))).
Defined.

End OidFacts.

(* ------------------------------------------------------------------ *)
(** ** Configuration normalisation *)

Module ConfigFacts.
Import Config ConfigSpec.
Local Open Scope Q_scope.

Ltac split_matches H :=
  repeat match type of H with
         | context [match ?x with _ => _ end] => destruct x eqn:?; try discriminate H
         end.

Lemma mapR_ok {A B} (f : A -> Result B) (l : list A) (l' : list B) :
  mapR f l = PollLoop.Ok l' -> Forall2 (fun a b => f a = PollLoop.Ok b) l l'.
Proof.
  revert l'. induction l as [|a r IH]; simpl; intros l' H.
  - injection H as <-. constructor.
  - destruct (f a) as [b|e] eqn:Ef; [|discriminate].
    destruct (mapR f r) as [bs|e] eqn:Er; [|discriminate].
    injection H as <-. constructor; [exact Ef|apply IH; reflexivity].
Qed.

Lemma mapR_ok_intro {A B} (f : A -> Result B) (l : list A) (l' : list B) :
  Forall2 (fun a b => f a = PollLoop.Ok b) l l' -> mapR f l = PollLoop.Ok l'.
Proof. induction 1 as [|a b r r' Hab _ IH]; simpl; [reflexivity|]. rewrite Hab, IH. reflexivity. Qed.

Lemma mapR_ok_iff {A B} (f : A -> Result B) (l : list A) :
  (exists l', mapR f l = PollLoop.Ok l') <-> Forall (fun a => exists b, f a = PollLoop.Ok b) l.
Proof.
  split.
  - intros [l' H]. apply mapR_ok in H. induction H; constructor; eauto.
  - induction 1 as [|a r [b Hb] _ [bs IH]]; [exists []; reflexivity|].
    exists (b :: bs). simpl. rewrite Hb, IH. reflexivity.
Qed.

Lemma mapiR_ok {A B} (f : nat -> A -> Result B) (i : nat) (l : list A) (l' : list B) :
  mapiR f i l = PollLoop.Ok l' ->
  length l' = length l /\
  forall n a b, l !! n = Some a -> l' !! n = Some b -> f (i + n)%nat a = PollLoop.Ok b.
Proof.
  revert i l'. induction l as [|a r IH]; simpl; intros i l' H.
  - injection H as <-. split; [reflexivity|]. intros n a b Ha. discriminate.
  - destruct (f i a) as [b|e] eqn:Ef; [|discriminate].
    destruct (mapiR f (S i) r) as [bs|e] eqn:Er; [|discriminate].
    injection H as <-. destruct (IH (S i) bs Er) as [Hlen Hn].
    split; [simpl; rewrite Hlen; reflexivity|].
    intros [|n] a' b'; simpl.
    + intros [= <-] [= <-]. rewrite Nat.add_0_r. exact Ef.
    + intros Ha Hb. rewrite <- Nat.add_succ_comm. apply (Hn n); assumption.
Qed.

Lemma truthy_some (o : option string) (s : string) :
  truthy o = Some s -> o = Some s /\ s <> "".
Proof.
  destruct o as [t|]; simpl; [|discriminate].
  destruct (String.eqb_spec t "") as [E|E]; [discriminate|].
  intros [= <-]. split; [reflexivity|exact E].
Qed.

Lemma truthy_none (o : option string) :
  truthy o = None -> o = None \/ o = Some "".
Proof.
  destruct o as [t|]; simpl; [|auto].
  destruct (String.eqb_spec t "") as [E|E]; [subst; auto|discriminate].
Qed.

Lemma normaliseInterface_ok (rid : string) (iface : RawIface.t) (p : PollIface.t) (d : IfaceDefn.t) :
  normaliseInterface rid iface = PollLoop.Ok (p, d) ->
  ifaceDefnSound d /\ ifaceAgree p d /\ truthy (RawIface.name iface) = Some (IfaceDefn.name d).
Proof.
  unfold normaliseInterface. intros H. split_matches H.
  all: repeat match goal with
              | E : context [match ?x with _ => _ end] |- _ =>
                  destruct x eqn:?; try discriminate E
              end.
  all: injection H as <- <-.
  all: repeat match goal with
              | E : Some _ = Some _ |- _ => injection E as E; subst
              | E : Sampler.Qltb 0 _ = true |- _ => apply SamplerFacts.Qltb_true in E
              | E : truthy (Some _) = Some _ |- _ => apply truthy_some in E as [[= ?] ?]
              end.
  all: unfold ifaceDefnSound, ifaceAgree; cbn.
  all: repeat split; try reflexivity; try (intros; discriminate);
       try (intros ? [= <-]; first [assumption | reflexivity]).
  all: try (intros ? [= <-]; congruence).
Qed.

Lemma normaliseInterface_accepts (rid : string) (iface : RawIface.t) :
  (exists v, normaliseInterface rid iface = PollLoop.Ok v) <-> rawIfaceValid iface.
Proof.
  unfold normaliseInterface, rawIfaceValid. split.
  - intros [v H]. split_matches H.
    all: repeat match goal with
                | E : context [match ?x with _ => _ end] |- _ =>
                    destruct x eqn:?; try discriminate E
                end.
    all: repeat match goal with
                | E : Some _ = Some _ |- _ => injection E as E; subst
                end.
    all: split; [congruence|split; [congruence|split; [congruence|]]].
    all: first
         [ left; eexists; split; [first [reflexivity|eassumption]|apply SamplerFacts.Qltb_true; eassumption]
         | right; eexists; split; [first [reflexivity|eassumption]|];
           match goal with E : truthy (Some _) = Some _ |- _ =>
             apply truthy_some in E as [[= ->] ?]; assumption end ].
  - intros [Hn [Hi [Ho Hb]]].
    destruct (truthy (RawIface.name iface)) as [nm|]; [|congruence].
    destruct (truthy (RawIface.oid_in iface)) as [oi|]; [|congruence].
    destruct (truthy (RawIface.oid_out iface)) as [oo|]; [|congruence].
    match goal with |- exists v, match ?sb with _ => _ end = _ => destruct sb as [b|] eqn:Eb end.
    + destruct (match RawIface.oid_speed iface with Some s => truthy (Some (Oid.trim s)) | None => None end);
        eexists; reflexivity.
    + destruct Hb as [[b [Eb' Hb]]|[s [Es Hs]]].
      * rewrite Eb' in Eb. apply SamplerFacts.Qltb_true in Hb. rewrite Hb in Eb. discriminate.
      * rewrite Es. simpl. destruct (String.eqb_spec (Oid.trim s) ""); [contradiction|].
        eexists; reflexivity.
Qed.

Lemma normaliseRouter_ok (rid : string) (r : RawRouter.t) (p : PollRouter.t) (d : RouterDefn.t) :
  normaliseRouter rid r = PollLoop.Ok (p, d) ->
  RouterDefn.id d = rid /\ PollRouter.label p = RouterDefn.label d /\
  exists ifaces outs, RawRouter.interfaces r = Some ifaces /\
    Forall2 (fun i o => normaliseInterface rid i = PollLoop.Ok o) ifaces outs /\
    PollRouter.interfaces p = map fst outs /\ RouterDefn.interfaces d = map snd outs.
Proof.
  unfold normaliseRouter. intros H.
  destruct (truthy (RawRouter.ip r)); [|discriminate].
  destruct (truthy (RawRouter.community r)); [|discriminate].
  destruct (RawRouter.interfaces r) as [[|i is]|] eqn:Ei; try discriminate.
  destruct (mapR (normaliseInterface rid) (i :: is)) as [outs|e] eqn:Em; [|discriminate].
  injection H as <- <-. cbn. split; [reflexivity|split; [reflexivity|]].
  exists (i :: is), outs. split; [reflexivity|]. split; [apply mapR_ok, Em|].
  split; reflexivity.
Qed.

Lemma normaliseRouter_accepts (rid : string) (r : RawRouter.t) :
  (exists v, normaliseRouter rid r = PollLoop.Ok v) <->
  truthy (RawRouter.ip r) <> None /\ truthy (RawRouter.community r) <> None /\
  exists ifaces, RawRouter.interfaces r = Some ifaces /\ ifaces <> [] /\ Forall rawIfaceValid ifaces.
Proof.
  unfold normaliseRouter. split.
  - intros [v H].
    destruct (truthy (RawRouter.ip r)); [|discriminate].
    destruct (truthy (RawRouter.community r)); [|discriminate].
    destruct (RawRouter.interfaces r) as [[|i is]|] eqn:Ei; try discriminate.
    destruct (mapR (normaliseInterface rid) (i :: is)) as [outs|e] eqn:Em; [|discriminate].
    split; [discriminate|split; [discriminate|]].
    exists (i :: is). split; [reflexivity|split; [discriminate|]].
    assert (Hex : exists l', mapR (normaliseInterface rid) (i :: is) = PollLoop.Ok l') by eauto.
    apply mapR_ok_iff in Hex. revert Hex. apply List.Forall_impl.
    intros x Hx. apply (normaliseInterface_accepts rid x), Hx.
  - intros [Hip [Hc [ifaces [Ei [Hne Hall]]]]].
    destruct (truthy (RawRouter.ip r)); [|congruence].
    destruct (truthy (RawRouter.community r)); [|congruence].
    rewrite Ei. destruct ifaces as [|i is]; [congruence|].
    assert (Hex : Forall (fun a => exists b, normaliseInterface rid a = PollLoop.Ok b) (i :: is)).
    { revert Hall. apply List.Forall_impl. intros x Hx. apply normaliseInterface_accepts, Hx. }
    apply mapR_ok_iff in Hex as [outs Em]. rewrite Em. eexists; reflexivity.
Qed.

Lemma normaliseRoutersFrom_ok (entries : list (string * RawRouter.t))
    (pc0 : gmap string PollRouter.t) (defs0 : list RouterDefn.t) pc defs :
  normaliseRoutersFrom entries pc0 defs0 = PollLoop.Ok (pc, defs) ->
  exists outs, Forall2 (fun e o => normaliseRouter e.1 e.2 = PollLoop.Ok o) entries outs /\
    defs = defs0 ++ map snd outs /\
    pc = fold_left (fun m eo => <[eo.1.1 := eo.2.1]> m) (combine entries outs) pc0.
Proof.
  revert pc0 defs0. induction entries as [|[rid r] rest IH]; simpl; intros pc0 defs0 H.
  - injection H as <- <-. exists []. split; [constructor|]. rewrite app_nil_r. split; reflexivity.
  - destruct (normaliseRouter rid r) as [[p d]|e] eqn:En; [|discriminate].
    destruct (IH _ _ H) as [outs [Hf [Hd Hp]]].
    exists ((p, d) :: outs). split; [constructor; assumption|].
    split; [rewrite Hd, <- app_assoc; reflexivity|exact Hp].
Qed.

Lemma normaliseRoutersFrom_accepts (entries : list (string * RawRouter.t))
    (pc0 : gmap string PollRouter.t) (defs0 : list RouterDefn.t) :
  (exists v, normaliseRoutersFrom entries pc0 defs0 = PollLoop.Ok v) <->
  Forall (fun e => exists o, normaliseRouter e.1 e.2 = PollLoop.Ok o) entries.
Proof.
  revert pc0 defs0. induction entries as [|[rid r] rest IH]; simpl; intros pc0 defs0.
  - split; [constructor|eauto].
  - destruct (normaliseRouter rid r) as [[p d]|e] eqn:En.
    + rewrite IH. split; [intros H; constructor; [eauto|exact H]|intros H; inversion H; assumption].
    + split; [intros [v Hv]; discriminate|intros H; inversion H as [|? ? [o Ho]]; simpl in Ho; congruence].
Qed.

Section FoldInsert.
Context {X V : Type} (key : X -> string) (val : X -> V).

Lemma fold_insert_notin (l : list X) (m0 : gmap string V) (k : string) :
  ~ In k (map key l) ->
  fold_left (fun m x => <[key x := val x]> m) l m0 !! k = m0 !! k.
Proof.
  revert m0. induction l as [|x r IH]; simpl; intros m0 Hk; [reflexivity|].
  rewrite IH by tauto. apply lookup_insert_ne. intros E. apply Hk. left. exact E.
Qed.

Lemma fold_insert_last (l : list X) (m0 : gmap string V) (x : X) :
  NoDup (map key l) -> In x l ->
  fold_left (fun m y => <[key y := val y]> m) l m0 !! key x = Some (val x).
Proof.
  revert m0. induction l as [|y r IH]; simpl; intros m0 Hnd Hin; [contradiction|].
  inversion Hnd as [|? ? Hy Hr]; subst. rewrite list_elem_of_In in Hy.
  destruct Hin as [<-|Hin].
  - rewrite fold_insert_notin by exact Hy. apply lookup_insert_eq.
  - apply IH; assumption.
Qed.

Lemma fold_insert_is_some (l : list X) (m0 : gmap string V) (k : string) :
  is_Some (fold_left (fun m x => <[key x := val x]> m) l m0 !! k) <->
  is_Some (m0 !! k) \/ In k (map key l).
Proof.
  revert m0. induction l as [|x r IH]; simpl; intros m0.
  - tauto.
  - rewrite IH. destruct (String.eqb_spec (key x) k) as [<-|Hne].
    + rewrite lookup_insert_eq. split; [tauto|intros _; left; eauto].
    + rewrite lookup_insert_ne by exact Hne. split; [tauto|].
      intros [H|[H|H]]; [tauto|congruence|tauto].
Qed.

End FoldInsert.

Lemma Forall2_map_fst_combine {A B} (R : A -> B -> Prop) (l1 : list A) (l2 : list B) :
  Forall2 R l1 l2 -> map fst (combine l1 l2) = l1.
Proof. induction 1; simpl; congruence. Qed.

Lemma Forall2_combine_in {A B} (R : A -> B -> Prop) (l1 : list A) (l2 : list B) (y : B) :
  Forall2 R l1 l2 -> In y l2 -> exists x, In (x, y) (combine l1 l2) /\ R x y.
Proof.
  induction 1 as [|a b r1 r2 Hab _ IH]; simpl; [tauto|].
  intros [<-|Hin]; [exists a; tauto|].
  destruct (IH Hin) as [x [Hx Rx]]. exists x. tauto.
Qed.

Lemma Forall2_map_snd {A B} (R : A -> B -> Prop) (l1 : list A) (l2 : list B) :
  Forall2 R l1 l2 -> map fst (combine l1 l2) = l1 /\ map snd (combine l1 l2) = l2.
Proof. induction 1; simpl; [split; reflexivity|]. destruct IHForall2 as [-> ->]. split; reflexivity. Qed.

Lemma Forall2_pairs {A B C} (R : A -> B * C -> Prop) (P : B -> C -> Prop) (l1 : list A) outs :
  Forall2 R l1 outs -> (forall a o, R a o -> P o.1 o.2) -> Forall2 P (map fst outs) (map snd outs).
Proof. intros H HP. induction H as [|a o r1 r2 Hao _ IH]; simpl; constructor; eauto. Qed.

Lemma Forall2_right {A B} (R : A -> B -> Prop) (P : B -> Prop) (l1 : list A) (l2 : list B) :
  Forall2 R l1 l2 -> (forall a b, R a b -> P b) -> Forall P l2.
Proof. intros H HP. induction H; constructor; eauto. Qed.

Lemma Forall2_map_right {A B} (R : A -> B -> Prop) (f : B -> string) (g : A -> string)
    (l1 : list A) (l2 : list B) :
  Forall2 R l1 l2 -> (forall a b, R a b -> f b = g a) -> map f l2 = map g l1.
Proof. intros H Hfg. induction H; simpl; [reflexivity|]. f_equal; eauto. Qed.

(** X7: when [normaliseRouters] accepts a configuration, it returns one
    definition per router, in entry order, a poll configuration for exactly
    those router ids, every router at least one interface, and every
    interface either a positive static bandwidth or a non-empty speed OID,
    with a positive speed scale exactly when it has a speed OID. *)
Theorem normaliseRouters_sound (entries : list (string * RawRouter.t))
    (pc : gmap string PollRouter.t) (defs : list RouterDefn.t) :
  normaliseRouters entries = PollLoop.Ok (pc, defs) ->
  map RouterDefn.id defs = map fst entries /\
  (forall k, is_Some (pc !! k) <-> In k (map fst entries)) /\
  Forall (fun d => RouterDefn.interfaces d <> [] /\
                   Forall ifaceDefnSound (RouterDefn.interfaces d)) defs.
Proof.
  unfold normaliseRouters. intros H.
  destruct (normaliseRoutersFrom_ok _ _ _ _ _ H) as [outs [Hf [Hd Hp]]].
  simpl in Hd. subst defs pc.
  split; [|split].
  - rewrite map_map. apply (Forall2_map_right _ _ _ _ _ Hf).
    intros e [p d] He. apply normaliseRouter_ok in He. apply He.
  - intros k. rewrite (fold_insert_is_some (fun eo => eo.1.1) (fun eo => eo.2.1)).
    rewrite lookup_empty.
    replace (map (fun eo => eo.1.1) (combine entries outs)) with (map fst entries).
    + split; [intros [[? Hc]|H']; [discriminate|exact H']|intros H'; right; exact H'].
    + rewrite <- (Forall2_map_fst_combine _ _ _ Hf) at 1. rewrite map_map. reflexivity.
  - apply List.Forall_map. apply (Forall2_right _ _ _ _ Hf).
    intros e [p d] He. cbn.
    assert (Hacc : exists v, normaliseRouter e.1 e.2 = PollLoop.Ok v) by eauto.
    apply normaliseRouter_accepts in Hacc as [_ [_ [ifs' [Ei' [Hne _]]]]].
    apply normaliseRouter_ok in He as [_ [_ [ifs [outs' [Ei [Hf' [_ Hdi]]]]]]].
    rewrite Ei in Ei'. injection Ei' as <-.
    rewrite Hdi. split.
    + destruct Hf'; [contradiction|discriminate].
    + apply List.Forall_map. apply (Forall2_right _ _ _ _ Hf').
      intros i [pi di] Hi. apply normaliseInterface_ok in Hi. apply Hi.
Qed.

(** X8: for a configuration with distinct router ids, the poll
    configuration [normaliseRouters] hands to the sampler and the
    definitions it hands to the renderers agree: the same label and, per
    interface, the same name, display name, bandwidth (0 for the poller
    where the definition has none), speed OID and speed scale. *)
Theorem normaliseRouters_poll_matches_definitions (entries : list (string * RawRouter.t))
    (pc : gmap string PollRouter.t) (defs : list RouterDefn.t) :
  normaliseRouters entries = PollLoop.Ok (pc, defs) ->
  NoDup (map fst entries) ->
  Forall (fun d => exists p, pc !! RouterDefn.id d = Some p /\
                             PollRouter.label p = RouterDefn.label d /\
                             Forall2 ifaceAgree (PollRouter.interfaces p) (RouterDefn.interfaces d)) defs.
Proof.
  unfold normaliseRouters. intros H Hnd.
  destruct (normaliseRoutersFrom_ok _ _ _ _ _ H) as [outs [Hf [Hd Hp]]].
  simpl in Hd. subst defs pc.
  apply List.Forall_forall. intros d Hd. apply in_map_iff in Hd as [[p d'] [<- Hin]].
  destruct (Forall2_combine_in _ _ _ _ Hf Hin) as [e [Hc He]].
  pose proof He as He'. apply normaliseRouter_ok in He' as [Hid [Hl [ifs [outs' [_ [Hf' [Hpi Hdi]]]]]]].
  exists p. cbn. split; [|split; [exact Hl|]].
  - rewrite Hid.
    apply (fold_insert_last (fun eo => eo.1.1) (fun eo => eo.2.1) _ _ (e, (p, d'))); [|exact Hc].
    rewrite <- (Forall2_map_fst_combine _ _ _ Hf) in Hnd. rewrite map_map in Hnd. exact Hnd.
  - rewrite Hpi, Hdi. apply (Forall2_pairs _ _ _ _ Hf').
    intros i [pi di] Hi. apply normaliseInterface_ok in Hi. apply Hi.
Qed.

(** X9: [normaliseRouters] accepts a configuration exactly when every
    router has a non-empty ip and community and a non-empty list of
    interfaces, each with a non-empty name, non-empty oid_in and oid_out,
    and a positive max_bandwidth or an oid_speed that is not blank. *)
Theorem normaliseRouters_accepts (entries : list (string * RawRouter.t)) :
  (exists v, normaliseRouters entries = PollLoop.Ok v) <->
  Forall (fun e => truthy (RawRouter.ip e.2) <> None /\ truthy (RawRouter.community e.2) <> None /\
                   exists ifaces, RawRouter.interfaces e.2 = Some ifaces /\ ifaces <> [] /\
                                  Forall rawIfaceValid ifaces) entries.
Proof.
  unfold normaliseRouters. rewrite normaliseRoutersFrom_accepts.
  split; apply List.Forall_impl; intros e; apply normaliseRouter_accepts.
Qed.

Lemma lookupEntry_in {A} (k : string) (l : list (string * A)) (v : A) :
  lookupEntry k l = Some v -> In (k, v) l.
Proof.
  induction l as [|[k' v'] r IH]; simpl; [discriminate|].
  destruct (String.eqb_spec k' k) as [<-|_]; [intros [= <-]; left; reflexivity|].
  intros H. right. apply IH, H.
Qed.

Lemma hasName_true (n : string) (i : RawIface.t) : hasName n i = true -> RawIface.name i = Some n.
Proof.
  unfold hasName. destruct (RawIface.name i) as [m|]; [|discriminate].
  intros H. apply String.eqb_eq in H. subst. reflexivity.
Qed.

Lemma checkLink_ok (routers : list (string * RawRouter.t)) (link d : LinkDefn.t) :
  checkLink routers link = PollLoop.Ok d ->
  d = link /\ references routers (LinkDefn.from link) (LinkDefn.ifaceFrom link) /\
  references routers (LinkDefn.to link) (LinkDefn.ifaceTo link).
Proof.
  unfold checkLink. intros H.
  destruct (lookupEntry (LinkDefn.from link) routers) as [fr|] eqn:Ef; [|discriminate].
  destruct (lookupEntry (LinkDefn.to link) routers) as [tr|] eqn:Et; [|discriminate].
  destruct (RawRouter.interfaces fr) as [fis|] eqn:Efi; [|discriminate].
  destruct (RawRouter.interfaces tr) as [tis|] eqn:Eti; [|discriminate].
  destruct (find (hasName (LinkDefn.ifaceFrom link)) fis) as [fi|] eqn:Ff; [|discriminate].
  destruct (find (hasName (LinkDefn.ifaceTo link)) tis) as [ti|] eqn:Ft; [|discriminate].
  injection H as <-. split; [reflexivity|].
  apply find_some in Ff as [Hfi Hnf]. apply find_some in Ft as [Hti Hnt].
  split; [exists fr, fis, fi|exists tr, tis, ti]; repeat split; try assumption; apply hasName_true; assumption.
Qed.

Lemma normalizePath_ok (path : option (list (option RawPos.t))) (r : option (list Pt.t)) :
  normalizePath path = PollLoop.Ok r -> (r = None <-> path = None \/ path = Some []).
Proof.
  unfold normalizePath. destruct path as [[|p ps]|]; intros H.
  - injection H as <-. tauto.
  - destruct (mapiR normalizePoint 0 (p :: ps)); [|discriminate].
    injection H as <-. split; [discriminate|intros [E|E]; discriminate].
  - injection H as <-. tauto.
Qed.

Lemma prepareLink_ok (index : nat) (l : RawLink.t) (d : LinkDefn.t) :
  prepareLink index l = PollLoop.Ok d ->
  LinkDefn.id d = linkId index l /\ LinkDefn.from d = RawLink.from l /\ LinkDefn.to d = RawLink.to l /\
  LinkDefn.ifaceFrom d = RawLink.iface_from l /\ LinkDefn.ifaceTo d = RawLink.iface_to l /\
  LinkDefn.label d = RawLink.label l /\
  (LinkDefn.path d = None <-> RawLink.path l = None \/ RawLink.path l = Some []).
Proof.
  unfold prepareLink. destruct (normalizePath (RawLink.path l)) as [p|e] eqn:Ep; [|discriminate].
  intros H. injection H as <-. apply normalizePath_ok in Ep. cbn. repeat split; try reflexivity; apply Ep.
Qed.

Lemma normaliseLinks_ok (links : option (list RawLink.t)) (routers : list (string * RawRouter.t))
    (defs : list LinkDefn.t) :
  normaliseLinks links routers = PollLoop.Ok defs ->
  exists prepared, mapiR prepareLink 0 (match links with Some ls => ls | None => [] end) = PollLoop.Ok prepared /\
    defs = prepared /\
    Forall (fun d => references routers (LinkDefn.from d) (LinkDefn.ifaceFrom d) /\
                     references routers (LinkDefn.to d) (LinkDefn.ifaceTo d)) defs.
Proof.
  unfold normaliseLinks. destruct links as [ls|].
  - destruct (mapiR prepareLink 0 ls) as [prepared|e] eqn:Ep; [|discriminate].
    intros H. apply mapR_ok in H. exists prepared. split; [reflexivity|].
    assert (Heq : defs = prepared).
    { clear Ep. induction H as [|a b r r' Hab _ IH]; [reflexivity|].
      apply checkLink_ok in Hab as [-> _]. congruence. }
    split; [exact Heq|]. subst prepared.
    apply (Forall2_right _ _ _ _ H). intros a b Hab.
    pose proof Hab as Hab'. apply checkLink_ok in Hab' as [-> [Hf Ht]]. split; assumption.
  - intros [= <-]. exists []. split; [reflexivity|]. split; [reflexivity|constructor].
Qed.

(** X10: when [normaliseLinks] accepts the links, it returns one
    definition per raw link, in order, with the raw ends and label, the
    configured id or [from-to-index] otherwise, no path exactly when the
    raw path is missing or empty, and both ends naming a router of the raw
    record that has an interface of the given name. *)
Theorem normaliseLinks_sound (links : option (list RawLink.t)) (routers : list (string * RawRouter.t))
    (defs : list LinkDefn.t) :
  normaliseLinks links routers = PollLoop.Ok defs ->
  let ls := match links with Some ls => ls | None => [] end in
  length defs = length ls /\
  (forall n l d, ls !! n = Some l -> defs !! n = Some d ->
     LinkDefn.id d = linkId n l /\ LinkDefn.from d = RawLink.from l /\ LinkDefn.to d = RawLink.to l /\
     LinkDefn.ifaceFrom d = RawLink.iface_from l /\ LinkDefn.ifaceTo d = RawLink.iface_to l /\
     LinkDefn.label d = RawLink.label l /\
     (LinkDefn.path d = None <-> RawLink.path l = None \/ RawLink.path l = Some [])) /\
  Forall (fun d => references routers (LinkDefn.from d) (LinkDefn.ifaceFrom d) /\
                   references routers (LinkDefn.to d) (LinkDefn.ifaceTo d)) defs.
Proof.
  intros H ls. destruct (normaliseLinks_ok _ _ _ H) as [prepared [Hp [-> Hrefs]]].
  apply mapiR_ok in Hp as [Hlen Hn].
  split; [exact Hlen|]. split; [|exact Hrefs].
  intros n l d Hl Hd. apply prepareLink_ok. apply (Hn n l d Hl Hd).
Qed.

Lemma normaliseRouters_sound_witness :
  normaliseRouters ConfigScenarios.sampleRouters =
    PollLoop.Ok (ConfigScenarios.samplePoll, ConfigScenarios.sampleDefs) /\
  map RouterDefn.id ConfigScenarios.sampleDefs = ["core"; "edge"].
Proof.
  assert (E : normaliseRouters ConfigScenarios.sampleRouters =
                PollLoop.Ok (ConfigScenarios.samplePoll, ConfigScenarios.sampleDefs))
    by (vm_compute; reflexivity).
  split; [exact E|]. rewrite (proj1 (normaliseRouters_sound _ _ _ E)). reflexivity.
Defined.

Lemma normaliseRouters_poll_matches_definitions_witness :
  normaliseRouters ConfigScenarios.sampleRouters =
    PollLoop.Ok (ConfigScenarios.samplePoll, ConfigScenarios.sampleDefs) /\
  NoDup (map fst ConfigScenarios.sampleRouters) /\
  Forall (fun d => exists p, ConfigScenarios.samplePoll !! RouterDefn.id d = Some p /\
                             PollRouter.label p = RouterDefn.label d /\
                             Forall2 ifaceAgree (PollRouter.interfaces p) (RouterDefn.interfaces d))
    ConfigScenarios.sampleDefs.
Proof.
  assert (E : normaliseRouters ConfigScenarios.sampleRouters =
                PollLoop.Ok (ConfigScenarios.samplePoll, ConfigScenarios.sampleDefs))
    by (vm_compute; reflexivity).
  assert (N : NoDup (map fst ConfigScenarios.sampleRouters)) by nodup_literals.
  split; [exact E|]. split; [exact N|].
  apply (normaliseRouters_poll_matches_definitions _ _ _ E N).
Defined.

Lemma normaliseLinks_sound_witness :
  normaliseLinks ConfigScenarios.sampleLinks ConfigScenarios.sampleRouters =
    PollLoop.Ok ConfigScenarios.sampleLinkDefs /\
  length ConfigScenarios.sampleLinkDefs = 1%nat.
Proof.
  assert (E : normaliseLinks ConfigScenarios.sampleLinks ConfigScenarios.sampleRouters =
                PollLoop.Ok ConfigScenarios.sampleLinkDefs) by (vm_compute; reflexivity).
  split; [exact E|]. destruct (normaliseLinks_sound _ _ _ E) as [L _]. exact L.
Defined.

End ConfigFacts.

(* ------------------------------------------------------------------ *)
(** ** Published metrics *)

Module MetricsFacts.
Import Sampler Config Metrics ConfigSpec MetricsSpec ConfigFacts.
Local Open Scope Q_scope.

Lemma fold_insert_value {X V} (key : X -> string) (val : X -> V) (l : list X)
    (m0 : gmap string V) (k : string) (v : V) :
  fold_left (fun m x => <[key x := val x]> m) l m0 !! k = Some v ->
  m0 !! k = Some v \/ exists x, In x l /\ key x = k /\ val x = v.
Proof.
  revert m0. induction l as [|x r IH]; simpl; intros m0 H; [left; exact H|].
  destruct (IH _ H) as [H'|[y [Hy Hk]]]; [|right; exists y; tauto].
  destruct (String.eqb_spec (key x) k) as [<-|Hne].
  - rewrite lookup_insert_eq in H'. injection H' as <-. right. exists x. tauto.
  - rewrite lookup_insert_ne in H' by exact Hne. left. exact H'.
Qed.

Lemma fold_left_ext_acc {A B} (f g : A -> B -> A) (l : list B) (a : A) :
  (forall acc x, f acc x = g acc x) -> fold_left f l a = fold_left g l a.
Proof. intros H. revert a. induction l as [|x r IH]; simpl; intros a; [reflexivity|]. rewrite H. apply IH. Qed.

Lemma routerMetrics_fields (snap : gmap string Snap.t) (d : RouterDefn.t) :
  let rm := routerMetrics snap d in
  RM.id rm = RouterDefn.id d /\ RM.label rm = RouterDefn.label d /\
  RM.interfaces rm = fold_left (fun acc i => <[IfaceDefn.name i := ifaceEntry (snap !! RouterDefn.id d) i]> acc)
                       (RouterDefn.interfaces d) ∅ /\
  RM.status rm = match snap !! RouterDefn.id d with Some s => Snap.status s | None => error end /\
  RM.error rm = match snap !! RouterDefn.id d with
                | Some s => truthy (Snap.error s) | None => Some "No SNMP data" end.
Proof.
  unfold routerMetrics. destruct (snap !! RouterDefn.id d) as [sample|]; cbn.
  - repeat split. apply fold_left_ext_acc. intros acc x. unfold ifaceEntry.
    destruct (Snap.interfaces sample !! IfaceDefn.name x); reflexivity.
  - repeat split.
Qed.

Lemma toRouterMetrics_lookup (snap : gmap string Snap.t) (defs : list RouterDefn.t) (k : string) (rm : RM.t) :
  toRouterMetrics snap defs !! k = Some rm ->
  exists d, In d defs /\ RouterDefn.id d = k /\ rm = routerMetrics snap d.
Proof.
  unfold toRouterMetrics. intros H.
  destruct (fold_insert_value RouterDefn.id (routerMetrics snap) _ _ _ _ H) as [H'|[d [Hd [Hk Hv]]]].
  - rewrite lookup_empty in H'. discriminate.
  - exists d. auto.
Qed.

Lemma toRouterMetrics_keys (snap : gmap string Snap.t) (defs : list RouterDefn.t) (k : string) :
  is_Some (toRouterMetrics snap defs !! k) <-> In k (map RouterDefn.id defs).
Proof.
  unfold toRouterMetrics. rewrite (fold_insert_is_some RouterDefn.id (routerMetrics snap)).
  rewrite lookup_empty. split; [intros [[? H]|H]; [discriminate|exact H]|intros H; right; exact H].
Qed.

Lemma routerMetrics_iface_keys (snap : gmap string Snap.t) (d : RouterDefn.t) (n : string) :
  is_Some (RM.interfaces (routerMetrics snap d) !! n) <-> In n (map IfaceDefn.name (RouterDefn.interfaces d)).
Proof.
  destruct (routerMetrics_fields snap d) as [_ [_ [-> _]]].
  rewrite (fold_insert_is_some IfaceDefn.name _). rewrite lookup_empty.
  split; [intros [[? H]|H]; [discriminate|exact H]|intros H; right; exact H].
Qed.

(** X11: [toRouterMetrics] has exactly one entry per configured router;
    for routers with distinct ids that entry carries the router's id and
    label and has exactly the router's configured interface names as keys,
    whatever the snapshot holds. *)
Theorem toRouterMetrics_shape (snap : gmap string Snap.t) (defs : list RouterDefn.t) :
  NoDup (map RouterDefn.id defs) ->
  (forall k, is_Some (toRouterMetrics snap defs !! k) <-> In k (map RouterDefn.id defs)) /\
  Forall (fun d => exists rm, toRouterMetrics snap defs !! RouterDefn.id d = Some rm /\
                              RM.id rm = RouterDefn.id d /\ RM.label rm = RouterDefn.label d /\
                              forall n, is_Some (RM.interfaces rm !! n) <->
                                        In n (map IfaceDefn.name (RouterDefn.interfaces d))) defs.
Proof.
  intros Hnd. split; [apply toRouterMetrics_keys|].
  apply List.Forall_forall. intros d Hd. exists (routerMetrics snap d). split.
  - unfold toRouterMetrics. apply (fold_insert_last RouterDefn.id (routerMetrics snap)); assumption.
  - destruct (routerMetrics_fields snap d) as [Hi [Hl _]].
    split; [exact Hi|split; [exact Hl|]]. apply routerMetrics_iface_keys.
Qed.

(** X12: the fallbacks of [toRouterMetrics]. A router with no sample in
    the snapshot is published with status error and error "No SNMP data",
    and each of its interfaces with status error, no traffic, not fresh and
    the same error. A router with a sample keeps the sample's status and
    its error if that is not empty; each configured interface missing from
    the sample gets status error, no traffic, not fresh and error
    "Interface missing from SNMP poll", and each other interface the
    sample's own metrics. *)
Theorem toRouterMetrics_fallbacks (snap : gmap string Snap.t) (defs : list RouterDefn.t)
    (k : string) (rm : RM.t) :
  toRouterMetrics snap defs !! k = Some rm ->
  exists d, In d defs /\ RouterDefn.id d = k /\
  (snap !! k = None ->
     RM.status rm = error /\ RM.error rm = Some "No SNMP data" /\
     forall n im, RM.interfaces rm !! n = Some im ->
       IM.status im = error /\ IM.inBps im = 0 /\ IM.outBps im = 0 /\ IM.fresh im = false /\
       IM.error im = Some "No SNMP data") /\
  (forall sample, snap !! k = Some sample ->
     RM.status rm = Snap.status sample /\ RM.error rm = truthy (Snap.error sample) /\
     forall n, In n (map IfaceDefn.name (RouterDefn.interfaces d)) ->
       match Snap.interfaces sample !! n with
       | Some s => RM.interfaces rm !! n = Some (toInterfaceMetrics s)
       | None => exists im, RM.interfaces rm !! n = Some im /\
                   IM.status im = error /\ IM.inBps im = 0 /\ IM.outBps im = 0 /\
                   IM.fresh im = false /\ IM.error im = Some "Interface missing from SNMP poll"
       end).
Proof.
  intros H. destruct (toRouterMetrics_lookup _ _ _ _ H) as [d [Hd [Hk ->]]].
  exists d. split; [exact Hd|]. split; [exact Hk|]. subst k.
  destruct (routerMetrics_fields snap d) as [_ [_ [Hifs [Hst Her]]]].
  split.
  - intros Hnone. rewrite Hnone in Hst, Her, Hifs. split; [exact Hst|]. split; [exact Her|].
    intros n im Him. rewrite Hifs in Him.
    destruct (fold_insert_value IfaceDefn.name _ _ _ _ _ Him) as [E|[i [_ [_ <-]]]].
    + rewrite lookup_empty in E. discriminate.
    + cbn. repeat split.
  - intros sample Hs. rewrite Hs in Hst, Her, Hifs. split; [exact Hst|]. split; [exact Her|].
    intros n Hn. rewrite Hifs.
    destruct (Snap.interfaces sample !! n) as [x|] eqn:Ex.
    + destruct (fold_insert_is_some IfaceDefn.name (ifaceEntry (Some sample)) (RouterDefn.interfaces d) ∅ n)
        as [_ Hsome].
      destruct Hsome as [v Hv]; [right; exact Hn|].
      rewrite Hv. destruct (fold_insert_value IfaceDefn.name _ _ _ _ _ Hv) as [E|[y [_ [Hy <-]]]].
      * rewrite lookup_empty in E. discriminate.
      * unfold ifaceEntry. rewrite Hy, Ex. reflexivity.
    + destruct (fold_insert_is_some IfaceDefn.name (ifaceEntry (Some sample)) (RouterDefn.interfaces d) ∅ n)
        as [_ Hsome].
      destruct Hsome as [v Hv]; [right; exact Hn|].
      exists v. split; [exact Hv|].
      destruct (fold_insert_value IfaceDefn.name _ _ _ _ _ Hv) as [E|[y [_ [Hy <-]]]].
      * rewrite lookup_empty in E. discriminate.
      * unfold ifaceEntry. rewrite Hy, Ex. cbn. repeat split.
Qed.

Lemma Qmax_cases (x y : Q) : Qmax x y = x \/ Qmax x y = y.
Proof. unfold Qmax, GenericMinMax.gmax. destruct (x ?= y); auto. Qed.

Lemma Qmax_ub (x y : Q) : x <= Qmax x y /\ y <= Qmax x y.
Proof. split; [apply Q.le_max_l|apply Q.le_max_r]. Qed.

Lemma Forall2_map_self {A B} (P : A -> B -> Prop) (f : A -> B) (l : list A) :
  (forall x, P x (f x)) -> Forall2 P l (map f l).
Proof. intros H. induction l; simpl; constructor; auto. Qed.

(** X13: [toLinkMetrics] gives each link, in order, its own id, ends and
    label, the metrics of the [from] interface on the [from] router as
    [forward] and of the [to] interface on the [to] router as [reverse]. Its
    aggregate utilisation is absent exactly when both ends are; otherwise it
    bounds the in and out utilisation of every end present and is one of
    them, or 0 when an end is missing. *)
Theorem toLinkMetrics_aggregate (routers : gmap string RM.t) (links : list LinkDefn.t) :
  Forall2 (fun l lm =>
    LM.id lm = LinkDefn.id l /\ LM.from lm = LinkDefn.from l /\ LM.to lm = LinkDefn.to l /\
    LM.label lm = LinkDefn.label l /\
    LM.forward lm = match routers !! LinkDefn.from l with
                    | Some r => RM.interfaces r !! LinkDefn.ifaceFrom l | None => None end /\
    LM.reverse lm = match routers !! LinkDefn.to l with
                    | Some r => RM.interfaces r !! LinkDefn.ifaceTo l | None => None end /\
    (LM.aggregateUtilization lm = None <-> LM.forward lm = None /\ LM.reverse lm = None) /\
    forall a, LM.aggregateUtilization lm = Some a ->
      (forall i, LM.forward lm = Some i \/ LM.reverse lm = Some i ->
                 IM.inUtilization i <= a /\ IM.outUtilization i <= a) /\
      ((a = 0 /\ (LM.forward lm = None \/ LM.reverse lm = None)) \/
       exists i, (LM.forward lm = Some i \/ LM.reverse lm = Some i) /\
                 (a = IM.inUtilization i \/ a = IM.outUtilization i)))
    links (toLinkMetrics routers links).
Proof.
  unfold toLinkMetrics. apply Forall2_map_self. intros l. unfold linkMetrics. cbn.
  set (fw := match routers !! LinkDefn.from l with
             | Some r => RM.interfaces r !! LinkDefn.ifaceFrom l | None => None end).
  set (rv := match routers !! LinkDefn.to l with
             | Some r => RM.interfaces r !! LinkDefn.ifaceTo l | None => None end).
  do 6 (split; [reflexivity|]).
  destruct fw as [i|], rv as [j|]; cbn.
  - split; [split; [intros E; discriminate E|intros [E1 E2]; congruence]|].
    intros a [= <-].
    destruct (Qmax_ub (IM.inUtilization i) (IM.outUtilization i)) as [Hi1 Hi2].
    destruct (Qmax_ub (IM.inUtilization j) (IM.outUtilization j)) as [Hj1 Hj2].
    destruct (Qmax_ub (Qmax (IM.inUtilization i) (IM.outUtilization i))
                      (Qmax (IM.inUtilization j) (IM.outUtilization j))) as [H1 H2].
    split.
    + intros k [[= <-]|[= <-]]; split; eapply Qle_trans; eassumption.
    + right. destruct (Qmax_cases (Qmax (IM.inUtilization i) (IM.outUtilization i))
                                  (Qmax (IM.inUtilization j) (IM.outUtilization j))) as [E|E];
        rewrite E.
      * exists i. split; [left; reflexivity|]. apply Qmax_cases.
      * exists j. split; [right; reflexivity|]. apply Qmax_cases.
  - split; [split; [intros E; discriminate E|intros [E1 E2]; congruence]|].
    intros a [= <-].
    destruct (Qmax_ub (IM.inUtilization i) (IM.outUtilization i)) as [Hi1 Hi2].
    destruct (Qmax_ub (Qmax (IM.inUtilization i) (IM.outUtilization i)) 0) as [H1 H2].
    split.
    + intros k [[= <-]|E]; [|discriminate]. split; eapply Qle_trans; eassumption.
    + destruct (Qmax_cases (Qmax (IM.inUtilization i) (IM.outUtilization i)) 0) as [E|E]; rewrite E.
      * right. exists i. split; [left; reflexivity|]. apply Qmax_cases.
      * left. split; [reflexivity|right; reflexivity].
  - split; [split; [intros E; discriminate E|intros [E1 E2]; congruence]|].
    intros a [= <-].
    destruct (Qmax_ub (IM.inUtilization j) (IM.outUtilization j)) as [Hj1 Hj2].
    destruct (Qmax_ub 0 (Qmax (IM.inUtilization j) (IM.outUtilization j))) as [H1 H2].
    split.
    + intros k [E|[= <-]]; [discriminate|]. split; eapply Qle_trans; eassumption.
    + destruct (Qmax_cases 0 (Qmax (IM.inUtilization j) (IM.outUtilization j))) as [E|E]; rewrite E.
      * left. split; [reflexivity|left; reflexivity].
      * right. exists j. split; [right; reflexivity|]. apply Qmax_cases.
  - split; [split; [intros _; split; reflexivity|reflexivity]|]. intros a [=].
Qed.

Lemma Forall2_in_left {A B} (R : A -> B -> Prop) (l1 : list A) (l2 : list B) (x : A) :
  Forall2 R l1 l2 -> In x l1 -> exists y, In y l2 /\ R x y.
Proof.
  induction 1 as [|a b r1 r2 Hab _ IH]; simpl; [tauto|].
  intros [<-|Hin]; [exists b; tauto|]. destruct (IH Hin) as [y [Hy Ry]]. exists y. tauto.
Qed.

Lemma references_published (snap : gmap string Snap.t) (routers : list (string * RawRouter.t)) outs
    (rid iname : string) :
  Forall2 (fun e o => normaliseRouter e.1 e.2 = PollLoop.Ok o) routers outs ->
  NoDup (map fst routers) ->
  references routers rid iname ->
  exists rm, toRouterMetrics snap (map snd outs) !! rid = Some rm /\ is_Some (RM.interfaces rm !! iname).
Proof.
  intros Hf Hnd [r [ifs [i [Hl [Hifs [Hi Hn]]]]]].
  apply lookupEntry_in in Hl.
  destruct (Forall2_in_left _ _ _ _ Hf Hl) as [[p d] [Hpd Hnr]]. cbn in Hnr.
  apply normaliseRouter_ok in Hnr as [Hid [_ [ifs' [outs' [Hifs' [Hf' [_ Hdi]]]]]]].
  rewrite Hifs in Hifs'. injection Hifs' as <-.
  destruct (Forall2_in_left _ _ _ _ Hf' Hi) as [[pi di] [Ho Hni]].
  apply normaliseInterface_ok in Hni as [_ [_ Htn]].
  rewrite Hn in Htn. apply truthy_some in Htn as [[= Hname] _].
  assert (HndD : NoDup (map RouterDefn.id (map snd outs))).
  { replace (map RouterDefn.id (map snd outs)) with (map fst routers); [exact Hnd|].
    rewrite map_map. symmetry. apply (Forall2_map_right _ _ _ _ _ Hf).
    intros e [p' d'] He. apply normaliseRouter_ok in He. apply He. }
  exists (routerMetrics snap d). split.
  - rewrite <- Hid. unfold toRouterMetrics.
    apply (fold_insert_last RouterDefn.id (routerMetrics snap)); [exact HndD|].
    apply (in_map snd outs (p, d)), Hpd.
  - apply routerMetrics_iface_keys. rewrite Hdi, map_map. rewrite Hname.
    apply (in_map (fun o => IfaceDefn.name o.2) outs' (pi, di)), Ho.
Qed.

(** X14: for a configuration that [normaliseConfig] accepts (the part of
    [loadRuntimeConfig] that normalises routers, then links) with distinct
    router ids, every link published by [toLinkMetrics] after
    [toRouterMetrics] has metrics at both ends and an aggregate
    utilisation, whatever the snapshot holds: a missing router or interface
    sample shows up as an error placeholder, never as a missing end. *)
Theorem loaded_config_links_have_both_ends (routers : list (string * RawRouter.t))
    (links : option (list RawLink.t)) pc defs ls :
  normaliseConfig routers links = PollLoop.Ok (pc, defs, ls) ->
  NoDup (map fst routers) ->
  forall snap : gmap string Snap.t,
  Forall (fun lm => LM.forward lm <> None /\ LM.reverse lm <> None /\ LM.aggregateUtilization lm <> None)
    (toLinkMetrics (toRouterMetrics snap defs) ls).
Proof.
  unfold normaliseConfig. intros H Hnd snap.
  destruct (normaliseRouters routers) as [[pc0 defs0]|e] eqn:Er; [|discriminate].
  destruct (normaliseLinks links routers) as [ls0|e] eqn:El; [|discriminate].
  injection H as <- <- <-.
  unfold normaliseRouters in Er.
  destruct (normaliseRoutersFrom_ok _ _ _ _ _ Er) as [outs [Hf [Hd _]]]. simpl in Hd. subst defs0.
  destruct (normaliseLinks_ok _ _ _ El) as [prepared [_ [_ Hrefs]]].
  unfold toLinkMetrics. apply List.Forall_map. revert Hrefs. apply List.Forall_impl.
  intros l [Hfrom Hto].
  destruct (references_published snap _ _ _ _ Hf Hnd Hfrom) as [rf [Ef [fi Efi]]].
  destruct (references_published snap _ _ _ _ Hf Hnd Hto) as [rt [Et [ti Eti]]].
  unfold linkMetrics. cbn. rewrite Ef, Et, Efi, Eti. cbn.
  split; [discriminate|split; discriminate].
Qed.

Lemma toRouterMetrics_shape_witness :
  NoDup (map RouterDefn.id ConfigScenarios.sampleDefs) /\
  is_Some (toRouterMetrics (∅ : gmap string Snap.t) ConfigScenarios.sampleDefs !! "edge").
Proof.
  assert (N : NoDup (map RouterDefn.id ConfigScenarios.sampleDefs)) by (vm_compute; nodup_literals).
  split; [exact N|].
  apply (proj1 (toRouterMetrics_shape ∅ _ N) "edge"). vm_compute. right; left; reflexivity.
Defined.

Lemma toRouterMetrics_fallbacks_witness :
  toRouterMetrics (∅ : gmap string Snap.t) ConfigScenarios.sampleDefs !! "core" =
    Some ConfigScenarios.coreMetrics /\
  RM.status ConfigScenarios.coreMetrics = error /\
  RM.error ConfigScenarios.coreMetrics = Some "No SNMP data".
Proof.
  assert (E : toRouterMetrics (∅ : gmap string Snap.t) ConfigScenarios.sampleDefs !! "core" =
                Some ConfigScenarios.coreMetrics) by (vm_compute; reflexivity).
  split; [exact E|].
  destruct (toRouterMetrics_fallbacks _ _ _ _ E) as (d & _ & _ & Hnone & _).
  destruct (Hnone (lookup_empty _)) as (Hs & He & _). split; assumption.
Defined.

Lemma loaded_config_links_have_both_ends_witness :
  normaliseConfig ConfigScenarios.sampleRouters ConfigScenarios.sampleLinks =
    PollLoop.Ok (ConfigScenarios.samplePoll, ConfigScenarios.sampleDefs,
                 ConfigScenarios.sampleLinkDefs) /\
  NoDup (map fst ConfigScenarios.sampleRouters) /\
  Forall (fun lm => LM.forward lm <> None /\ LM.reverse lm <> None /\
                    LM.aggregateUtilization lm <> None)
    (toLinkMetrics (toRouterMetrics ∅ ConfigScenarios.sampleDefs) ConfigScenarios.sampleLinkDefs).
Proof.
  assert (E : normaliseConfig ConfigScenarios.sampleRouters ConfigScenarios.sampleLinks =
                PollLoop.Ok (ConfigScenarios.samplePoll, ConfigScenarios.sampleDefs,
                             ConfigScenarios.sampleLinkDefs)) by (vm_compute; reflexivity).
  assert (N : NoDup (map fst ConfigScenarios.sampleRouters)) by nodup_literals.
  split; [exact E|]. split; [exact N|].
  apply (loaded_config_links_have_both_ends _ _ _ _ _ E N).
Defined.

End MetricsFacts.

(* ------------------------------------------------------------------ *)
(** ** Link paths (map-renderer.ts, computeLinkPaths) *)

Module PathsFacts.
Import Geometry Paths PathsSpec.

Lemma autoPath_shape (f t : Position) (n i : nat) :
  computeAutoPath f t n i = [f; t] \/ exists c, computeAutoPath f t n i = [f; c; t].
Proof.
  unfold computeAutoPath; cbv zeta.
  match goal with |- (if ?b then _ else _) = _ \/ _ => destruct b end;
    [left | right; eexists]; reflexivity.
Qed.

Lemma autoPath_lone_group (f t : Position) (i : nat) : computeAutoPath f t 1 i = [f; t].
Proof. reflexivity. Qed.

Lemma NoDup_map_eq {A B} (f : A -> B) (l : list A) x y :
  NoDup (map f l) -> In x l -> In y l -> f x = f y -> x = y.
Proof.
  induction l as [|a r IH]; simpl; [tauto|].
  intros HN Hx Hy E. inversion HN as [|? ? Ha HN']; subst.
  destruct Hx as [<-|Hx], Hy as [<-|Hy]; auto.
  - exfalso; apply Ha, list_elem_of_In; rewrite E; apply in_map; exact Hy.
  - exfalso; apply Ha, list_elem_of_In; rewrite <- E; apply in_map; exact Hx.
Qed.

Lemma insert_is_Some {V} (m : gmap string V) i x k :
  is_Some (m !! k) -> is_Some (<[i := x]> m !! k).
Proof.
  intros H; destruct (decide (i = k)) as [<-|Hne].
  - rewrite lookup_insert_eq; eauto.
  - rewrite lookup_insert_ne by exact Hne; exact H.
Qed.

Lemma filter_nil_all {A} (p : A -> bool) (l : list A) :
  (forall x, In x l -> p x = false) -> List.filter p l = [].
Proof.
  induction l as [|a r IH]; simpl; intros H; [reflexivity|].
  rewrite (H a (or_introl eq_refl)); apply IH; auto.
Qed.

Lemma filter_lone (p : LinkP.t -> bool) (ls : list LinkP.t) (link : LinkP.t) :
  NoDup (map LinkP.id ls) -> In link ls -> p link = true ->
  (forall x, In x ls -> p x = true -> x = link) -> List.filter p ls = [link].
Proof.
  induction ls as [|a r IH]; simpl; [tauto|].
  intros HN Hin Hp Honly. inversion HN as [|? ? Ha HN']; subst.
  destruct (p a) eqn:Ea.
  - assert (a = link) as -> by (apply Honly; auto).
    f_equal. apply filter_nil_all. intros x Hx.
    destruct (p x) eqn:Ex; [|reflexivity].
    exfalso; apply Ha, list_elem_of_In. rewrite <- (Honly x (or_intror Hx) Ex).
    apply in_map; exact Hx.
  - destruct Hin as [<-|Hin]; [congruence|].
    apply IH; auto.
Qed.

(** *** The manual paths *)

Lemma addManualPath_lookup RM (m : gmap string (list Position)) l k v :
  addManualPath RM m l !! k = Some v -> m !! k = Some v \/ (LinkP.id l = k /\ manualPathOf RM l v).
Proof.
  unfold addManualPath.
  destruct (LinkP.path l) as [[|p ps]|] eqn:Ep; auto.
  destruct (RM !! LinkP.from l) as [f|] eqn:Ef, (RM !! LinkP.to l) as [t|] eqn:Et; auto.
  destruct (decide (LinkP.id l = k)) as [<-|Hne].
  - rewrite lookup_insert_eq; intros [= <-]; right; split; [reflexivity|].
    exists f, t, (p :: ps); repeat split; [exact Ef | exact Et | exact Ep | discriminate].
  - rewrite lookup_insert_ne by exact Hne; auto.
Qed.

Lemma addManualPath_other RM (m : gmap string (list Position)) l k :
  LinkP.id l <> k -> addManualPath RM m l !! k = m !! k.
Proof.
  intros Hne; unfold addManualPath.
  destruct (LinkP.path l) as [[|p ps]|]; auto.
  destruct (RM !! LinkP.from l), (RM !! LinkP.to l); auto.
  apply lookup_insert_ne; exact Hne.
Qed.

Lemma addManualPath_at RM (m : gmap string (list Position)) l v :
  manualPathOf RM l v -> addManualPath RM m l !! LinkP.id l = Some v.
Proof.
  intros (f & t & pts & Ef & Et & Ep & Hne & ->); unfold addManualPath; rewrite Ep.
  destruct pts as [|p ps]; [congruence|]. rewrite Ef, Et. apply lookup_insert_eq.
Qed.

Lemma manual_lookup_gen RM ls (m : gmap string (list Position)) k v :
  fold_left (addManualPath RM) ls m !! k = Some v ->
  m !! k = Some v \/ exists l, In l ls /\ LinkP.id l = k /\ manualPathOf RM l v.
Proof.
  revert m; induction ls as [|a r IH]; simpl; intros m H; [auto|].
  destruct (IH _ H) as [H1|(l & Hl & Hid & Hm)].
  - destruct (addManualPath_lookup _ _ _ _ _ H1) as [H2|[Hid Hm]]; [auto|].
    right; exists a; auto.
  - right; exists l; auto.
Qed.

Lemma manual_lookup RM ls k v :
  fold_left (addManualPath RM) ls ∅ !! k = Some v ->
  exists l, In l ls /\ LinkP.id l = k /\ manualPathOf RM l v.
Proof.
  intros H; destruct (manual_lookup_gen _ _ _ _ _ H) as [H1|H1]; [|exact H1].
  rewrite lookup_empty in H1; discriminate.
Qed.

Lemma manual_fold_notin RM ls (m : gmap string (list Position)) k :
  (forall l, In l ls -> LinkP.id l <> k) -> fold_left (addManualPath RM) ls m !! k = m !! k.
Proof.
  revert m; induction ls as [|a r IH]; simpl; intros m H; [reflexivity|].
  rewrite IH by auto. apply addManualPath_other; auto.
Qed.

Lemma manual_kept RM ls l v :
  NoDup (map LinkP.id ls) -> In l ls -> manualPathOf RM l v ->
  fold_left (addManualPath RM) ls ∅ !! LinkP.id l = Some v.
Proof.
  intros HN Hin Hm. apply in_split in Hin as (l1 & l2 & ->).
  rewrite fold_left_app; simpl.
  rewrite manual_fold_notin.
  - apply addManualPath_at; exact Hm.
  - intros x Hx E. rewrite map_app in HN; simpl in HN.
    apply NoDup_app in HN as (_ & _ & HN). apply NoDup_cons in HN as [HN _].
    apply HN, list_elem_of_In. rewrite <- E. apply in_map; exact Hx.
Qed.

Lemma manual_pathOf RM l v : manualPathOf RM l v -> pathOfLink RM l v.
Proof.
  intros Hm. destruct Hm as (f & t & pts & Ef & Et & Hrest).
  exists f, t; split; [exact Ef|]; split; [exact Et|].
  left; exists f, t, pts; auto.
Qed.

(** *** The last [forEach]: [paths] keeps its entries, [manualPaths] fills the gaps *)

Lemma merge_lookup (P M : gmap string (list Position)) k :
  map_fold (fun id points acc =>
              match acc !! id with Some _ => acc | None => <[id := points]> acc end) P M !! k
  = match P !! k with Some v => Some v | None => M !! k end.
Proof.
  revert k.
  apply (map_fold_weak_ind
           (fun r m => forall k, r !! k = match P !! k with Some v => Some v | None => m !! k end)).
  - intros k; rewrite lookup_empty; destruct (P !! k); reflexivity.
  - intros i x m r Hi IH k; cbv beta.
    destruct (r !! i) as [w|] eqn:Er.
    + rewrite IH. destruct (decide (k = i)) as [->|Hne].
      * rewrite lookup_insert_eq. rewrite IH, Hi in Er.
        destruct (P !! i); [reflexivity|discriminate].
      * rewrite lookup_insert_ne by congruence. reflexivity.
    + destruct (decide (k = i)) as [->|Hne].
      * rewrite !lookup_insert_eq. rewrite IH, Hi in Er.
        destruct (P !! i); [discriminate|reflexivity].
      * rewrite !lookup_insert_ne by congruence. apply IH.
Qed.

(** *** Sorting a group keeps its members *)

Lemma insertSorted_in cmp x l y : In y (insertSorted cmp x l) <-> x = y \/ In y l.
Proof.
  induction l as [|a r IH]; simpl; [tauto|].
  destruct (Z.ltb 0 (cmp (LinkP.id a) (LinkP.id x))); simpl; [tauto|].
  rewrite IH; tauto.
Qed.

Lemma sortGroup_in cmp g y : In y (sortGroup cmp g) <-> In y g.
Proof.
  unfold sortGroup.
  assert (Hg : forall acc, In y (fold_left (fun acc x => insertSorted cmp x acc) g acc)
                           <-> In y g \/ In y acc).
  { induction g as [|a r IH]; simpl; intros acc; [tauto|].
    rewrite IH, insertSorted_in; tauto. }
  rewrite Hg; simpl; tauto.
Qed.

(** *** The groups of [groupMap] *)

Lemma addToGroup_keys key l G k :
  In k (map fst (addToGroup key l G)) <-> key = k \/ In k (map fst G).
Proof.
  induction G as [|[k0 g0] rest IH]; simpl; [tauto|].
  destruct (String.eqb_spec k0 key) as [->|Hne]; simpl; [tauto|].
  rewrite IH; tauto.
Qed.

Lemma addToGroup_nodup key l G :
  NoDup (map fst G) -> NoDup (map fst (addToGroup key l G)).
Proof.
  induction G as [|[k0 g0] rest IH]; simpl; intros HN.
  - constructor; [apply not_elem_of_nil | constructor].
  - inversion HN as [|? ? Hk HN']; subst.
    destruct (String.eqb_spec k0 key) as [->|Hne]; simpl.
    + constructor; assumption.
    + constructor; [|apply IH; exact HN'].
      intros Hx; apply list_elem_of_In, addToGroup_keys in Hx as [E|E];
        [congruence | apply Hk, list_elem_of_In; exact E].
Qed.

Lemma addToGroup_in key l G k g :
  NoDup (map fst G) -> In (k, g) (addToGroup key l G) ->
  (k <> key /\ In (k, g) G) \/
  (k = key /\ ((exists g0, In (key, g0) G /\ g = g0 ++ [l]) \/
               (~ In key (map fst G) /\ g = [l]))).
Proof.
  induction G as [|[k0 g0] rest IH]; simpl; intros HN H.
  - destruct H as [[= <- <-]|[]]. right; split; [reflexivity|]. right; split; [tauto|reflexivity].
  - inversion HN as [|? ? Hk HN']; subst.
    destruct (String.eqb_spec k0 key) as [->|Hne].
    + destruct H as [[= <- <-]|H].
      * right; split; [reflexivity|]. left; exists g0; split; [left; reflexivity|reflexivity].
      * left; split; [|right; exact H].
        intros ->. apply Hk, list_elem_of_In. apply (in_map fst) in H. exact H.
    + destruct H as [[= <- <-]|H].
      * left; split; [congruence|left; reflexivity].
      * destruct (IH HN' H) as [[Hne' Hin]|[-> [(g1 & Hin & ->)|[Hnot ->]]]].
        -- left; split; [exact Hne'|right; exact Hin].
        -- right; split; [reflexivity|]. left; exists g1; split; [right; exact Hin|reflexivity].
        -- right; split; [reflexivity|]. right; split; [|reflexivity].
           intros [E|E]; [congruence|contradiction].
Qed.


Lemma groups_inv_gen ls pre G :
  NoDup (map fst G) ->
  (forall k g, In (k, g) G -> g = List.filter (keyIs k) pre) ->
  (forall x, In x pre -> In (groupKey x) (map fst G)) ->
  let G' := fold_left (fun g link => addToGroup (groupKey link) link g) ls G in
  NoDup (map fst G') /\
  (forall k g, In (k, g) G' -> g = List.filter (keyIs k) (pre ++ ls)) /\
  (forall x, In x (pre ++ ls) -> In (groupKey x) (map fst G')).
Proof.
  revert pre G; induction ls as [|a r IH]; intros pre G HN HG Hcov; simpl.
  - rewrite app_nil_r; auto.
  - replace (pre ++ a :: r) with ((pre ++ [a]) ++ r) by (rewrite <- app_assoc; reflexivity).
    apply IH.
    + apply addToGroup_nodup; exact HN.
    + intros k g H. rewrite List.filter_app.
      destruct (addToGroup_in _ _ _ _ _ HN H) as [[Hne Hin]|[-> [(g0 & Hin & ->)|[Hnot ->]]]].
      * simpl; unfold keyIs at 2; destruct (String.eqb_spec (groupKey a) k) as [E|_];
          [congruence|]. rewrite app_nil_r; apply HG; exact Hin.
      * simpl; unfold keyIs at 2; rewrite String.eqb_refl. f_equal; apply HG; exact Hin.
      * simpl; unfold keyIs at 2; rewrite String.eqb_refl.
        rewrite filter_nil_all; [reflexivity|].
        intros x Hx. unfold keyIs. destruct (String.eqb_spec (groupKey x) (groupKey a)) as [E|_];
          [|reflexivity].
        exfalso; apply Hnot; rewrite <- E; apply Hcov; exact Hx.
    + intros x Hx. rewrite addToGroup_keys.
      apply in_app_or in Hx as [Hx|[<-|[]]]; [right; apply Hcov; exact Hx | left; reflexivity].
Qed.

Lemma groups_inv ls :
  let G := fold_left (fun g link => addToGroup (groupKey link) link g) ls [] in
  NoDup (map fst G) /\
  (forall k g, In (k, g) G -> g = List.filter (keyIs k) ls) /\
  (forall x, In x ls -> In (groupKey x) (map fst G)).
Proof.
  apply (groups_inv_gen ls [] []); [constructor | simpl; tauto | simpl; tauto].
Qed.

Lemma groups_member ls x :
  In x ls ->
  exists kg, In kg (fold_left (fun g link => addToGroup (groupKey link) link g) ls []) /\
             In x kg.2.
Proof.
  intros Hx. destruct (groups_inv ls) as (_ & HG & Hcov).
  pose proof (Hcov x Hx) as Hk. apply in_map_iff in Hk. destruct Hk as ([k g] & Ek & Hin). simpl in Ek.
  exists (k, g); split; [exact Hin|]. simpl. rewrite (HG k g Hin).
  apply filter_In; split; [exact Hx|]. unfold keyIs; rewrite Ek; apply String.eqb_refl.
Qed.

Lemma groups_sub ls kg x :
  In kg (fold_left (fun g link => addToGroup (groupKey link) link g) ls []) ->
  In x kg.2 -> In x ls /\ keyIs kg.1 x = true.
Proof.
  destruct kg as [k g]; simpl. intros Hin Hx.
  destruct (groups_inv ls) as (_ & HG & _).
  rewrite (HG k g Hin) in Hx. apply filter_In in Hx; exact Hx.
Qed.

(** *** Placing the links of the groups *)

Section Preserve.
Variable Q : string -> list Position -> Prop.
Variable RM : gmap string RouterP.t.
Variable MP : gmap string (list Position).

Lemma placeLink_pres n P i l :
  (forall pts, MP !! LinkP.id l = Some pts -> Q (LinkP.id l) pts) ->
  (MP !! LinkP.id l = None -> forall f t j,
     RM !! LinkP.from l = Some f -> RM !! LinkP.to l = Some t ->
     Q (LinkP.id l) (computeAutoPath (RouterP.position f) (RouterP.position t) n j)) ->
  (forall k v, P !! k = Some v -> Q k v) ->
  forall k v, placeLink RM MP n P i l !! k = Some v -> Q k v.
Proof.
  intros Hm Ha HP k v. unfold placeLink.
  destruct (MP !! LinkP.id l) as [pts|] eqn:Em.
  - destruct (decide (LinkP.id l = k)) as [<-|Hne].
    + rewrite lookup_insert_eq; intros [= <-]; apply Hm; reflexivity.
    + rewrite lookup_insert_ne by exact Hne; apply HP.
  - destruct (RM !! LinkP.from l) as [f|] eqn:Ef, (RM !! LinkP.to l) as [t|] eqn:Et;
      try apply HP.
    destruct (decide (LinkP.id l = k)) as [<-|Hne].
    + rewrite lookup_insert_eq; intros [= <-]; apply Ha; auto.
    + rewrite lookup_insert_ne by exact Hne; apply HP.
Qed.

Lemma placeFrom_pres n g : forall i P,
  (forall l, In l g ->
     (forall pts, MP !! LinkP.id l = Some pts -> Q (LinkP.id l) pts) /\
     (MP !! LinkP.id l = None -> forall f t j,
        RM !! LinkP.from l = Some f -> RM !! LinkP.to l = Some t ->
        Q (LinkP.id l) (computeAutoPath (RouterP.position f) (RouterP.position t) n j))) ->
  (forall k v, P !! k = Some v -> Q k v) ->
  forall k v, placeFrom RM MP n i g P !! k = Some v -> Q k v.
Proof.
  induction g as [|a r IH]; simpl; intros i P Hg HP; [exact HP|].
  apply IH; [intros l Hl; apply Hg; auto|].
  destruct (Hg a (or_introl eq_refl)) as [Hm Ha].
  apply placeLink_pres; assumption.
Qed.

Lemma groups_pres cmp (G : list (string * list LinkP.t)) : forall P,
  (forall kg l, In kg G -> In l kg.2 ->
     (forall pts, MP !! LinkP.id l = Some pts -> Q (LinkP.id l) pts) /\
     (MP !! LinkP.id l = None -> forall f t j,
        RM !! LinkP.from l = Some f -> RM !! LinkP.to l = Some t ->
        Q (LinkP.id l) (computeAutoPath (RouterP.position f) (RouterP.position t)
                          (length (sortGroup cmp kg.2)) j))) ->
  (forall k v, P !! k = Some v -> Q k v) ->
  forall k v, fold_left (fun acc kg => placeGroup cmp RM MP acc kg.2) G P !! k = Some v -> Q k v.
Proof.
  induction G as [|kg r IH]; simpl; intros P HG HP; [exact HP|].
  apply IH; [intros kg' l Hkg Hl; apply HG; auto|].
  unfold placeGroup. apply placeFrom_pres; [|exact HP].
  intros l Hl; apply HG; [left; reflexivity|]. apply sortGroup_in in Hl; exact Hl.
Qed.

End Preserve.

Lemma placeLink_mono RM MP n (P : gmap string (list Position)) i l k :
  is_Some (P !! k) -> is_Some (placeLink RM MP n P i l !! k).
Proof.
  intros H; unfold placeLink.
  destruct (MP !! LinkP.id l); [apply insert_is_Some; exact H|].
  destruct (RM !! LinkP.from l), (RM !! LinkP.to l); try exact H.
  apply insert_is_Some; exact H.
Qed.

Lemma placeLink_sets RM MP n (P : gmap string (list Position)) i l :
  is_Some (RM !! LinkP.from l) -> is_Some (RM !! LinkP.to l) ->
  is_Some (placeLink RM MP n P i l !! LinkP.id l).
Proof.
  intros [f Ef] [t Et]; unfold placeLink.
  destruct (MP !! LinkP.id l); [rewrite lookup_insert_eq; eauto|].
  rewrite Ef, Et, lookup_insert_eq; eauto.
Qed.

Lemma placeFrom_mono RM MP n g : forall i (P : gmap string (list Position)) k,
  is_Some (P !! k) -> is_Some (placeFrom RM MP n i g P !! k).
Proof.
  induction g as [|a r IH]; simpl; intros i P k H; [exact H|].
  apply IH, placeLink_mono, H.
Qed.

Lemma placeFrom_sets RM MP n g l : forall i (P : gmap string (list Position)),
  In l g -> is_Some (RM !! LinkP.from l) -> is_Some (RM !! LinkP.to l) ->
  is_Some (placeFrom RM MP n i g P !! LinkP.id l).
Proof.
  induction g as [|a r IH]; simpl; intros i P Hin Hf Ht; [contradiction|].
  destruct Hin as [<-|Hin].
  - apply placeFrom_mono, placeLink_sets; assumption.
  - apply IH; assumption.
Qed.

Lemma groups_mono cmp RM MP (G : list (string * list LinkP.t)) : forall (P : gmap string (list Position)) k,
  is_Some (P !! k) ->
  is_Some (fold_left (fun acc kg => placeGroup cmp RM MP acc kg.2) G P !! k).
Proof.
  induction G as [|kg r IH]; simpl; intros P k H; [exact H|].
  apply IH. unfold placeGroup. apply placeFrom_mono; exact H.
Qed.

Lemma groups_sets cmp RM MP (G : list (string * list LinkP.t)) kg l : forall (P : gmap string (list Position)),
  In kg G -> In l kg.2 -> is_Some (RM !! LinkP.from l) -> is_Some (RM !! LinkP.to l) ->
  is_Some (fold_left (fun acc kg => placeGroup cmp RM MP acc kg.2) G P !! LinkP.id l).
Proof.
  induction G as [|kg' r IH]; simpl; intros P Hkg Hl Hf Ht; [contradiction|].
  destruct Hkg as [<-|Hkg].
  - apply groups_mono. unfold placeGroup. apply placeFrom_sets; auto.
    apply sortGroup_in; exact Hl.
  - apply IH; assumption.
Qed.

(** X15: every path [computeLinkPaths] returns belongs to a link with that
    id whose two routers are known, and it is that link's manual path, a
    straight segment between the two router positions, or a curve from one
    to the other through a single control point. *)
Theorem computeLinkPaths_shapes cmp routers links k pts :
  computeLinkPaths cmp routers links !! k = Some pts ->
  exists link, In link links /\ LinkP.id link = k /\
               pathOfLink (buildRouterMap routers) link pts.
Proof.
  unfold computeLinkPaths; cbv zeta. rewrite merge_lookup.
  set (RM := buildRouterMap routers).
  set (MP := fold_left (addManualPath RM) links ∅).
  assert (Hman : forall k v, MP !! k = Some v ->
                 exists link, In link links /\ LinkP.id link = k /\ pathOfLink RM link v).
  { intros k' v Hv. destruct (manual_lookup _ _ _ _ Hv) as (l & Hl & Hid & Hm).
    exists l; split; [exact Hl|]; split; [exact Hid|]. apply manual_pathOf; exact Hm. }
  match goal with |- context [match ?P0 !! k with _ => _ end] => destruct (P0 !! k) eqn:EP end.
  - intros [= <-]. revert EP.
    apply (groups_pres (fun k v => exists link, In link links /\ LinkP.id link = k /\
                                                pathOfLink RM link v)).
    + intros kg lk Hkg Hl. destruct (groups_sub _ _ _ Hkg Hl) as [Hin _]. split.
      * intros pts' Hp. apply Hman; exact Hp.
      * intros _ f t j Ef Et. exists lk; split; [exact Hin|]; split; [reflexivity|].
        exists f, t; split; [exact Ef|]; split; [exact Et|]. right. apply autoPath_shape.
    + intros k' v; rewrite lookup_empty; discriminate.
  - apply Hman.
Qed.

(** X16: every link whose two routers are known gets a path under its id. *)
Theorem computeLinkPaths_covers cmp routers links link :
  In link links ->
  is_Some (buildRouterMap routers !! LinkP.from link) ->
  is_Some (buildRouterMap routers !! LinkP.to link) ->
  is_Some (computeLinkPaths cmp routers links !! LinkP.id link).
Proof.
  intros Hin Hf Ht. unfold computeLinkPaths; cbv zeta. rewrite merge_lookup.
  destruct (groups_member _ _ Hin) as (kg & Hkg & Hl).
  destruct (groups_sets cmp _ (fold_left (addManualPath (buildRouterMap routers)) links ∅)
              _ _ _ ∅ Hkg Hl Hf Ht) as [v Hv].
  rewrite Hv; eauto.
Qed.

(** X17: when link ids are distinct, a link with a non-empty [path] and two
    known routers is drawn along that path, from the position of its [from]
    router to the position of its [to] router. *)
Theorem computeLinkPaths_manual cmp routers links link points f t :
  NoDup (map LinkP.id links) -> In link links ->
  LinkP.path link = Some points -> points <> [] ->
  buildRouterMap routers !! LinkP.from link = Some f ->
  buildRouterMap routers !! LinkP.to link = Some t ->
  computeLinkPaths cmp routers links !! LinkP.id link =
    Some (RouterP.position f :: points ++ [RouterP.position t]).
Proof.
  intros HN Hin Hp Hne Ef Et.
  unfold computeLinkPaths; cbv zeta. rewrite merge_lookup.
  set (RM := buildRouterMap routers) in *.
  set (MP := fold_left (addManualPath RM) links ∅).
  assert (HM : MP !! LinkP.id link = Some (RouterP.position f :: points ++ [RouterP.position t])).
  { apply manual_kept; [exact HN | exact Hin | exists f, t, points; auto]. }
  match goal with |- match ?P0 !! ?k with _ => _ end = _ => destruct (P0 !! k) eqn:EP end;
    [|exact HM].
  f_equal.
  pose proof (groups_pres (fun k v => forall w, MP !! k = Some w -> v = w) RM MP cmp) as HQ.
  refine (HQ _ _ _ _ _ _ EP _ HM).
  - intros kg l' _ _; split.
    + intros pts Hp' w Hw; congruence.
    + intros Hnone f' t' j _ _ w Hw; congruence.
  - intros k v; rewrite lookup_empty; discriminate.
Qed.

(** X18: when link ids are distinct, a link without a manual path ([path]
    absent or empty), with two known routers and alone in its group (no
    other link has its [groupKey]), is drawn as the straight segment from
    its [from] router's position to its [to] router's position. *)
Theorem computeLinkPaths_lone_straight cmp routers links link f t :
  NoDup (map LinkP.id links) -> In link links ->
  (LinkP.path link = None \/ LinkP.path link = Some []) ->
  (forall other, In other links -> groupKey other = groupKey link -> other = link) ->
  buildRouterMap routers !! LinkP.from link = Some f ->
  buildRouterMap routers !! LinkP.to link = Some t ->
  computeLinkPaths cmp routers links !! LinkP.id link =
    Some [RouterP.position f; RouterP.position t].
Proof.
  intros HN Hin Hp Hlone Ef Et.
  assert (Hcov := computeLinkPaths_covers cmp routers links link Hin
                    (ex_intro _ f Ef) (ex_intro _ t Et)).
  unfold computeLinkPaths in *; cbv zeta in *. rewrite merge_lookup in *.
  set (RM := buildRouterMap routers) in *.
  set (MP := fold_left (addManualPath RM) links ∅) in *.
  assert (HM : MP !! LinkP.id link = None).
  { destruct (MP !! LinkP.id link) as [v|] eqn:Ev; [|reflexivity].
    destruct (manual_lookup _ _ _ _ Ev) as (l & Hl & Hid & Hm).
    assert (l = link) as -> by (apply (NoDup_map_eq LinkP.id links); assumption).
    destruct Hm as (f' & t' & pts & _ & _ & Hp' & Hne & _).
    destruct Hp as [Hp|Hp]; rewrite Hp in Hp'; [discriminate|injection Hp' as <-; congruence]. }
  rewrite HM in Hcov.
  match goal with H : is_Some (match ?P0 !! ?k with _ => _ end) |- _ =>
    destruct (P0 !! k) as [v|] eqn:EP end;
    [|destruct Hcov as [? Hc]; discriminate Hc].
  f_equal.
  pose proof (groups_pres (fun k v => k = LinkP.id link ->
                                     v = [RouterP.position f; RouterP.position t]) RM MP cmp) as HQ.
  refine (HQ _ _ _ _ _ _ EP eq_refl); [|intros k' v'; rewrite lookup_empty; discriminate].
  intros [k g] l Hkg Hl. destruct (groups_sub _ _ _ Hkg Hl) as [Hlin Hkey]. simpl in *.
  split.
  - intros pts Hpts E. rewrite E, HM in Hpts. discriminate.
  - intros _ f' t' j Ef' Et' E.
    assert (l = link) as -> by (apply (NoDup_map_eq LinkP.id links); assumption).
    rewrite Ef in Ef'; injection Ef' as <-. rewrite Et in Et'; injection Et' as <-.
    destruct (groups_inv links) as (_ & HG & _).
    assert (Hg : g = [link]).
    { rewrite (HG k g Hkg). apply filter_lone; [exact HN | exact Hin | exact Hkey |].
      intros x Hx Hxk. apply Hlone; [exact Hx|].
      unfold keyIs in Hxk, Hkey. apply String.eqb_eq in Hxk, Hkey. congruence. }
    subst g. apply autoPath_lone_group.
Qed.

Lemma computeLinkPaths_shapes_witness :
  computeLinkPaths PathsScenarios.byCodeUnits PathsScenarios.sampleRouters PathsScenarios.sampleLinks
    !! "b-c" = Some [PathsScenarios.pos 300 0; PathsScenarios.pos 350 100; PathsScenarios.pos 300 200] /\
  exists link, In link PathsScenarios.sampleLinks /\ LinkP.id link = "b-c" /\
    pathOfLink (buildRouterMap PathsScenarios.sampleRouters) link
      [PathsScenarios.pos 300 0; PathsScenarios.pos 350 100; PathsScenarios.pos 300 200].
Proof.
  assert (E : computeLinkPaths PathsScenarios.byCodeUnits PathsScenarios.sampleRouters
                PathsScenarios.sampleLinks !! "b-c" =
              Some [PathsScenarios.pos 300 0; PathsScenarios.pos 350 100; PathsScenarios.pos 300 200])
    by reflexivity.
  split; [exact E|]. apply (computeLinkPaths_shapes _ _ _ _ _ E).
Defined.

Lemma computeLinkPaths_covers_witness :
  In PathsScenarios.straightLink PathsScenarios.sampleLinks /\
  is_Some (computeLinkPaths PathsScenarios.byCodeUnits PathsScenarios.sampleRouters
             PathsScenarios.sampleLinks !! "a-b").
Proof.
  assert (H : In PathsScenarios.straightLink PathsScenarios.sampleLinks) by (left; reflexivity).
  split; [exact H|].
  apply (computeLinkPaths_covers PathsScenarios.byCodeUnits PathsScenarios.sampleRouters
           PathsScenarios.sampleLinks PathsScenarios.straightLink H); eexists; reflexivity.
Defined.

Lemma computeLinkPaths_manual_witness :
  NoDup (map LinkP.id PathsScenarios.sampleLinks) /\
  computeLinkPaths PathsScenarios.byCodeUnits PathsScenarios.sampleRouters PathsScenarios.sampleLinks
    !! "b-c" = Some [PathsScenarios.pos 300 0; PathsScenarios.pos 350 100; PathsScenarios.pos 300 200].
Proof.
  assert (N : NoDup (map LinkP.id PathsScenarios.sampleLinks)) by nodup_literals.
  split; [exact N|].
  apply (computeLinkPaths_manual PathsScenarios.byCodeUnits PathsScenarios.sampleRouters
           PathsScenarios.sampleLinks PathsScenarios.manualLink [PathsScenarios.pos 350 100]
           (RouterP.mk "b" (PathsScenarios.pos 300 0)) (RouterP.mk "c" (PathsScenarios.pos 300 200)) N);
    [right; left; reflexivity | reflexivity | discriminate | reflexivity | reflexivity].
Defined.

Lemma computeLinkPaths_lone_straight_witness :
  NoDup (map LinkP.id PathsScenarios.sampleLinks) /\
  computeLinkPaths PathsScenarios.byCodeUnits PathsScenarios.sampleRouters PathsScenarios.sampleLinks
    !! "a-b" = Some [PathsScenarios.pos 0 0; PathsScenarios.pos 300 0].
Proof.
  assert (N : NoDup (map LinkP.id PathsScenarios.sampleLinks)) by nodup_literals.
  split; [exact N|].
  apply (computeLinkPaths_lone_straight PathsScenarios.byCodeUnits PathsScenarios.sampleRouters
           PathsScenarios.sampleLinks PathsScenarios.straightLink
           (RouterP.mk "a" (PathsScenarios.pos 0 0)) (RouterP.mk "b" (PathsScenarios.pos 300 0)) N);
    [left; reflexivity | left; reflexivity | | reflexivity | reflexivity].
  intros other [<-|[<-|[<-|[]]]] E; [reflexivity | discriminate E | discriminate E].
Defined.

End PathsFacts.

(* ------------------------------------------------------------------ *)
(** ** Link capacities *)

Module LinkCapacityFacts.
Import Render CapacitySpec.
Local Open Scope Q_scope.

Lemma Qltb_zero (q : Q) :
  (if Sampler.Qltb 0 q then [q] else []) = optionList (if Qlt_le_dec 0 q then Some q else None).
Proof.
  unfold Sampler.Qltb. destruct (Qlt_le_dec 0 q) as [H|H].
  - destruct (Qle_bool q 0) eqn:E; [|reflexivity].
    apply Qle_bool_iff in E. exfalso. exact (Qlt_not_le _ _ H E).
  - apply Qle_bool_iff in H. rewrite H. reflexivity.
Qed.

Lemma positiveCandidates_pair (a b : option Q) :
  positiveCandidates [a; b] = optionList (positive a) ++ optionList (positive b).
Proof.
  unfold positiveCandidates. simpl. rewrite app_nil_r.
  destruct a as [qa|], b as [qb|]; simpl; rewrite ?Qltb_zero, ?app_nil_r; reflexivity.
Qed.

Lemma listMin_pair (a b : option Q) :
  listMin (positiveCandidates [a; b]) = minPositive a b.
Proof.
  rewrite positiveCandidates_pair. unfold minPositive.
  destruct (positive a), (positive b); reflexivity.
Qed.

Lemma listMin_fallback (a b c d : option Q) :
  listMin (match positiveCandidates [a; b] with
           | [] => positiveCandidates [c; d]
           | _ :: _ => positiveCandidates [a; b]
           end)
  = match minPositive a b with Some x => Some x | None => minPositive c d end.
Proof.
  rewrite !positiveCandidates_pair. unfold minPositive.
  destruct (positive a), (positive b); simpl; try reflexivity.
  destruct (positive c), (positive d); reflexivity.
Qed.

Lemma positive_some (o : option Q) (x : Q) : positive o = Some x -> 0 < x.
Proof.
  destruct o as [q|]; simpl; [|discriminate].
  destruct (Qlt_le_dec 0 q) as [H|H]; [|discriminate]. intros E. injection E as <-. exact H.
Qed.

Lemma minPositive_pos (a b : option Q) (x : Q) : minPositive a b = Some x -> 0 < x.
Proof.
  unfold minPositive.
  destruct (positive a) as [p|] eqn:Ea, (positive b) as [q|] eqn:Eb; intros E; try discriminate E;
    injection E as <-.
  - apply positive_some in Ea, Eb. apply Q.min_glb_lt; assumption.
  - exact (positive_some _ _ Ea).
  - exact (positive_some _ _ Eb).
Qed.

Lemma interactiveCapacity_pos routers metrics link x :
  interactiveCapacity routers metrics link = Some x -> 0 < x.
Proof.
  unfold interactiveCapacity.
  destruct (minPositive _ _) as [c|] eqn:E.
  - intros H. injection H as <-. exact (minPositive_pos _ _ _ E).
  - apply minPositive_pos.
Qed.

Lemma push_positive (o : option Q) (cs : list Q) :
  (forall c, o = Some c -> 0 < c) ->
  match o with Some c => if Qeq_bool c 0 then cs else cs ++ [c] | None => cs end = cs ++ optionList o.
Proof.
  destruct o as [c|]; simpl; intros H; [|symmetry; apply app_nil_r].
  destruct (Qeq_bool c 0) eqn:E; [|reflexivity].
  apply Qeq_bool_iff in E. specialize (H c eq_refl). rewrite E in H.
  exfalso. exact (Qlt_irrefl _ H).
Qed.

(** Both back-ends fold the links into a list of capacities and a map. *)
Lemma pair_fold {X : Type} (f : list Q * gmap string (option Q) -> X -> list Q * gmap string (option Q))
    (key : X -> string) (val : X -> option Q) (push : X -> list Q) :
  (forall cs mp x, f (cs, mp) x = (cs ++ push x, <[key x := val x]> mp)) ->
  forall l cs mp, fold_left f l (cs, mp)
    = (cs ++ flat_map push l, fold_left (fun m x => <[key x := val x]> m) l mp).
Proof.
  intros Hf l. induction l as [|x r IH]; simpl; intros cs mp.
  - rewrite app_nil_r. reflexivity.
  - rewrite Hf, IH, app_assoc. reflexivity.
Qed.

Lemma computeLinkCapacities_eq routers links :
  computeLinkCapacities routers links
  = (flat_map (fun l => optionList (offlineCapacity routers l)) links,
     fold_left (fun m x => <[LinkDef.id x := offlineCapacity routers x]> m) links ∅).
Proof.
  unfold computeLinkCapacities.
  rewrite (pair_fold _ LinkDef.id (offlineCapacity routers) (fun l => optionList (offlineCapacity routers l))).
  - reflexivity.
  - intros cs mp x. cbv beta iota zeta. rewrite listMin_pair.
    unfold offlineCapacity. destruct (minPositive _ _); simpl; rewrite ?app_nil_r; reflexivity.
Qed.

Lemma rebuildLinkCapacities_eq routers links metrics :
  rebuildLinkCapacities routers links metrics
  = (flat_map (fun l => optionList (interactiveCapacity routers metrics l)) links,
     fold_left (fun m x => <[LinkDef.id x := interactiveCapacity routers metrics x]> m) links ∅).
Proof.
  unfold rebuildLinkCapacities.
  rewrite (pair_fold _ LinkDef.id (interactiveCapacity routers metrics)
             (fun l => optionList (interactiveCapacity routers metrics l))).
  - reflexivity.
  - intros cs mp x. cbv beta iota zeta. rewrite listMin_fallback.
    rewrite push_positive; [reflexivity|].
    intros c Ec. exact (interactiveCapacity_pos routers metrics x c Ec).
Qed.

Lemma optionList_positive (f : LinkDef.t -> option Q) (links : list LinkDef.t) :
  (forall l c, f l = Some c -> 0 < c) -> Forall (fun c => 0 < c) (flat_map (fun l => optionList (f l)) links).
Proof.
  intros H. apply List.Forall_forall. intros c Hc. apply in_flat_map in Hc as [l [_ Hl]].
  destruct (f l) as [c'|] eqn:E; simpl in Hl; [|contradiction].
  destruct Hl as [<-|[]]. exact (H l c' E).
Qed.

Lemma fold_Qmin (tl : list Q) (h : Q) :
  In (fold_left Qmin tl h) (h :: tl) /\ Forall (fun c => fold_left Qmin tl h <= c) (h :: tl).
Proof.
  revert h. induction tl as [|y r IH]; simpl; intros h.
  - split; [left; reflexivity|]. constructor; [apply Qle_refl|constructor].
  - destruct (IH (Qmin h y)) as [Hin Hall]. split.
    + destruct Hin as [E|Hin]; [|tauto].
      rewrite <- E. unfold Qmin, GenericMinMax.gmin. destruct (h ?= y); tauto.
    + inversion Hall as [|? ? Hm Hr]; subst.
      constructor; [|constructor]; [| |exact Hr].
      * eapply Qle_trans; [exact Hm|apply Q.le_min_l].
      * eapply Qle_trans; [exact Hm|apply Q.le_min_r].
Qed.

Lemma fold_Qmax (tl : list Q) (h : Q) :
  In (fold_left Qmax tl h) (h :: tl) /\ Forall (fun c => c <= fold_left Qmax tl h) (h :: tl).
Proof.
  revert h. induction tl as [|y r IH]; simpl; intros h.
  - split; [left; reflexivity|]. constructor; [apply Qle_refl|constructor].
  - destruct (IH (Qmax h y)) as [Hin Hall]. split.
    + destruct Hin as [E|Hin]; [|tauto].
      rewrite <- E. unfold Qmax, GenericMinMax.gmax. destruct (h ?= y); tauto.
    + inversion Hall as [|? ? Hm Hr]; subst.
      constructor; [|constructor]; [| |exact Hr].
      * eapply Qle_trans; [apply Q.le_max_l|exact Hm].
      * eapply Qle_trans; [apply Q.le_max_r|exact Hm].
Qed.

Lemma fold_caps_keys {V : Type} (val : LinkDef.t -> V) (links : list LinkDef.t) (k : string) :
  is_Some (fold_left (fun (m : gmap string V) x => <[LinkDef.id x := val x]> m) links ∅ !! k) <-> In k (map LinkDef.id links).
Proof.
  rewrite (ConfigFacts.fold_insert_is_some LinkDef.id val). rewrite lookup_empty.
  split; [intros [[? H]|H]; [discriminate H|exact H]|tauto].
Qed.

(** X19: the offline renderer ([computeLinkCapacities]) collects, in link
    order, the capacity of each link that has one; every collected capacity
    is positive; the map has an entry for each link id and no other, and
    with distinct ids the entry of a link is its capacity, the smaller
    positive [maxBandwidth] of its two interfaces. *)
Theorem computeLinkCapacities_spec routers links :
  let '(caps, mp) := computeLinkCapacities routers links in
  caps = flat_map (fun l => optionList (offlineCapacity routers l)) links /\
  Forall (fun c => 0 < c) caps /\
  (forall k, is_Some (mp !! k) <-> In k (map LinkDef.id links)) /\
  (NoDup (map LinkDef.id links) ->
   forall l, In l links -> mp !! LinkDef.id l = Some (offlineCapacity routers l)).
Proof.
  rewrite computeLinkCapacities_eq. split; [reflexivity|]. split; [|split].
  - apply optionList_positive. intros l c. apply minPositive_pos.
  - intros k. apply fold_caps_keys.
  - intros Hnd l Hl. apply (ConfigFacts.fold_insert_last LinkDef.id (offlineCapacity routers)); assumption.
Qed.

(** X20: the interactive renderer ([rebuildLinkCapacities]) does the same
    with, for each link, the smaller positive capacity its two interfaces
    report in the latest metrics and, when neither reports a positive one,
    the smaller positive [maxBandwidth] of the topology. *)
Theorem rebuildLinkCapacities_spec routers links metrics :
  let '(caps, mp) := rebuildLinkCapacities routers links metrics in
  caps = flat_map (fun l => optionList (interactiveCapacity routers metrics l)) links /\
  Forall (fun c => 0 < c) caps /\
  (forall k, is_Some (mp !! k) <-> In k (map LinkDef.id links)) /\
  (NoDup (map LinkDef.id links) ->
   forall l, In l links -> mp !! LinkDef.id l = Some (interactiveCapacity routers metrics l)).
Proof.
  rewrite rebuildLinkCapacities_eq. split; [reflexivity|]. split; [|split].
  - apply optionList_positive. intros l c. apply interactiveCapacity_pos.
  - intros k. apply fold_caps_keys.
  - intros Hnd l Hl.
    apply (ConfigFacts.fold_insert_last LinkDef.id (interactiveCapacity routers metrics)); assumption.
Qed.

(** X21: the capacity range is absent exactly when no capacity was
    collected; otherwise its bounds are the least and the greatest of the
    collected capacities. *)
Theorem capacityRangeOf_spec (caps : list Q) :
  (capacityRangeOf caps = None <-> caps = []) /\
  (forall r, capacityRangeOf caps = Some r ->
   exists lo hi, In lo caps /\ In hi caps /\ Render.min r = Q2R lo /\ Render.max r = Q2R hi /\
                 Forall (fun c => lo <= c <= hi) caps).
Proof.
  unfold capacityRangeOf, listMin, listMax. destruct caps as [|h tl].
  - split; [tauto|]. intros r E. discriminate E.
  - split; [split; [discriminate|discriminate]|].
    intros r E. injection E as <-.
    destruct (fold_Qmin tl h) as [Hlo Alo], (fold_Qmax tl h) as [Hhi Ahi].
    exists (fold_left Qmin tl h), (fold_left Qmax tl h).
    split; [exact Hlo|]. split; [exact Hhi|]. split; [reflexivity|]. split; [reflexivity|].
    apply List.Forall_forall. intros c Hc. rewrite List.Forall_forall in Alo, Ahi. split; auto.
Qed.

End LinkCapacityFacts.

(* ------------------------------------------------------------------ *)
(** ** Frontend helpers *)

Module FrontendFacts.
Import Render Frontend FrontendSpec.
Local Open Scope Q_scope.

Lemma escapeHtml_cons (c : Ascii.ascii) (t : string) :
  escapeHtml (String c t) = escapedForm c +:+ escapeHtml t.
Proof. simpl. unfold escapedForm. destruct (htmlEscapeMap c); reflexivity. Qed.

Ltac split_char c :=
  repeat (simpl; match goal with
                 | |- context [Ascii.eqb c ?b] => destruct (Ascii.eqb_spec c b) as [->|?]
                 end).

Ltac char_contradiction :=
  exfalso; match goal with H : _ <> _ |- _ => apply H; reflexivity end.

Lemma escapedForm_nonempty (c : Ascii.ascii) : exists d e, escapedForm c = String d e.
Proof. unfold escapedForm, htmlEscapeMap. split_char c; eexists; eexists; reflexivity. Qed.

Lemma escapedForm_prefix (c c' : Ascii.ascii) (X Y : string) :
  escapedForm c +:+ X = escapedForm c' +:+ Y -> c = c' /\ X = Y.
Proof.
  unfold escapedForm, htmlEscapeMap. split_char c; split_char c'; intros E; cbv beta iota fix delta [String.append] in E;
    first [ discriminate E
          | (injection E; intros; subst; split; reflexivity)
          | (injection E; intros; subst; char_contradiction) ].
Qed.

Lemma escapedForm_safe (c : Ascii.ascii) :
  OidSpec.allChars (fun d => negb (markupChar d)) (escapedForm c) = true.
Proof.
  unfold escapedForm, htmlEscapeMap, markupChar. split_char c; try reflexivity; char_contradiction.
Qed.

Lemma escapedForm_plain (c : Ascii.ascii) : escapedChar c = false -> escapedForm c = String c EmptyString.
Proof.
  unfold escapedForm, htmlEscapeMap. intros Hc.
  split_char c; try reflexivity; cbv in Hc; discriminate Hc.
Qed.

(** X22: the output of [escapeHtml] contains none of the characters
    [<], [>], the double quote and the single quote, and a string without
    any of the five escaped characters comes out unchanged. *)
Theorem escapeHtml_safe (s : string) :
  OidSpec.allChars (fun c => negb (markupChar c)) (escapeHtml s) = true /\
  (OidSpec.allChars (fun c => negb (escapedChar c)) s = true -> escapeHtml s = s).
Proof.
  induction s as [|c s [IHs IHp]]; [split; reflexivity|].
  rewrite escapeHtml_cons, OidFacts.allChars_app, escapedForm_safe, IHs. split; [reflexivity|].
  simpl. intros H. apply andb_prop in H as [Hc Ht].
  rewrite escapedForm_plain by (destruct (escapedChar c); [discriminate Hc|reflexivity]).
  simpl. rewrite (IHp Ht). reflexivity.
Qed.

(** X23: [escapeHtml] is injective: two different strings never escape to
    the same text. *)
Theorem escapeHtml_injective (s t : string) : escapeHtml s = escapeHtml t -> s = t.
Proof.
  revert t. induction s as [|c s IH]; intros [|c' t].
  - reflexivity.
  - rewrite escapeHtml_cons. destruct (escapedForm_nonempty c') as [d [e ->]]. discriminate.
  - rewrite escapeHtml_cons. destruct (escapedForm_nonempty c) as [d [e ->]]. discriminate.
  - rewrite !escapeHtml_cons. intros E. apply escapedForm_prefix in E as [-> E].
    rewrite (IH t E). reflexivity.
Qed.

Lemma escapeHtml_injective_witness :
  escapeHtml "a&lt;" = escapeHtml "a&lt;" /\ "a&lt;" = "a&lt;".
Proof.
  assert (E : escapeHtml "a&lt;" = escapeHtml "a&lt;") by reflexivity.
  split; [exact E|]. exact (escapeHtml_injective _ _ E).
Defined.

Definition clamp01 (u : Q) : Q := Qmax 0 (Qmin 1 u).

Lemma utilBarPercent_num (u : Q) :
  utilBarPercent (Some (Num u)) = Some (Qfloor (clamp01 u * 100 + (1 # 2))).
Proof. reflexivity. Qed.

Lemma clamp01_bounds (u : Q) : 0 <= clamp01 u <= 1.
Proof.
  unfold clamp01. split; [apply Q.le_max_l|].
  apply Q.max_lub; [discriminate|apply Q.le_min_l].
Qed.

Lemma percent_bounds (c : Q) : 0 <= c <= 1 -> (0 <= Qfloor (c * 100 + (1 # 2)) <= 100)%Z.
Proof.
  intros [H0 H1]. split.
  - exact (Qfloor_resp_le 0 (c * 100 + (1 # 2)) ltac:(Lqa.lra)).
  - exact (Qfloor_resp_le (c * 100 + (1 # 2)) (100 + (1 # 2)) ltac:(Lqa.lra)).
Qed.

(** X24: the width of the utilization bar is 0 for a missing
    utilization and NaN for NaN; for a number it is an integer percentage
    between 0 and 100, 0 from a utilization of 0 down, 100 from a
    utilization of 1 up, and it never decreases as the utilization grows. *)
Theorem utilBarPercent_spec :
  utilBarPercent None = Some 0%Z /\ utilBarPercent (Some NaN) = None /\
  (forall u, exists p, utilBarPercent (Some (Num u)) = Some p /\ (0 <= p <= 100)%Z /\
                       (u <= 0 -> p = 0%Z) /\ (1 <= u -> p = 100%Z)) /\
  (forall u v p q, u <= v -> utilBarPercent (Some (Num u)) = Some p ->
                   utilBarPercent (Some (Num v)) = Some q -> (p <= q)%Z).
Proof.
  split; [reflexivity|]. split; [reflexivity|]. split.
  - intros u. exists (Qfloor (clamp01 u * 100 + (1 # 2))). rewrite utilBarPercent_num.
    pose proof (clamp01_bounds u) as Hb. split; [reflexivity|]. split; [|split].
    + apply percent_bounds. exact Hb.
    + intros Hu. apply Z.le_antisymm; [|apply percent_bounds; exact Hb].
      assert (Hc : clamp01 u <= 0).
      { unfold clamp01. apply Q.max_lub; [apply Qle_refl|].
        eapply Qle_trans; [apply Q.le_min_r|exact Hu]. }
      exact (Qfloor_resp_le (clamp01 u * 100 + (1 # 2)) (1 # 2) ltac:(Lqa.lra)).
    + intros Hu. apply Z.le_antisymm; [apply percent_bounds; exact Hb|].
      assert (Hc : 1 <= clamp01 u).
      { unfold clamp01. eapply Qle_trans; [|apply Q.le_max_r].
        apply Q.min_glb; [apply Qle_refl|exact Hu]. }
      exact (Qfloor_resp_le 100 (clamp01 u * 100 + (1 # 2)) ltac:(Lqa.lra)).
  - intros u v p q Huv. rewrite !utilBarPercent_num. intros Ep Eq.
    injection Ep as <-. injection Eq as <-.
    assert (H : clamp01 u <= clamp01 v).
    { unfold clamp01. apply Q.max_le_compat_l, Q.min_le_compat_l. exact Huv. }
    exact (Qfloor_resp_le (clamp01 u * 100 + (1 # 2)) (clamp01 v * 100 + (1 # 2)) ltac:(Lqa.lra)).
Qed.

Definition pow1000 (i : nat) : Q := inject_Z (1000 ^ Z.of_nat i).

Lemma pow1000_succ (i : nat) : pow1000 (S i) == 1000 * pow1000 i.
Proof.
  unfold pow1000. rewrite Nat2Z.inj_succ, Z.pow_succ_r by lia. rewrite inject_Z_mult. reflexivity.
Qed.

Lemma pow1000_pos (i : nat) : 0 < pow1000 i.
Proof.
  unfold pow1000. change 0 with (inject_Z 0). rewrite <- Zlt_Qlt.
  apply Z.pow_pos_nonneg; lia.
Qed.

Lemma scaleLoop_spec (fuel : nat) (v : Q) (i : nat) :
  (i <= 4)%nat -> (4 - i <= fuel)%nat ->
  let '(v', i') := scaleLoop fuel v i in
  (i <= i' <= 4)%nat /\ v' * pow1000 i' == v * pow1000 i /\
  ((i' < 4)%nat -> v' < 1000) /\ ((i < i')%nat -> 1 <= v') /\ (i' = i -> v' = v).
Proof.
  revert v i. induction fuel as [|f IH]; intros v i Hi Hf; simpl.
  - assert (i = 4%nat) by lia. subst i.
    split; [lia|]. split; [reflexivity|]. split; [lia|]. split; [lia|]. reflexivity.
  - destruct (Qle_bool 1000 v) eqn:Ev; destruct (Nat.ltb i 4) eqn:Ei; simpl.
    + apply Qle_bool_iff in Ev. apply Nat.ltb_lt in Ei.
      specialize (IH (v / 1000) (S i) ltac:(lia) ltac:(lia)).
      destruct (scaleLoop f (v / 1000) (S i)) as [v' i'].
      destruct IH as (Hr & Heq & Hlt & Hge & Hsame).
      split; [lia|]. split; [|split; [exact Hlt|split]].
      * rewrite Heq, pow1000_succ. field.
      * intros _. destruct (Nat.eq_dec i' (S i)) as [->|Hne].
        -- rewrite (Hsame eq_refl). apply Qle_shift_div_l; [reflexivity|]. Lqa.lra.
        -- apply Hge. lia.
      * lia.
    + apply Nat.ltb_ge in Ei. split; [lia|]. split; [reflexivity|]. split; [lia|]. split; [lia|]. reflexivity.
    + split; [lia|]. split; [reflexivity|]. split; [|split; [lia|reflexivity]].
      intros _. apply Qnot_le_lt. intros H. apply Qle_bool_iff in H. congruence.
    + split; [lia|]. split; [reflexivity|]. split; [|split; [lia|reflexivity]].
      intros _. apply Qnot_le_lt. intros H. apply Qle_bool_iff in H. congruence.
Qed.

(** X25: [formatThroughput] prints 0 bps for a missing value, NaN
    and every rate at or below zero; a positive rate [b] is printed as a
    value [v] in the unit of index [i] (at most 4, Tbps) with
    [v * 1000^i = b], [v] below 1000 unless the unit is Tbps, and at least
    1 unless the unit is bps. *)
Theorem formatThroughputParts_spec :
  formatThroughputParts None = None /\ formatThroughputParts (Some NaN) = None /\
  (forall b, b <= 0 -> formatThroughputParts (Some (Num b)) = None) /\
  (forall b, 0 < b -> exists v precision i,
     formatThroughputParts (Some (Num b)) = Some (v, precision, i) /\
     (i <= 4)%nat /\ v * pow1000 i == b /\ ((i < 4)%nat -> v < 1000) /\ ((0 < i)%nat -> 1 <= v)).
Proof.
  split; [reflexivity|]. split; [reflexivity|]. split.
  - intros b Hb. simpl. apply Qle_bool_iff in Hb. rewrite Hb. reflexivity.
  - intros b Hb. unfold formatThroughputParts. change (length units) with 5%nat.
    destruct (Qle_bool b 0) eqn:E.
    { apply Qle_bool_iff in E. exfalso. exact (Qlt_not_le _ _ Hb E). }
    pose proof (scaleLoop_spec 5 b 0 ltac:(lia) ltac:(lia)) as Hs.
    destruct (scaleLoop 5 b 0) as [v i]. destruct Hs as (Hr & Heq & Hlt & Hge & _).
    eexists _, _, _. split; [reflexivity|].
    split; [lia|]. split; [|split; assumption].
    rewrite Heq. change (pow1000 0) with 1. apply Qmult_1_r.
Qed.

End FrontendFacts.

(* ------------------------------------------------------------------ *)
(** ** Saved map images *)

Module SnapshotsFacts.
Import Snapshots SnapshotsSpec.
Local Open Scope Q_scope.

Lemma insertByMtime_perm (e : Entry) (l : list Entry) : Permutation (insertByMtime e l) (e :: l).
Proof.
  induction l as [|y r IH]; simpl; [reflexivity|].
  destruct (Sampler.Qltb (mtime y) (mtime e)); [reflexivity|].
  rewrite IH. apply perm_swap.
Qed.

Lemma insertByMtime_sorted (e : Entry) (l : list Entry) :
  newestFirst l -> newestFirst (insertByMtime e l).
Proof.
  induction l as [|y r IH]; simpl; [repeat constructor|].
  intros [Hy Hr]. unfold Sampler.Qltb.
  destruct (Qle_bool (mtime e) (mtime y)) eqn:E; simpl.
  - apply Qle_bool_iff in E. split; [|exact (IH Hr)].
    apply List.Forall_forall. intros x Hx.
    apply (Permutation_in _ (insertByMtime_perm e r)) in Hx as [<-|Hx]; [exact E|].
    rewrite List.Forall_forall in Hy. exact (Hy x Hx).
  - assert (Hlt : mtime y < mtime e).
    { apply Qnot_le_lt. intros H. apply Qle_bool_iff in H. congruence. }
    split; [|split; assumption].
    constructor; [apply Qlt_le_weak; exact Hlt|].
    apply List.Forall_forall. intros x Hx. rewrite List.Forall_forall in Hy.
    apply Qle_trans with (mtime y); [exact (Hy x Hx)|apply Qlt_le_weak; exact Hlt].
Qed.

Lemma sort_perm (l acc : list Entry) :
  Permutation (fold_left (fun acc e => insertByMtime e acc) l acc) (l ++ acc).
Proof.
  revert acc. induction l as [|x r IH]; simpl; intros acc; [reflexivity|].
  rewrite IH, insertByMtime_perm. symmetry. apply Permutation_middle.
Qed.

Lemma sort_sorted (l acc : list Entry) :
  newestFirst acc -> newestFirst (fold_left (fun acc e => insertByMtime e acc) l acc).
Proof.
  revert acc. induction l as [|x r IH]; simpl; intros acc H; [exact H|].
  apply IH, insertByMtime_sorted, H.
Qed.

Lemma newestFirst_app (l1 l2 : list Entry) :
  newestFirst (l1 ++ l2) -> Forall (fun d => Forall (fun k => mtime d <= mtime k) l1) l2.
Proof.
  induction l1 as [|a r IH]; simpl; intros H.
  - apply List.Forall_forall. intros; constructor.
  - destruct H as [Ha Hr]. specialize (IH Hr).
    apply List.Forall_forall. intros d Hd. constructor.
    + rewrite List.Forall_forall in Ha. apply Ha, in_or_app. right. exact Hd.
    + rewrite List.Forall_forall in IH. exact (IH d Hd).
Qed.

Lemma newestFirst_head (first : Entry) (rest : list Entry) :
  newestFirst (first :: rest) -> Forall (fun e => mtime e <= mtime first) (first :: rest).
Proof. simpl. intros [H _]. constructor; [apply Qle_refl|exact H]. Qed.

Lemma pngEntries_in joinImageDir listing e :
  In e (pngEntries joinImageDir listing) <->
  exists file m, In (file, Some m) listing /\ endsWithPng file = true /\ e = mkEntry (joinImageDir file) m.
Proof.
  unfold pngEntries. rewrite in_flat_map. split.
  - intros [[file stat] [Hin He]].
    destruct (endsWithPng file) eqn:Ep; [|contradiction].
    destruct stat as [m|]; [|contradiction].
    destruct He as [<-|[]]. exists file, m. auto.
  - intros (file & m & Hin & Hp & ->). exists (file, Some m). rewrite Hp. simpl. auto.
Qed.

Lemma collect_facts joinImageDir dirExists listing :
  newestFirst (collectSnapshotFiles joinImageDir dirExists listing) /\
  Permutation (collectSnapshotFiles joinImageDir dirExists listing)
              (if dirExists then pngEntries joinImageDir listing else []).
Proof.
  unfold collectSnapshotFiles. destruct dirExists; [|split; [exact I|reflexivity]].
  split; [apply sort_sorted; exact I|]. rewrite sort_perm, app_nil_r. reflexivity.
Qed.

(** X26: [collectSnapshotFiles] lists, newest first, exactly the [.png]
    files of the image directory whose [fs.statSync] succeeded, each once
    per listing entry, and nothing when the directory does not exist. *)
Theorem collectSnapshotFiles_spec joinImageDir dirExists listing :
  let files := collectSnapshotFiles joinImageDir dirExists listing in
  newestFirst files /\
  Permutation files (if dirExists then pngEntries joinImageDir listing else []) /\
  (forall e, In e files <->
     dirExists = true /\
     exists file m, In (file, Some m) listing /\ endsWithPng file = true /\
                    e = mkEntry (joinImageDir file) m).
Proof.
  destruct (collect_facts joinImageDir dirExists listing) as [Hs Hp].
  split; [exact Hs|]. split; [exact Hp|].
  intros e. split.
  - intros He. apply (Permutation_in _ Hp) in He.
    destruct dirExists; [|contradiction]. split; [reflexivity|]. apply pngEntries_in, He.
  - intros [-> He]. apply (Permutation_in _ (Permutation_sym Hp)). apply pngEntries_in, He.
Qed.

(** X27: [pruneSnapshots] splits the snapshots into the 50 newest (all
    of them when there are fewer) and the rest, no newer than any one it
    keeps, and unlinks the rest; the path it makes the latest image is
    that of a newest snapshot, one it keeps, and there is none exactly
    when there is no snapshot. *)
Theorem pruneSnapshots_spec (joinImageDir : string -> string) (dirExists : bool)
    (listing : list (string * option Q)) :
  let entries := if dirExists then pngEntries joinImageDir listing else [] in
  let '(latest, removed) := pruneSnapshots joinImageDir dirExists listing in
  exists kept dropped,
    Permutation (kept ++ dropped) entries /\
    length kept = Nat.min MAX_SAVED_MAP_IMAGES (length entries) /\
    removed = map fullPath dropped /\
    Forall (fun d => Forall (fun k => mtime d <= mtime k) kept) dropped /\
    (latest = None <-> entries = []) /\
    (forall p, latest = Some p ->
       exists e, In e kept /\ fullPath e = p /\ Forall (fun e' => mtime e' <= mtime e) entries).
Proof.
  cbv zeta. destruct (collect_facts joinImageDir dirExists listing) as [Hs Hp].
  unfold pruneSnapshots.
  destruct (collectSnapshotFiles joinImageDir dirExists listing) as [|first rest] eqn:Ef.
  - apply Permutation_nil in Hp. rewrite Hp.
    exists [], []. split; [reflexivity|]. split; [reflexivity|]. split; [reflexivity|].
    split; [constructor|]. split; [tauto|]. intros p E. discriminate E.
  - exists (firstn MAX_SAVED_MAP_IMAGES (first :: rest)), (skipn MAX_SAVED_MAP_IMAGES (first :: rest)).
    rewrite firstn_skipn. split; [exact Hp|]. split; [|split; [reflexivity|split; [|split]]].
    + rewrite length_firstn, (Permutation_length Hp). reflexivity.
    + apply newestFirst_app. rewrite firstn_skipn. exact Hs.
    + split; [discriminate|]. intros E. rewrite E in Hp. destruct (Permutation_nil_cons (Permutation_sym Hp)).
    + intros p E. injection E as <-. exists first.
      split; [left; reflexivity|]. split; [reflexivity|].
      pose proof (newestFirst_head first rest Hs) as Hh. rewrite List.Forall_forall in Hh |- *.
      intros x Hx. apply Hh. exact (Permutation_in _ (Permutation_sym Hp) Hx).
Qed.

End SnapshotsFacts.
